(** * HK-glossary-to-anki: the LaTeX glossary scanner of [main.py]

    A shallow embedding of [main.py] (brace matcher, text normalizer, the
    glossary and acronym extractors, the CSV record writer) together with
    the part of the Python library the program relies on ([str] methods,
    the [re] module on the patterns of the program, [csv.writer]), and the
    properties of the program stated in the specification. *)

From Stdlib Require Import ZArith NArith List Bool Lia String Ascii.
Import ListNotations.
Open Scope Z_scope.

(* ================================================================== *)
(** * Python values *)
(* ================================================================== *)

(** A Python [str] is a sequence of Unicode code points. *)
Definition char : Type := N.
Definition str : Type := list char.

Definition ch (a : ascii) : char := N_of_ascii a.
Definition s_ (s : string) : str := map N_of_ascii (list_ascii_of_string s).
Arguments ch : simpl never.
Arguments s_ : simpl never.

Definition len (s : str) : Z := Z.of_nat (List.length s).

(** Outcome of a Python computation: a value, an [IndexError], or a loop
    that used up the iterations it was given. *)
Inductive result (A : Type) : Type :=
| Ok (a : A)
| IndexError
| OutOfFuel.
Arguments Ok {A} a.
Arguments IndexError {A}.
Arguments OutOfFuel {A}.

Definition bind {A B : Type} (r : result A) (k : A -> result B) : result B :=
  match r with
  | Ok a => k a
  | IndexError => IndexError
  | OutOfFuel => OutOfFuel
  end.

Notation "x <- e ;; k" := (bind e (fun x => k))
  (at level 61, e at next level, right associativity).
Notation "' pat <- e ;; k" := (bind e (fun x => match x with pat => k end))
  (at level 61, pat pattern, e at next level, right associativity).

Module PyStr.

(** [str.isspace] on one character; [\s] of [re] and [str.strip] use the
    same set. *)
Definition isspace (c : char) : bool :=
  ((9 <=? c) && (c <=? 13) || (28 <=? c) && (c <=? 32)
   || (c =? 133) || (c =? 160) || (c =? 5760)
   || (8192 <=? c) && (c <=? 8202)
   || (c =? 8232) || (c =? 8233) || (c =? 8239) || (c =? 8287)
   || (c =? 12288))%N.

(** [[a-zA-Z]] *)
Definition isalpha (c : char) : bool :=
  ((65 <=? c) && (c <=? 90) || (97 <=? c) && (c <=? 122))%N.

(** [text[i]]: a negative index counts from the end, an index out of
    range raises. *)
Definition getitem (text : str) (i : Z) : result char :=
  let j := if i <? 0 then i + len text else i in
  if (0 <=? j) && (j <? len text)
  then Ok (nth (Z.to_nat j) text 0%N)
  else IndexError.

(** The bound of a slice, as Python clamps it. *)
Definition clamp (text : str) (i : Z) : nat :=
  Z.to_nat (if i <? 0 then Z.max 0 (i + len text) else Z.min i (len text)).

(** [text[a:]] *)
Definition slice_from (text : str) (a : Z) : str :=
  skipn (clamp text a) text.

(** [text[a:b]] *)
Definition slice (text : str) (a b : Z) : str :=
  firstn (clamp text b - clamp text a) (skipn (clamp text a) text).

Fixpoint index_from (c : char) (s : str) (i : Z) : Z :=
  match s with
  | [] => -1
  | x :: s' => if (x =? c)%N then i else index_from c s' (i + 1)
  end.

(** [text.find(c, start)] for a single character [c]. *)
Definition find (text : str) (c : char) (start : Z) : Z :=
  index_from c (slice_from text start) (Z.of_nat (clamp text start)).

Fixpoint lstrip (s : str) : str :=
  match s with
  | [] => []
  | c :: s' => if isspace c then lstrip s' else s
  end.

Definition rstrip (s : str) : str := rev (lstrip (rev s)).

(** [text.strip()] *)
Definition strip (s : str) : str := rstrip (lstrip s).

(** Truth value of a string: [if text]. *)
Definition truthy (s : str) : bool :=
  match s with [] => false | _ => true end.

End PyStr.
Import PyStr.

(* ================================================================== *)
(** * The brace matcher *)
(* ================================================================== *)

(** The [while] loop of [find_matching_brace]; the state is
    [(brace_count, pos)]. *)
Fixpoint brace_loop (fuel : nat) (text : str) (brace_count pos : Z)
  : result (Z * Z) :=
  if (pos <? len text) && (0 <? brace_count) then
    match fuel with
    | O => OutOfFuel
    | S fuel' =>
        c <- getitem text pos ;;
        let brace_count :=
          if (c =? ch "{")%N then brace_count + 1
          else if (c =? ch "}")%N then brace_count - 1
          else brace_count in
        brace_loop fuel' text brace_count (pos + 1)
    end
  else Ok (brace_count, pos).

Definition find_matching_brace (text : str) (start_pos : Z) : result Z :=
  if start_pos >=? len text then Ok (-1)
  else
    c <- getitem text start_pos ;;
    if negb (c =? ch "{")%N then Ok (-1)
    else
      ' (brace_count, pos) <-
          brace_loop (Z.to_nat (len text - start_pos)) text 1 (start_pos + 1) ;;
      Ok (if brace_count =? 0 then pos - 1 else -1).

(** Number of occurrences of a character. *)
Definition count (c : char) (s : str) : Z :=
  Z.of_nat (count_occ N.eq_dec s c).

(** Nesting depth the scan started at the opening brace [text[i]] has
    after it has read [text[j]]: 1, +1 per opening brace and -1 per closing
    brace of [text[i+1 .. j]]. *)
Definition depth (text : str) (i j : Z) : Z :=
  1 + count (ch "{") (slice text (i + 1) (j + 1))
    - count (ch "}") (slice text (i + 1) (j + 1)).


(* ================================================================== *)
(** * The [re] module *)
(* ================================================================== *)

Module Re.

(** The patterns of the program: literal text, greedy repetition of a
    character class, sequence, ordered alternative, capturing group. *)
Inductive regex : Type :=
| Lit (l : str)
| Star (p : char -> bool)
| Plus (p : char -> bool)
| Seq (r1 r2 : regex)
| Alt (r1 r2 : regex)
| Group (n : nat) (r : regex).

(** Text captured by the groups, the last capture first. *)
Definition groups : Type := list (nat * str).

Fixpoint lookup (n : nat) (g : groups) : option str :=
  match g with
  | [] => None
  | (m, x) :: g' => if Nat.eqb m n then Some x else lookup n g'
  end.

Fixpoint strip_prefix (l s : str) : option str :=
  match l, s with
  | [], _ => Some s
  | a :: l', c :: s' => if (a =? c)%N then strip_prefix l' s' else None
  | _ :: _, [] => None
  end.

Section Backtrack.
Context {R : Type}.

(** [p*]: the longest run first, giving characters back one at a time
    when the rest of the pattern fails. *)
Fixpoint star (p : char -> bool) (s : str) (n : nat)
         (k : str -> nat -> option R) : option R :=
  match s with
  | c :: s' =>
      if p c then
        match star p s' (S n) k with
        | Some r => Some r
        | None => k s n
        end
      else k s n
  | [] => k s n
  end.

(** [run r s n g k] matches [r] at the head of [s], [n] characters of
    the match already read and [g] captured, and hands the rest to the
    continuation [k]; [None] makes the matcher backtrack. *)
Fixpoint run (r : regex) (s : str) (n : nat) (g : groups)
         (k : str -> nat -> groups -> option R) : option R :=
  match r with
  | Lit l =>
      match strip_prefix l s with
      | Some s' => k s' (n + List.length l)%nat g
      | None => None
      end
  | Star p => star p s n (fun s' n' => k s' n' g)
  | Plus p =>
      match s with
      | c :: s' => if p c then star p s' (S n) (fun s' n' => k s' n' g)
                   else None
      | [] => None
      end
  | Seq r1 r2 => run r1 s n g (fun s' n' g' => run r2 s' n' g' k)
  | Alt r1 r2 =>
      match run r1 s n g k with
      | Some x => Some x
      | None => run r2 s n g k
      end
  | Group i r1 =>
      run r1 s n g (fun s' n' g' => k s' n' ((i, firstn (n' - n) s) :: g'))
  end.
End Backtrack.

(** A match of the pattern at the head of [s]: its length and groups.
    With [must_advance] an empty match is refused. *)
Definition match_here (r : regex) (must_advance : bool) (s : str)
  : option (nat * groups) :=
  run r s 0%nat []
      (fun _ n g => if must_advance && Nat.eqb n 0 then None else Some (n, g)).

(** A match object. *)
Record Match : Type := { m_start : Z; m_end : Z; m_groups : groups }.

(** [m.group(n)]; [None] when the group took no part in the match. *)
Definition group (m : Match) (n : nat) : option str := lookup n (m_groups m).

Fixpoint search_from (r : regex) (s : str) (i : nat) : option Match :=
  match match_here r false s with
  | Some (n, g) =>
      Some {| m_start := Z.of_nat i; m_end := Z.of_nat (i + n); m_groups := g |}
  | None =>
      match s with
      | [] => None
      | _ :: s' => search_from r s' (S i)
      end
  end.

(** [re.search(r, s)]: the leftmost match. *)
Definition search (r : regex) (s : str) : option Match := search_from r s 0.

(** A replacement template: literal text and group references [\n]. *)
Inductive titem : Type :=
| T (l : str)
| G (n : nat).

Definition expand (repl : list titem) (g : groups) : str :=
  flat_map (fun t => match t with
                     | T l => l
                     | G n => match lookup n g with Some x => x | None => [] end
                     end) repl.

(** The scan of [re.sub]. [skip] characters of [s] still belong to the
    match replaced last. After an empty match the search is tried again at
    the same place for a match that advances. *)
Fixpoint sub_from (r : regex) (repl : list titem) (s : str) (skip : nat) : str :=
  match skip with
  | S k =>
      match s with
      | [] => []
      | _ :: s' => sub_from r repl s' k
      end
  | O =>
      let resume (n : nat) : str :=
        match s with
        | [] => []
        | c :: s' =>
            match n with
            | O => c :: sub_from r repl s' 0
            | S k => sub_from r repl s' k
            end
        end in
      match match_here r false s with
      | Some (S k, g) => expand repl g ++ resume (S k)
      | Some (O, g) =>
          expand repl g ++
          match match_here r true s with
          | Some (n, g') => expand repl g' ++ resume n
          | None => resume O
          end
      | None => resume O
      end
  end.

(** [re.sub(r, repl, s)] *)
Definition sub (r : regex) (repl : list titem) (s : str) : str :=
  sub_from r repl s 0.

End Re.
Import Re.

Notation "a @ b" := (Seq a b) (at level 60, right associativity).

Definition is_not (c : char) : char -> bool := fun x => negb (x =? c)%N.

(* ================================================================== *)
(** * The text normalizer *)
(* ================================================================== *)

(** [\s+] *)
Definition re_spaces : regex := Plus isspace.
(** [\\textbf\{([^}]+)\}] *)
Definition re_textbf : regex :=
  Lit (s_ "\textbf{") @ Group 1 (Plus (is_not (ch "}"))) @ Lit (s_ "}").
(** [\\emph\{([^}]+)\}] *)
Definition re_emph : regex :=
  Lit (s_ "\emph{") @ Group 1 (Plus (is_not (ch "}"))) @ Lit (s_ "}").
(** [\\dots] and [\\ldots] *)
Definition re_dots : regex := Lit (s_ "\dots").
Definition re_ldots : regex := Lit (s_ "\ldots").
(** [\\([a-zA-Z]+)] *)
Definition re_command : regex := Lit (s_ "\") @ Group 1 (Plus isalpha).

Definition clean_latex_text (text : str) : str :=
  if negb (truthy text) then []
  else
    let text := sub re_spaces [T (s_ " ")] (strip text) in
    let text := sub re_textbf [T (s_ "<b>"); G 1; T (s_ "</b>")] text in
    let text := sub re_emph [T (s_ "<i>"); G 1; T (s_ "</i>")] text in
    let text := sub re_dots [T (s_ "...")] text in
    let text := sub re_ldots [T (s_ "...")] text in
    let text := sub re_command [G 1] text in
    strip text.

(* ================================================================== *)
(** * The extractors *)
(* ================================================================== *)

(** An entry [{'name': ..., 'description': ...}]. *)
Record entry : Type := { name : str; description : str }.

(** What one turn of a scanning loop does: [break], or go on from [pos]
    with the entries it appended. *)
Inductive turn : Type :=
| Break
| Continue (pos : Z) (appended : list entry).

(** [\\newglossaryentry] and [\\newacronym] *)
Definition re_newglossaryentry : regex := Lit (s_ "\newglossaryentry").
Definition re_newacronym : regex := Lit (s_ "\newacronym").

(** The pattern of line 91: [name\s*=\s*] followed by a brace group with
    no closing brace inside (group 1), or else [name\s*=\s*] followed by a
    non-empty run [[^,}]+] (group 2). *)
Definition re_name : regex :=
  Alt (Lit (s_ "name") @ Star isspace @ Lit (s_ "=") @ Star isspace
       @ Lit (s_ "{") @ Group 1 (Star (is_not (ch "}"))) @ Lit (s_ "}"))
      (Lit (s_ "name") @ Star isspace @ Lit (s_ "=") @ Star isspace
       @ Group 2 (Plus (fun c => negb ((c =? ch ",") || (c =? ch "}"))%N))).

(** [description\s*=\s*\{] *)
Definition re_description : regex :=
  Lit (s_ "description") @ Star isspace @ Lit (s_ "=") @ Star isspace
  @ Lit (s_ "{").

(** Truth value of a value that is a string or [None]. *)
Definition truthy_opt (v : option str) : bool :=
  match v with Some s => truthy s | None => false end.

(** Lines 90-96: the [name] parameter, [None] when there is none. *)
Definition parse_name (params : str) : option str :=
  match search re_name params with
  | None => None
  | Some name_match =>
      let name := match group name_match 1 with
                  | Some g => Some g
                  | None => group name_match 2
                  end in
      match name with
      | Some n => if truthy n then Some (strip n) else Some n
      | None => None
      end
  end.

(** Lines 98-107: the [description] parameter, [None] when there is none. *)
Definition parse_description (params : str) : result (option str) :=
  match search re_description params with
  | None => Ok None
  | Some desc_match =>
      let desc_start := m_end desc_match - 1 in
      desc_end <- find_matching_brace params desc_start ;;
      if negb (desc_end =? -1)
      then Ok (Some (strip (slice params (desc_start + 1) desc_end)))
      else Ok None
  end.

(** Lines 109-121: the entries one occurrence appends. *)
Definition glossary_emit (key : str) (name description : option str)
  : list entry :=
  let name := if negb (truthy_opt name) then Some key else name in
  match name, description with
  | Some n, Some d =>
      if truthy n && truthy d
      then [ {| name := clean_latex_text n; description := clean_latex_text d |} ]
      else []
  | _, _ => []
  end.

(** One turn of the [while True] loop of [parse_glossary_entries]. *)
Definition glossary_turn (tex_content : str) (pos : Z) : result turn :=
  match search re_newglossaryentry (slice_from tex_content pos) with
  | None => Ok Break
  | Some m =>
      let start_pos := pos + m_start m in
      let pos := pos + m_end m in
      let first_brace := find tex_content (ch "{") start_pos in
      if first_brace =? -1 then Ok (Continue pos []) else
      key_end <- find_matching_brace tex_content first_brace ;;
      if key_end =? -1 then Ok (Continue pos []) else
      let key := strip (slice tex_content (first_brace + 1) key_end) in
      let second_brace := find tex_content (ch "{") (key_end + 1) in
      if second_brace =? -1 then Ok (Continue pos []) else
      params_end <- find_matching_brace tex_content second_brace ;;
      if params_end =? -1 then Ok (Continue pos []) else
      let params := slice tex_content (second_brace + 1) params_end in
      let name := parse_name params in
      description <- parse_description params ;;
      Ok (Continue (start_pos + (params_end - start_pos) + 1)
                   (glossary_emit key name description))
  end.

(** A scanning loop: the turns are taken until one breaks. *)
Fixpoint scan_loop (body : str -> Z -> result turn) (fuel : nat)
         (tex_content : str) (pos : Z) (entries : list entry)
  : result (list entry) :=
  match fuel with
  | O => OutOfFuel
  | S fuel' =>
      t <- body tex_content pos ;;
      match t with
      | Break => Ok entries
      | Continue pos' appended =>
          scan_loop body fuel' tex_content pos' (entries ++ appended)
      end
  end.

Definition parse_glossary_entries (tex_content : str) : result (list entry) :=
  scan_loop glossary_turn (S (List.length tex_content)) tex_content 0 [].

(** Lines 180-188: the entries one acronym occurrence appends. *)
Definition acronym_emit (short_form long_form : str) : list entry :=
  let short_form := clean_latex_text short_form in
  let long_form := clean_latex_text long_form in
  if truthy short_form && truthy long_form
  then [ {| name := short_form; description := long_form |} ]
  else [].

(** One turn of the [while True] loop of [parse_acronym_entries]. *)
Definition acronym_turn (tex_content : str) (pos : Z) : result turn :=
  match search re_newacronym (slice_from tex_content pos) with
  | None => Ok Break
  | Some m =>
      let start_pos := pos + m_start m in
      let pos := pos + m_end m in
      let first_brace := find tex_content (ch "{") start_pos in
      if first_brace =? -1 then Ok (Continue pos []) else
      key_end <- find_matching_brace tex_content first_brace ;;
      if key_end =? -1 then Ok (Continue pos []) else
      let key := strip (slice tex_content (first_brace + 1) key_end) in
      let second_brace := find tex_content (ch "{") (key_end + 1) in
      if second_brace =? -1 then Ok (Continue pos []) else
      short_end <- find_matching_brace tex_content second_brace ;;
      if short_end =? -1 then Ok (Continue pos []) else
      let short_form := strip (slice tex_content (second_brace + 1) short_end) in
      let third_brace := find tex_content (ch "{") (short_end + 1) in
      if third_brace =? -1 then Ok (Continue pos []) else
      long_end <- find_matching_brace tex_content third_brace ;;
      if long_end =? -1 then Ok (Continue pos []) else
      let long_form := strip (slice tex_content (third_brace + 1) long_end) in
      Ok (Continue (start_pos + (long_end - start_pos) + 1)
                   (acronym_emit short_form long_form))
  end.

Definition parse_acronym_entries (tex_content : str) : result (list entry) :=
  scan_loop acronym_turn (S (List.length tex_content)) tex_content 0 [].

Definition parse_all_entries (tex_content : str) : result (list entry) :=
  glossary_entries <- parse_glossary_entries tex_content ;;
  acronym_entries <- parse_acronym_entries tex_content ;;
  Ok (glossary_entries ++ acronym_entries).

(* ================================================================== *)
(** * The record writer *)
(* ================================================================== *)

Module Csv.

(** The dialect [csv.writer] has by default: [excel]. *)
Definition delimiter : char := ch ",".
Definition quotechar : char := 34%N.
Definition cr : char := 13%N.
Definition lf : char := 10%N.
Definition lineterminator : str := [cr; lf].

(** The characters that make [QUOTE_MINIMAL] quote a field. *)
Definition special (c : char) : bool :=
  ((c =? delimiter) || (c =? quotechar) || existsb (N.eqb c) lineterminator)%N.

Definition double_quotes (f : str) : str :=
  flat_map (fun c => if (c =? quotechar)%N then [quotechar; quotechar] else [c]) f.

Definition field (f : str) : str :=
  if existsb special f
  then quotechar :: double_quotes f ++ [quotechar]
  else f.

Fixpoint join (sep : str) (l : list str) : str :=
  match l with
  | [] => []
  | [x] => x
  | x :: l' => x ++ sep ++ join sep l'
  end.

(** [writer.writerow(row)]: the text written. A row that is one empty
    field is written as a pair of quotes. *)
Definition writerow (row : list str) : str :=
  match row with
  | [ [] ] => [quotechar; quotechar] ++ lineterminator
  | _ => join [delimiter] (map field row) ++ lineterminator
  end.

Inductive rstate : Type :=
| StartRecord
| StartField
| InField
| InQuotedField
| QuoteInQuotedField
| EatLF.

Definition is_newline (c : char) : bool := ((c =? cr) || (c =? lf))%N.
Definition after_newline (c : char) : rstate :=
  if (c =? cr)%N then EatLF else StartRecord.

(** Modelled from the spec: the reader of the delimited file, which the
    repository does not contain (it only writes the file). It reads the
    RFC-4180-style format of section 6: fields separated by commas,
    records ended by CR LF (a lone CR or LF is taken too), a field
    optionally wrapped in double quotes, inside which a doubled quote
    stands for one quote and every other character for itself.
    [feed] reads one character: the new state, the field being read
    (reversed), the fields of the record read so far (reversed), and the
    records completed by this character. *)
Definition feed (st : rstate) (cur : str) (fields : list str) (c : char)
  : rstate * str * list str * list (list str) :=
  let st := match st with
            | EatLF => StartRecord
            | _ => st
            end in
  match st with
  | StartRecord | EatLF =>
      if is_newline c then (after_newline c, [], [], [ [] ])
      else if (c =? quotechar)%N then (InQuotedField, [], [], [])
      else if (c =? delimiter)%N then (StartField, [], [ [] ], [])
      else (InField, [c], [], [])
  | StartField =>
      if is_newline c
      then (after_newline c, [], [], [ rev ([] :: fields) ])
      else if (c =? quotechar)%N then (InQuotedField, [], fields, [])
      else if (c =? delimiter)%N then (StartField, [], [] :: fields, [])
      else (InField, [c], fields, [])
  | InField =>
      if is_newline c
      then (after_newline c, [], [], [ rev (rev cur :: fields) ])
      else if (c =? delimiter)%N then (StartField, [], rev cur :: fields, [])
      else (InField, c :: cur, fields, [])
  | InQuotedField =>
      if (c =? quotechar)%N then (QuoteInQuotedField, cur, fields, [])
      else (InQuotedField, c :: cur, fields, [])
  | QuoteInQuotedField =>
      if (c =? quotechar)%N then (InQuotedField, c :: cur, fields, [])
      else if (c =? delimiter)%N then (StartField, [], rev cur :: fields, [])
      else if is_newline c
      then (after_newline c, [], [], [ rev (rev cur :: fields) ])
      else (InField, c :: cur, fields, [])
  end.

Fixpoint read (st : rstate) (cur : str) (fields : list str) (s : str)
  : list (list str) :=
  match s with
  | [] =>
      match st with
      | StartRecord | EatLF => []
      | _ => [ rev (rev cur :: fields) ]
      end
  | c :: s' =>
      if match st with EatLF => (c =? lf)%N | _ => false end
      then read StartRecord [] [] s'
      else
        let '(st', cur', fields', done) := feed st cur fields c in
        done ++ read st' cur' fields' s'
  end.

(** Modelled from the spec: reading the delimited file back, the rows in
    the order of the file. *)
Definition reader (s : str) : list (list str) := read StartRecord [] [] s.

End Csv.

(** [write_anki_csv(entries, output_file)]: the text written to the file,
    one row per entry. *)
Definition write_anki_csv (entries : list entry) : str :=
  flat_map (fun entry => Csv.writerow [name entry; description entry]) entries.

(* ================================================================== *)
(** * Definitions used to state and prove the properties *)
(* ================================================================== *)

(** What one character does to the nesting depth. *)
Definition bump (c : char) (brace_count : Z) : Z :=
  if (c =? ch "{")%N then brace_count + 1
  else if (c =? ch "}")%N then brace_count - 1
  else brace_count.

(** The loop of [find_matching_brace] on the text that is still to be
    read. *)
Fixpoint scan (s : str) (brace_count pos : Z) : Z * Z :=
  match s with
  | [] => (brace_count, pos)
  | c :: s' =>
      if 0 <? brace_count then scan s' (bump c brace_count) (pos + 1)
      else (brace_count, pos)
  end.

(** Opening braces minus closing braces. *)
Definition net (s : str) : Z := count (ch "{") s - count (ch "}") s.

(** The texts a pattern matches, with the groups it captures (the last
    capture first). *)
Inductive matches : regex -> str -> groups -> Prop :=
| M_Lit l : matches (Lit l) l []
| M_Star p w : forallb p w = true -> matches (Star p) w []
| M_Plus p w : w <> [] -> forallb p w = true -> matches (Plus p) w []
| M_Seq r1 r2 w1 w2 g1 g2 :
    matches r1 w1 g1 -> matches r2 w2 g2 ->
    matches (Seq r1 r2) (w1 ++ w2) (g2 ++ g1)
| M_AltL r1 r2 w g : matches r1 w g -> matches (Alt r1 r2) w g
| M_AltR r1 r2 w g : matches r2 w g -> matches (Alt r1 r2) w g
| M_Group i r w g : matches r w g -> matches (Group i r) w ((i, w) :: g).

(** No match of the pattern starts at the head of [s]. *)
Definition no_match_here (r : regex) (s : str) : Prop :=
  forall w s' g, s = w ++ s' -> ~ matches r w g.

(** The run of a scanning loop from [pos]: the turns it takes, at
    positions that grow, and the entries they append, in that order. *)
Inductive scan_trace (body : str -> Z -> result turn) (tex_content : str)
  : Z -> list entry -> Prop :=
| trace_break pos :
    body tex_content pos = Ok Break ->
    scan_trace body tex_content pos []
| trace_continue pos pos' appended rest :
    body tex_content pos = Ok (Continue pos' appended) ->
    pos < pos' ->
    scan_trace body tex_content pos' rest ->
    scan_trace body tex_content pos (appended ++ rest).

(** A loop body that does not raise and moves forward inside the text. *)
Definition progresses (body : str -> Z -> result turn) : Prop :=
  forall tex_content pos,
    0 <= pos ->
    exists t, body tex_content pos = Ok t
              /\ match t with
                 | Break => True
                 | Continue pos' _ => pos < pos' <= len tex_content
                 end.

(** An entry written with string literals. *)
Definition mk (a b : string) : entry := {| name := s_ a; description := s_ b |}.

(** The extractors in the words of the specification: the first opening
    brace at or behind [from] and, by the brace matcher, its closing brace;
    nothing when either is missing. *)
Definition brace_group (tex_content : str) (from : Z) : option (Z * Z) :=
  let opening := find tex_content (ch "{") from in
  if opening =? -1 then None
  else match find_matching_brace tex_content opening with
       | Ok closing => if closing =? -1 then None else Some (opening, closing)
       | _ => None
       end.

(** The text inside a brace group, trimmed. *)
Definition group_text (tex_content : str) (g : Z * Z) : str :=
  strip (slice tex_content (fst g + 1) (snd g)).

(** The acronym extractor at one occurrence, in the words of the
    specification: three brace groups one behind the other (key, short
    form, long form); the occurrence is skipped when one of them is
    missing; an entry is emitted when the short and the long form are both
    non-empty after normalization. *)
Definition acronym_occurrence (tex_content : str) (pos : Z) : turn :=
  match search re_newacronym (slice_from tex_content pos) with
  | None => Break
  | Some m =>
      let skipped := Continue (pos + m_end m) [] in
      match brace_group tex_content (pos + m_start m) with
      | None => skipped
      | Some key =>
          match brace_group tex_content (snd key + 1) with
          | None => skipped
          | Some short =>
              match brace_group tex_content (snd short + 1) with
              | None => skipped
              | Some long =>
                  let short_form := clean_latex_text (group_text tex_content short) in
                  let long_form := clean_latex_text (group_text tex_content long) in
                  Continue (snd long + 1)
                    (match short_form, long_form with
                     | _ :: _, _ :: _ =>
                         [ {| name := short_form; description := long_form |} ]
                     | _, _ => []
                     end)
              end
          end
      end
  end.

(** Whether the text [l] occurs in [s]. *)
Fixpoint occurs (l s : str) : bool :=
  match strip_prefix l s with
  | Some _ => true
  | None => match s with
            | [] => false
            | _ :: s' => occurs l s'
            end
  end.

(** The shape of the two markup patterns: the command with its opening
    brace, a non-empty run without closing brace (group 1), a closing
    brace. *)
Definition markup (command : str) : regex :=
  Lit command @ Group 1 (Plus (is_not (ch "}"))) @ Lit (s_ "}").

(** The second and third step of the normalizer. *)
Definition bold (text : str) : str :=
  sub re_textbf [T (s_ "<b>"); G 1; T (s_ "</b>")] text.
Definition italic (text : str) : str :=
  sub re_emph [T (s_ "<i>"); G 1; T (s_ "</i>")] text.

(** A tidy field: its only white space is the blank (no newline, no
    tab), no two white-space characters follow each other, and it neither
    starts nor ends with white space. *)
Definition tidy (s : str) : Prop :=
  (forall c, In c s -> isspace c = true -> c = ch " ")
  /\ (forall a b c d, s = a ++ c :: d :: b ->
                      isspace c = true -> isspace d = true -> False)
  /\ (forall c t, s = c :: t -> isspace c = false)
  /\ (forall c t, s = t ++ [c] -> isspace c = false).

(** Reading a tidy text from left to right: where the reader stands. *)
Inductive wstate : Type :=
| AtStart
| AfterSpace
| AfterOther.

Definition wstep (st : wstate) (c : char) : option wstate :=
  if isspace c then
    if (c =? ch " ")%N
    then match st with AfterOther => Some AfterSpace | _ => None end
    else None
  else Some AfterOther.

Fixpoint walk (st : wstate) (s : str) : option wstate :=
  match s with
  | [] => Some st
  | c :: s' => match wstep st c with
               | Some st' => walk st' s'
               | None => None
               end
  end.

(** Whether a text, when it is not empty, starts without white space. *)
Definition starts_clean (s : str) : Prop :=
  match s with c :: _ => isspace c = false | [] => True end.

(** An entry whose two fields came out of the normalizer. *)
Definition normalized (e : entry) : Prop :=
  exists a b, name e = clean_latex_text a /\ description e = clean_latex_text b.

(** Whether a text, when it is not empty, ends without white space. *)
Definition ends_clean (s : str) : Prop :=
  forall c t, s = t ++ [c] -> isspace c = false.

(** A non-empty text without white space. *)
Definition word (w : str) : Prop :=
  w <> [] /\ forallb (fun c => negb (isspace c)) w = true.

(** A substitution that keeps a tidy text tidy: its matches are not empty,
    and what replaces a match leaves the reader where the match did. *)
Definition keeps_walk (r : regex) (repl : list titem) : Prop :=
  forall s n g,
    match_here r false s = Some (n, g) ->
    (0 < n)%nat
    /\ forall st st', walk st (firstn n s) = Some st' ->
                      walk st (expand repl g) = Some st'.

(** A text whose braces are balanced: as many opening as closing braces,
    and at no point more closing than opening ones. *)
Definition balanced (s : str) : Prop :=
  net s = 0 /\ forall n, 0 <= net (firstn n s).

(** A body between braces. *)
Definition braced (body : str) : str := ch "{" :: body ++ [ch "}"].

(** The check of [balanced], the depth so far being [d]. *)
Fixpoint balanced_from (d : Z) (s : str) : bool :=
  match s with
  | [] => d =? 0
  | c :: s' => (0 <=? bump c d) && balanced_from (bump c d) s'
  end.

(** An index of a text, or the not-found signal, as it reads in a text
    with [k] more characters in front. *)
Definition shift_index (k r : Z) : Z := if r =? -1 then -1 else k + r.

(** A substitution whose matches are not empty and are replaced by a text
    that is not empty and not longer than the match. *)
Definition shrinking (r : regex) (repl : list titem) : Prop :=
  forall w g,
    matches r w g ->
    w <> [] /\ expand repl g <> []
    /\ (List.length (expand repl g) <= List.length w)%nat.

(** A pattern that matches only texts that hold a backslash. *)
Definition slashed (r : regex) : Prop :=
  forall w g, matches r w g -> In (ch "\") w.

(** The substitutions of the normalizer, one after the other, on a text
    already trimmed. *)
Definition substitutions (text : str) : str :=
  sub re_command [G 1]
    (sub re_ldots [T (s_ "...")]
       (sub re_dots [T (s_ "...")]
          (sub re_emph [T (s_ "<i>"); G 1; T (s_ "</i>")]
             (sub re_textbf [T (s_ "<b>"); G 1; T (s_ "</b>")]
                (sub re_spaces [T (s_ " ")] text))))).

(** The glossary extractor at one occurrence, with the lookups of the
    program read as brace groups: the key, then the parameter block; the
    occurrence is skipped when one of them is missing. *)
Definition glossary_occurrence (tex_content : str) (pos : Z) : result turn :=
  match search re_newglossaryentry (slice_from tex_content pos) with
  | None => Ok Break
  | Some m =>
      let skipped := Ok (Continue (pos + m_end m) []) in
      match brace_group tex_content (pos + m_start m) with
      | None => skipped
      | Some key =>
          match brace_group tex_content (snd key + 1) with
          | None => skipped
          | Some block =>
              let params := slice tex_content (fst block + 1) (snd block) in
              description <- parse_description params ;;
              Ok (Continue (snd block + 1)
                    (glossary_emit (group_text tex_content key)
                                   (parse_name params) description))
          end
      end
  end.

(** The outcome of a turn, as it reads in a text with [k] more characters
    in front. *)
Definition shift_turn (k : Z) (t : result turn) : result turn :=
  match t with
  | Ok (Continue pos appended) => Ok (Continue (k + pos) appended)
  | other => other
  end.

Definition shift_group (k : Z) (g : Z * Z) : Z * Z := (k + fst g, k + snd g).

(** Whether the text [l] starts at one of the first [n] places of [s]. *)
Fixpoint starts_within (l s : str) (n : nat) {struct n} : bool :=
  match n with
  | O => false
  | S n' =>
      match strip_prefix l s with
      | Some _ => true
      | None => match s with
                | [] => false
                | _ :: s' => starts_within l s' n'
                end
      end
  end.

(** A scanning loop body that looks forward only: text in front of the
    text moves its outcome, and places before the first command are
    skipped. *)
Definition forward_only (command : str) (body : str -> Z -> result turn) : Prop :=
  (forall a t p,
      0 <= p -> body (a ++ t) (len a + p) = shift_turn (len a) (body t p))
  /\ (forall junk rest,
         starts_within command (junk ++ rest) (List.length junk) = false ->
         body (junk ++ rest) 0 = body (junk ++ rest) (len junk)).

(** An entry with a name and a description that are not empty. *)
Definition filled (e : entry) : Prop := name e <> [] /\ description e <> [].

(** A match, as it reads in a text with [k] more characters in front. *)
Definition offset_match (k : Z) (m : Match) : Match :=
  {| m_start := k + m_start m; m_end := k + m_end m; m_groups := m_groups m |}.

(** An entry whose fields hold no line break. *)
Definition one_line (e : entry) : Prop :=
  (~ In Csv.cr (name e) /\ ~ In Csv.lf (name e))
  /\ (~ In Csv.cr (description e) /\ ~ In Csv.lf (description e)).

(** Where a name written without braces ends: at a comma, at a closing
    brace, or with the text. *)
Definition ends_value (rest : str) : bool :=
  match rest with
  | [] => true
  | c :: _ => ((c =? ch ",") || (c =? ch "}"))%N
  end.

(** [n] brace groups one behind the other, the first one looked for from
    [from]; nothing when one of them cannot be located. *)
Fixpoint brace_groups (n : nat) (tex_content : str) (from : Z)
  : option (list (Z * Z)) :=
  match n with
  | O => Some []
  | S n' =>
      match brace_group tex_content from with
      | None => None
      | Some g => option_map (cons g) (brace_groups n' tex_content (snd g + 1))
      end
  end.

(** The number of places of [s] where the text [l] starts. *)
Fixpoint occurrences (l s : str) : nat :=
  (match strip_prefix l s with Some _ => 1 | None => 0 end
   + match s with
     | [] => 0
     | _ :: s' => occurrences l s'
     end)%nat.

(** Whether a name field starts at the head of [s], as the program looks
    for one: the word [name], optional white space, [=] and a further
    character other than a comma and a closing brace. *)
Definition name_value_here (s : str) : bool :=
  match strip_prefix (s_ "name") s with
  | Some s1 =>
      match lstrip s1 with
      | e :: b => (e =? ch "=")%N && negb (ends_value b)
      | [] => false
      end
  | None => false
  end.

(** Whether such a name field starts at some place of [s]. *)
Fixpoint has_name_field (s : str) : bool :=
  name_value_here s
  || match s with
     | [] => false
     | _ :: s' => has_name_field s'
     end.

(* ================================================================== *)
(** * Properties *)
(* ================================================================== *)

Section PyStrFacts.

Lemma len_nonneg (s : str) : 0 <= len s.
Proof. unfold len. lia. Qed.

Lemma len_cons (c : char) (s : str) : len (c :: s) = len s + 1.
Proof. unfold len. simpl. lia. Qed.

Lemma len_app (s t : str) : len (s ++ t) = len s + len t.
Proof. unfold len. rewrite length_app. lia. Qed.

Lemma getitem_nth (text : str) (i : Z) :
  0 <= i < len text -> getitem text i = Ok (nth (Z.to_nat i) text 0%N).
Proof.
  intros H. unfold getitem.
  destruct (Z.ltb_spec i 0); [lia|].
  destruct (Z.leb_spec 0 i); [|lia].
  destruct (Z.ltb_spec i (len text)); [reflexivity|lia].
Qed.

Lemma clamp_id (text : str) (i : Z) :
  0 <= i <= len text -> clamp text i = Z.to_nat i.
Proof.
  intros H. unfold clamp.
  destruct (Z.ltb_spec i 0); [lia|]. f_equal. lia.
Qed.

Lemma clamp_le (text : str) (i : Z) : (clamp text i <= List.length text)%nat.
Proof.
  unfold clamp, len. destruct (Z.ltb_spec i 0); lia.
Qed.

Lemma skipn_nth (text : str) (n : nat) :
  (n < List.length text)%nat ->
  skipn n text = nth n text 0%N :: skipn (S n) text.
Proof.
  revert n. induction text as [|c text IH]; intros n H; simpl in H; [lia|].
  destruct n as [|n]; [reflexivity|].
  simpl. apply IH. lia.
Qed.

Lemma skipn_length_app (a b : str) : skipn (List.length a) (a ++ b) = b.
Proof. rewrite skipn_app, skipn_all, Nat.sub_diag. reflexivity. Qed.

Lemma slice_firstn_skipn (text : str) (a b : Z) :
  0 <= a <= len text -> 0 <= b <= len text ->
  slice text a b = firstn (Z.to_nat b - Z.to_nat a) (skipn (Z.to_nat a) text).
Proof.
  intros Ha Hb. unfold slice. now rewrite !clamp_id.
Qed.

End PyStrFacts.

Section BraceMatcher.

Lemma count_nil (c : char) : count c [] = 0.
Proof. reflexivity. Qed.

Lemma count_cons (c x : char) (s : str) :
  count c (x :: s) = (if (x =? c)%N then 1 else 0) + count c s.
Proof.
  unfold count. simpl.
  destruct (N.eq_dec x c) as [E|E].
  - apply N.eqb_eq in E. rewrite E. lia.
  - apply N.eqb_neq in E. rewrite E. lia.
Qed.

Lemma count_app (c : char) (s t : str) : count c (s ++ t) = count c s + count c t.
Proof. unfold count. rewrite count_occ_app. apply Nat2Z.inj_add. Qed.

Lemma net_cons (c : char) (s : str) : net (c :: s) = bump c 0 + net s.
Proof.
  unfold net, bump. rewrite !count_cons.
  destruct (N.eqb_spec c (ch "{")), (N.eqb_spec c (ch "}"));
    subst; try discriminate; lia.
Qed.

Lemma bump_shift (c : char) (d : Z) : bump c d = d + bump c 0.
Proof.
  unfold bump.
  destruct (c =? ch "{")%N; [lia|]. destruct (c =? ch "}")%N; lia.
Qed.

Lemma bump_zero (c : char) (d : Z) : 0 < d -> bump c d = 0 -> c = ch "}".
Proof.
  unfold bump. intros Hd.
  destruct (N.eqb_spec c (ch "{")); [lia|].
  destruct (N.eqb_spec c (ch "}")); [auto|lia].
Qed.

Lemma bump_step (c : char) (d : Z) : d - 1 <= bump c d <= d + 1.
Proof.
  unfold bump.
  destruct (c =? ch "{")%N; [lia|]. destruct (c =? ch "}")%N; lia.
Qed.

Lemma scan_zero (s : str) (pos : Z) : scan s 0 pos = (0, pos).
Proof. destruct s; reflexivity. Qed.

(** The loop of the program is the scan of the text from [pos] on. *)
Lemma brace_loop_scan (fuel : nat) (text : str) :
  forall brace_count pos,
    0 <= pos ->
    (Z.to_nat (len text - pos) <= fuel)%nat ->
    brace_loop fuel text brace_count pos
    = Ok (scan (skipn (Z.to_nat pos) text) brace_count pos).
Proof.
  induction fuel as [|fuel IH]; intros bc pos Hpos Hfuel.
  - simpl. destruct (Z.ltb_spec pos (len text)); [lia|].
    rewrite skipn_all2 by (unfold len in *; lia). reflexivity.
  - simpl. destruct (Z.ltb_spec pos (len text)) as [Hlt|Hge].
    + rewrite (skipn_nth text (Z.to_nat pos)) by (unfold len in *; lia).
      simpl. destruct (0 <? bc) eqn:Hbc; simpl; [|reflexivity].
      rewrite getitem_nth by lia. simpl.
      rewrite IH by lia.
      replace (Z.to_nat (pos + 1)) with (S (Z.to_nat pos)) by lia.
      reflexivity.
    + simpl. rewrite skipn_all2 by (unfold len in *; lia). reflexivity.
Qed.

(** The scan stops at the first place where the depth is 0. *)
Lemma scan_hit (s : str) :
  forall brace_count pos n,
    0 < brace_count ->
    (n < List.length s)%nat ->
    brace_count + net (firstn (S n) s) = 0 ->
    (forall m, (m < n)%nat -> brace_count + net (firstn (S m) s) <> 0) ->
    scan s brace_count pos = (0, pos + Z.of_nat n + 1)
    /\ nth n s 0%N = ch "}".
Proof.
  induction s as [|c s IH]; intros bc pos n Hbc Hn Hz Hfirst; simpl in Hn; [lia|].
  simpl scan. destruct (Z.ltb_spec 0 bc); [|lia].
  rewrite firstn_cons, net_cons in Hz.
  destruct n as [|n].
  - simpl in Hz. unfold net in Hz. rewrite !count_nil in Hz.
    assert (Hb : bump c bc = 0) by (rewrite bump_shift; lia).
    rewrite Hb, scan_zero. split; [f_equal; lia|].
    simpl. eapply bump_zero; eauto.
  - assert (Hb : bump c bc <> 0).
    { specialize (Hfirst 0%nat ltac:(lia)). simpl in Hfirst.
      rewrite net_cons in Hfirst. unfold net in Hfirst at 1.
      rewrite !count_nil in Hfirst. rewrite bump_shift. lia. }
    pose proof (bump_step c bc).
    destruct (IH (bump c bc) (pos + 1) n) as [E1 E2].
    + lia.
    + lia.
    + rewrite bump_shift. lia.
    + intros m Hm. specialize (Hfirst (S m) ltac:(lia)).
      rewrite firstn_cons, net_cons in Hfirst. rewrite bump_shift. lia.
    + split; [rewrite E1; f_equal; lia | exact E2].
Qed.

(** The scan ends with a positive depth when the depth is never 0. *)
Lemma scan_miss (s : str) :
  forall brace_count pos,
    0 < brace_count ->
    (forall n, (n < List.length s)%nat -> brace_count + net (firstn (S n) s) <> 0) ->
    0 < fst (scan s brace_count pos).
Proof.
  induction s as [|c s IH]; intros bc pos Hbc Hnever; simpl; [exact Hbc|].
  destruct (Z.ltb_spec 0 bc); [|lia].
  pose proof (bump_step c bc). pose proof (bump_shift c bc).
  apply IH.
  - specialize (Hnever 0%nat ltac:(simpl; lia)). simpl in Hnever.
    rewrite net_cons in Hnever. unfold net in Hnever at 1.
    rewrite !count_nil in Hnever. lia.
  - intros n Hn. specialize (Hnever (S n) ltac:(simpl; lia)).
    rewrite firstn_cons, net_cons in Hnever. lia.
Qed.

Lemma depth_net (text : str) (i j : Z) :
  0 <= i -> i < j < len text ->
  depth text i j
  = 1 + net (firstn (S (Z.to_nat (j - i - 1))) (skipn (Z.to_nat (i + 1)) text)).
Proof.
  intros Hi Hj. unfold depth, net.
  rewrite slice_firstn_skipn by lia.
  replace (Z.to_nat (j + 1) - Z.to_nat (i + 1))%nat
    with (S (Z.to_nat (j - i - 1))) by lia.
  lia.
Qed.

(** With a start inside the text, the matcher is the scan of the text
    that follows the opening brace. *)
Lemma find_matching_brace_scan (text : str) (start_pos : Z) :
  0 <= start_pos < len text ->
  find_matching_brace text start_pos
  = Ok (if negb (nth (Z.to_nat start_pos) text 0 =? ch "{")%N then -1
        else let '(brace_count, pos) :=
               scan (skipn (Z.to_nat (start_pos + 1)) text) 1 (start_pos + 1) in
             if brace_count =? 0 then pos - 1 else -1).
Proof.
  intros H. unfold find_matching_brace.
  destruct (Z.geb_spec start_pos (len text)); [lia|].
  rewrite getitem_nth by lia. simpl.
  destruct (negb _); [reflexivity|].
  rewrite brace_loop_scan by lia. simpl.
  destruct (scan _ _ _). reflexivity.
Qed.

(** C1, amended. Contract of the brace matcher, for every text and every
    index counted from the start of the text (0 or more). When the index points at an opening
    brace and the depth (1 at the brace, +1 per opening and -1 per closing
    brace read) is 0 for the first time at [j], the matcher returns [j],
    [text[j]] is a closing brace and [text[start_pos .. j]] has as many
    opening as closing braces. When the index does not point at an opening
    brace (also past the end), or the depth is 0 nowhere before the end,
    the matcher returns -1. It raises in neither case. *)
Theorem find_matching_brace_contract (text : str) (start_pos : Z) :
  0 <= start_pos ->
  (forall j,
      getitem text start_pos = Ok (ch "{") ->
      start_pos < j < len text ->
      depth text start_pos j = 0 ->
      (forall k, start_pos < k < j -> depth text start_pos k <> 0) ->
      find_matching_brace text start_pos = Ok j
      /\ getitem text j = Ok (ch "}")
      /\ count (ch "{") (slice text start_pos (j + 1))
         = count (ch "}") (slice text start_pos (j + 1)))
  /\ (getitem text start_pos <> Ok (ch "{")
      \/ (forall j, start_pos < j < len text -> depth text start_pos j <> 0) ->
      find_matching_brace text start_pos = Ok (-1)).
Proof.
  intros Hpos. split.
  - intros j Hc Hj Hd Hfirst.
    assert (Hin : 0 <= start_pos < len text) by lia.
    rewrite getitem_nth in Hc by lia. injection Hc as Hc.
    rewrite find_matching_brace_scan by lia. rewrite Hc. simpl negb. cbv iota.
    rewrite depth_net in Hd by lia.
    destruct (scan_hit (skipn (Z.to_nat (start_pos + 1)) text) 1 (start_pos + 1)
                       (Z.to_nat (j - start_pos - 1))) as [E1 E2].
    + lia.
    + rewrite length_skipn. unfold len in *. lia.
    + exact Hd.
    + intros m Hm.
      specialize (Hfirst (start_pos + 1 + Z.of_nat m) ltac:(lia)).
      rewrite depth_net in Hfirst by lia.
      replace (Z.to_nat (start_pos + 1 + Z.of_nat m - start_pos - 1)) with m
        in Hfirst by lia.
      exact Hfirst.
    + rewrite E1. simpl. split; [f_equal; lia|]. split.
      * rewrite getitem_nth by lia. f_equal.
        etransitivity; [|exact E2].
        rewrite nth_skipn. f_equal. lia.
      * rewrite slice_firstn_skipn by lia.
        rewrite (skipn_nth text (Z.to_nat start_pos)) by (unfold len in *; lia).
        replace (Z.to_nat (j + 1) - Z.to_nat start_pos)%nat
          with (S (S (Z.to_nat (j - start_pos - 1)))) by lia.
        rewrite firstn_cons, !count_cons, Hc.
        replace (S (Z.to_nat start_pos)) with (Z.to_nat (start_pos + 1)) by lia.
        unfold net in Hd.
        change (ch "{") with 123%N in *. change (ch "}") with 125%N in *.
        simpl N.eqb. cbv iota. lia.
  - intros H.
    destruct (Z.ltb_spec start_pos (len text)) as [Hlt|Hge].
    2:{ unfold find_matching_brace.
        destruct (Z.geb_spec start_pos (len text)); [reflexivity|lia]. }
    rewrite find_matching_brace_scan by lia.
    destruct (N.eqb_spec (nth (Z.to_nat start_pos) text 0%N) (ch "{")) as [Hc|Hc];
      [|reflexivity].
    simpl negb. cbv iota.
    destruct H as [H|H].
    { exfalso. apply H. rewrite getitem_nth by lia. now rewrite Hc. }
    pose proof (scan_miss (skipn (Z.to_nat (start_pos + 1)) text) 1 (start_pos + 1)
                          ltac:(lia)) as Hm.
    destruct (scan _ _ _) as [bc p]. simpl in Hm.
    destruct (Z.eqb_spec bc 0) as [->|]; [|reflexivity].
    exfalso. apply (Z.lt_irrefl 0). apply Hm.
    intros n Hn. rewrite length_skipn in Hn.
    specialize (H (start_pos + 1 + Z.of_nat n) ltac:(unfold len in *; lia)).
    rewrite depth_net in H by (unfold len in *; lia).
    replace (Z.to_nat (start_pos + 1 + Z.of_nat n - start_pos - 1)) with n in H by lia.
    exact H.
Qed.

Lemma find_matching_brace_contract_witness :
  find_matching_brace (s_ "{{}}") 0 = Ok 3
  /\ find_matching_brace (s_ "{abc") 0 = Ok (-1)
  /\ find_matching_brace (s_ "abc") 1 = Ok (-1).
Proof.
  split; [|split].
  - apply (find_matching_brace_contract (s_ "{{}}") 0 ltac:(lia)).
    + reflexivity.
    + vm_compute. split; reflexivity.
    + reflexivity.
    + intros k Hk. assert (k = 1 \/ k = 2) as [-> | ->] by lia; discriminate.
  - apply (find_matching_brace_contract (s_ "{abc") 0 ltac:(lia)).
    right. intros j Hj. change (len (s_ "{abc")) with 4 in Hj.
    assert (j = 1 \/ j = 2 \/ j = 3) as [-> | [-> | ->]] by lia; discriminate.
  - apply (find_matching_brace_contract (s_ "abc") 1 ltac:(lia)).
    left. discriminate.
Defined.

End BraceMatcher.


Example fmb_nested : find_matching_brace (s_ "{{}}") 0 = Ok 3.
Proof. reflexivity. Qed.
Example fmb_nested_inner : find_matching_brace (s_ "{{}}") 1 = Ok 2.
Proof. reflexivity. Qed.
Example fmb_not_brace : find_matching_brace (s_ "a{}") 0 = Ok (-1).
Proof. reflexivity. Qed.
Example fmb_unterminated : find_matching_brace (s_ "{abc") 0 = Ok (-1).
Proof. reflexivity. Qed.
Example fmb_past_end : find_matching_brace (s_ "{}") 7 = Ok (-1).
Proof. reflexivity. Qed.

(** The claim C1 as it is written, for every index, fails. A negative
    index is read by [text[start_pos]] from the end of the text, a way of
    indexing the matcher has no guard for: below [-len(text)] the
    matcher raises; at [-1] of ["}{"] it finds the opening brace and, the
    scan going on at index 0, returns the closing brace in front of it; at
    [-2] of ["{}"] it finds the opening brace and returns -1 although the
    brace is closed. *)
Lemma find_matching_brace_contract_counterexample :
  (getitem (s_ "") (-1) <> Ok (ch "{")
   /\ find_matching_brace (s_ "") (-1) = IndexError)
  /\ (getitem (s_ "ab") (-3) <> Ok (ch "{")
      /\ find_matching_brace (s_ "ab") (-3) = IndexError)
  /\ (getitem (s_ "}{") (-1) = Ok (ch "{")
      /\ find_matching_brace (s_ "}{") (-1) = Ok 0)
  /\ (getitem (s_ "{}") (-2) = Ok (ch "{")
      /\ depth (s_ "{}") 0 1 = 0
      /\ find_matching_brace (s_ "{}") (-2) = Ok (-1)).
Proof.
  repeat split; try reflexivity; discriminate.
Qed.


Section ReFacts.

Lemma strip_prefix_app (l s s' : str) :
  strip_prefix l s = Some s' <-> s = l ++ s'.
Proof.
  revert s. induction l as [|a l IH]; intros s; simpl.
  - split; [intros [= ->]; reflexivity | intros ->; reflexivity].
  - destruct s as [|c s]; [split; discriminate|].
    destruct (N.eqb_spec a c) as [->|Hne].
    + rewrite IH. split; [intros ->; reflexivity | intros [= ->]; reflexivity].
    + split; [discriminate | intros [= E _]; congruence].
Qed.

Lemma strip_prefix_none (l s : str) :
  strip_prefix l s = None <-> forall s', s <> l ++ s'.
Proof.
  split.
  - intros H s' E. apply strip_prefix_app in E. congruence.
  - intros H. destruct (strip_prefix l s) eqn:E; [|reflexivity].
    apply strip_prefix_app in E. exfalso. eapply H; eauto.
Qed.

Context {R : Type}.

Lemma star_sound (p : char -> bool) (s : str) :
  forall n (k : str -> nat -> option R) x,
    star p s n k = Some x ->
    exists w s', s = w ++ s' /\ forallb p w = true
                 /\ k s' (n + List.length w)%nat = Some x.
Proof.
  induction s as [|c s IH]; intros n k x H; simpl in H.
  - exists [], []. simpl. rewrite Nat.add_0_r. auto.
  - destruct (p c) eqn:Hp.
    + destruct (star p s (S n) k) eqn:E.
      * injection H as ->. apply IH in E as (w & s' & -> & Hw & Hk).
        exists (c :: w), s'. simpl. rewrite Hp, Hw.
        rewrite Nat.add_succ_r. auto.
      * exists [], (c :: s). simpl. rewrite Nat.add_0_r. auto.
    + exists [], (c :: s). simpl. rewrite Nat.add_0_r. auto.
Qed.

Lemma star_complete (p : char -> bool) (w : str) :
  forall s' n (k : str -> nat -> option R),
    forallb p w = true ->
    k s' (n + List.length w)%nat <> None ->
    star p (w ++ s') n k <> None.
Proof.
  induction w as [|c w IH]; intros s' n k Hw Hk; simpl in *.
  - rewrite Nat.add_0_r in Hk.
    destruct s' as [|c s']; simpl; [exact Hk|].
    destruct (p c); [|exact Hk].
    destruct (star p s' (S n) k); [discriminate | exact Hk].
  - apply andb_true_iff in Hw as [Hc Hw]. rewrite Hc.
    rewrite Nat.add_succ_r in Hk.
    specialize (IH s' (S n) k Hw Hk).
    destruct (star p (w ++ s') (S n) k); [discriminate | contradiction].
Qed.

End ReFacts.

Section RunFacts.

Context {R : Type}.

(** Whatever the matcher answers, it got from its continuation, called
    behind a text the pattern matches. *)
Lemma run_sound (r : regex) :
  forall s n g (k : str -> nat -> groups -> option R) x,
    run r s n g k = Some x ->
    exists w s' g',
      s = w ++ s' /\ matches r w g'
      /\ k s' (n + List.length w)%nat (g' ++ g) = Some x.
Proof.
  induction r as [l|p|p|r1 IH1 r2 IH2|r1 IH1 r2 IH2|i r IH];
    intros s n g k x H; simpl in H.
  - destruct (strip_prefix l s) as [s'|] eqn:E; [|discriminate].
    apply strip_prefix_app in E. exists l, s', []. repeat split; auto.
    constructor.
  - apply star_sound in H as (w & s' & -> & Hw & Hk).
    exists w, s', []. repeat split; auto. now constructor.
  - destruct s as [|c s]; [discriminate|].
    destruct (p c) eqn:Hp; [|discriminate].
    apply star_sound in H as (w & s' & -> & Hw & Hk).
    exists (c :: w), s', []. simpl. rewrite Nat.add_succ_r. repeat split; auto.
    constructor; [discriminate|]. simpl. now rewrite Hp, Hw.
  - apply IH1 in H as (w1 & s1 & g1 & -> & M1 & H).
    apply IH2 in H as (w2 & s2 & g2 & -> & M2 & H).
    exists (w1 ++ w2), s2, (g2 ++ g1).
    rewrite <- !app_assoc, length_app, Nat.add_assoc.
    repeat split; auto. now constructor.
  - destruct (run r1 s n g k) eqn:E.
    + injection H as ->. apply IH1 in E as (w & s' & g' & -> & M & H).
      exists w, s', g'. repeat split; auto. now apply M_AltL.
    + apply IH2 in H as (w & s' & g' & -> & M & H).
      exists w, s', g'. repeat split; auto. now apply M_AltR.
  - apply IH in H as (w & s' & g' & -> & M & H).
    exists w, s', ((i, w) :: g'). repeat split; auto.
    + now constructor.
    + replace (n + List.length w - n)%nat with (List.length w) in H by lia.
      rewrite firstn_app, firstn_all, Nat.sub_diag in H. simpl in H.
      rewrite app_nil_r in H. exact H.
Qed.

(** When the pattern matches a text the continuation accepts, the
    matcher finds a match. *)
Lemma run_complete (r : regex) :
  forall w s' g' n g (k : str -> nat -> groups -> option R),
    matches r w g' ->
    k s' (n + List.length w)%nat (g' ++ g) <> None ->
    run r (w ++ s') n g k <> None.
Proof.
  induction r as [l|p|p|r1 IH1 r2 IH2|r1 IH1 r2 IH2|i r IH];
    intros w s' g' n g k M Hk; inversion M; subst; simpl.
  - destruct (strip_prefix w (w ++ s')) as [s''|] eqn:E.
    + apply strip_prefix_app in E. apply app_inv_head in E. now subst.
    + exfalso. rewrite strip_prefix_none in E. now apply (E s').
  - now apply star_complete.
  - destruct w as [|c w]; [contradiction|]. simpl in *.
    match goal with H : _ && _ = true |- _ =>
      apply andb_true_iff in H as [Hc Hw] end.
    rewrite Hc. apply star_complete; auto.
    now rewrite Nat.add_succ_r in Hk.
  - rewrite <- app_assoc. eapply IH1; eauto.
    eapply IH2; eauto.
    rewrite length_app, Nat.add_assoc, <- app_assoc in Hk. exact Hk.
  - specialize (IH1 _ s' _ n g k ltac:(eassumption) Hk).
    destruct (run r1 (w ++ s') n g k); [discriminate | contradiction].
  - destruct (run r1 (w ++ s') n g k); [discriminate|].
    eapply IH2; eauto.
  - eapply IH; eauto.
    replace (n + List.length w - n)%nat with (List.length w) by lia.
    rewrite firstn_app, firstn_all, Nat.sub_diag. simpl.
    rewrite app_nil_r. exact Hk.
Qed.

End RunFacts.

Section MatchFacts.

Lemma match_here_sound (r : regex) (adv : bool) (s : str) n g :
  match_here r adv s = Some (n, g) ->
  exists w s', s = w ++ s' /\ matches r w g /\ n = List.length w
               /\ (adv = true -> w <> []).
Proof.
  unfold match_here. intros H.
  apply run_sound in H as (w & s' & g' & -> & M & H).
  simpl in H. rewrite app_nil_r in H.
  destruct (adv && Nat.eqb (List.length w) 0) eqn:E; [discriminate|].
  injection H as <- <-. exists w, s'. repeat split; auto.
  intros -> ->. discriminate.
Qed.

Lemma match_here_none (r : regex) (s : str) :
  match_here r false s = None <-> no_match_here r s.
Proof.
  split.
  - intros H w s' g -> M. revert H. unfold match_here.
    eapply run_complete; eauto. simpl. discriminate.
  - intros H. destruct (match_here r false s) as [[n g]|] eqn:E; [|reflexivity].
    apply match_here_sound in E as (w & s' & -> & M & _).
    exfalso. eapply H; eauto.
Qed.

End MatchFacts.

(** Inversion of the matches of a pattern without alternatives. *)
Ltac inv_matches :=
  repeat match goal with
    | H : matches (Lit _) _ _ |- _ => inversion H; subst; clear H
    | H : matches (Seq _ _) _ _ |- _ => inversion H; subst; clear H
    | H : matches (Group _ _) _ _ |- _ => inversion H; subst; clear H
    | H : matches (Star _) _ _ |- _ => inversion H; subst; clear H
    | H : matches (Plus _) _ _ |- _ => inversion H; subst; clear H
    end.

Section SearchFacts.

Lemma search_from_sound (r : regex) (s : str) :
  forall i m,
    search_from r s i = Some m ->
    exists pre w post,
      s = pre ++ w ++ post
      /\ matches r w (m_groups m)
      /\ m_start m = Z.of_nat (i + List.length pre)
      /\ m_end m = m_start m + len w
      /\ (forall k, (k < List.length pre)%nat -> no_match_here r (skipn k s)).
Proof.
  induction s as [|c s IH]; intros i m H; simpl in H.
  - destruct (match_here r false []) as [[n g]|] eqn:E; [|discriminate].
    injection H as <-. apply match_here_sound in E as (w & s' & E & M & -> & _).
    exists [], w, s'. simpl. unfold len. repeat split; auto; try lia.
  - destruct (match_here r false (c :: s)) as [[n g]|] eqn:E.
    + injection H as <-. apply match_here_sound in E as (w & s' & E & M & -> & _).
      exists [], w, s'. simpl. unfold len. repeat split; auto; try lia.
    + apply IH in H as (pre & w & post & -> & M & Hs & He & Hno).
      exists (c :: pre), w, post. simpl. repeat split; auto; try lia.
      intros [|k] Hk; simpl.
      * now apply match_here_none.
      * apply Hno. simpl in Hk. lia.
Qed.

Lemma search_from_first (r : regex) (pre : str) :
  forall rest i n g,
    (forall k, (k < List.length pre)%nat -> no_match_here r (skipn k (pre ++ rest))) ->
    match_here r false rest = Some (n, g) ->
    search_from r (pre ++ rest) i
    = Some {| m_start := Z.of_nat (i + List.length pre);
              m_end := Z.of_nat (i + List.length pre + n);
              m_groups := g |}.
Proof.
  induction pre as [|c pre IH]; intros rest i n g Hno H.
  - simpl app. destruct rest; simpl; rewrite H; rewrite Nat.add_0_r; reflexivity.
  - simpl. pose proof (Hno 0%nat ltac:(simpl; lia)) as H0. simpl in H0.
    apply match_here_none in H0. rewrite H0.
    rewrite (IH rest (S i) n g); auto.
    + simpl List.length. rewrite !Nat.add_succ_r. reflexivity.
    + intros k Hk. apply (Hno (S k)). simpl. lia.
Qed.

Lemma search_from_none (r : regex) (s : str) :
  forall i,
    (forall k, (k <= List.length s)%nat -> no_match_here r (skipn k s)) ->
    search_from r s i = None.
Proof.
  induction s as [|c s IH]; intros i Hno; simpl.
  - pose proof (Hno 0%nat ltac:(simpl; lia)) as H0.
    apply match_here_none in H0. simpl in H0. now rewrite H0.
  - pose proof (Hno 0%nat ltac:(simpl; lia)) as H0.
    apply match_here_none in H0. simpl in H0. rewrite H0.
    apply IH. intros k Hk. apply (Hno (S k)). simpl. lia.
Qed.

Lemma matches_lit (l w : str) g : matches (Lit l) w g -> w = l /\ g = [].
Proof. inversion 1; auto. Qed.

(** A match of a literal found by [search] lies inside the text. *)
Lemma search_lit_range (l s : str) m :
  search (Lit l) s = Some m ->
  0 <= m_start m /\ m_end m = m_start m + len l /\ m_end m <= len s.
Proof.
  intros H. apply search_from_sound in H as (pre & w & post & -> & M & Hs & He & _).
  apply matches_lit in M as [-> _].
  rewrite He, Hs, !len_app. unfold len. lia.
Qed.

End SearchFacts.

Section Totality.

Lemma index_from_range (c : char) (s : str) :
  forall i r,
    index_from c s i = r ->
    r = -1 \/ i <= r < i + len s.
Proof.
  induction s as [|x s IH]; intros i r H; simpl in H; [auto|].
  rewrite len_cons.
  destruct (x =? c)%N.
  - right. pose proof (len_nonneg s). lia.
  - apply IH in H. lia.
Qed.

Lemma find_range (text : str) (c : char) (start : Z) :
  0 <= start ->
  find text c start = -1 \/ start <= find text c start < len text.
Proof.
  intros H. unfold find, slice_from.
  destruct (index_from_range c (skipn (clamp text start) text)
              (Z.of_nat (clamp text start)) _ eq_refl) as [E|E]; [auto|].
  right. revert E. unfold len. rewrite length_skipn.
  pose proof (clamp_le text start).
  unfold clamp, len in *. destruct (Z.ltb_spec start 0); lia.
Qed.

Lemma scan_range (s : str) :
  forall brace_count pos,
    pos <= snd (scan s brace_count pos) <= pos + len s
    /\ (0 < brace_count -> fst (scan s brace_count pos) = 0 ->
        pos < snd (scan s brace_count pos)).
Proof.
  induction s as [|c s IH]; intros bc pos; simpl.
  - unfold len. simpl. lia.
  - rewrite len_cons. pose proof (len_nonneg s).
    destruct (Z.ltb_spec 0 bc); simpl; [|lia].
    destruct (IH (bump c bc) (pos + 1)) as [H1 H2]. lia.
Qed.

(** The matcher does not raise on an index counted from the start, and
    what it finds lies behind the index, inside the text. *)
Lemma find_matching_brace_range (text : str) (start_pos : Z) :
  0 <= start_pos ->
  exists r, find_matching_brace text start_pos = Ok r
            /\ (r = -1 \/ start_pos < r < len text).
Proof.
  intros H.
  destruct (Z.ltb_spec start_pos (len text)) as [Hlt|Hge].
  2:{ unfold find_matching_brace.
      destruct (Z.geb_spec start_pos (len text)); [eauto|lia]. }
  rewrite find_matching_brace_scan by lia.
  eexists. split; [reflexivity|].
  destruct (negb _); [auto|].
  pose proof (scan_range (skipn (Z.to_nat (start_pos + 1)) text) 1 (start_pos + 1))
    as [H1 H2].
  destruct (scan _ _ _) as [bc p]. simpl in *.
  destruct (Z.eqb_spec bc 0) as [->|]; [|auto].
  right. revert H1 H2. unfold len. rewrite length_skipn. lia.
Qed.

Lemma slice_from_len (text : str) (pos : Z) :
  0 <= pos -> len (slice_from text pos) <= len text - pos \/ slice_from text pos = [].
Proof.
  intros H. unfold slice_from.
  destruct (Z.leb_spec pos (len text)).
  - left. rewrite clamp_id by lia. unfold len in *. rewrite length_skipn. lia.
  - right. apply skipn_all2. unfold clamp, len in *.
    destruct (Z.ltb_spec pos 0); lia.
Qed.

Lemma search_lit_nil (l : str) : l <> [] -> search (Lit l) [] = None.
Proof.
  intros H. destruct l; [contradiction|]. reflexivity.
Qed.

(** A literal found in [tex_content[pos:]] ends inside the text. *)
Lemma search_slice_range (l tex_content : str) (pos : Z) m :
  l <> [] -> 0 <= pos ->
  search (Lit l) (slice_from tex_content pos) = Some m ->
  0 <= m_start m /\ m_start m < m_end m /\ pos + m_end m <= len tex_content.
Proof.
  intros Hl Hpos H.
  destruct (slice_from_len tex_content pos Hpos) as [E|E].
  - apply search_lit_range in H.
    assert (0 < len l) by (destruct l; [contradiction|rewrite len_cons; pose proof (len_nonneg l); lia]).
    lia.
  - rewrite E, search_lit_nil in H by assumption. discriminate.
Qed.

Lemma parse_description_total (params : str) :
  exists d, parse_description params = Ok d.
Proof.
  unfold parse_description.
  destruct (search re_description params) as [m|] eqn:E; [|eauto].
  apply search_from_sound in E as (pre & w & post & -> & M & Hs & He & _).
  assert (0 < len w).
  { unfold re_description in M. inv_matches.
    rewrite len_app.
    match goal with |- 0 < _ + len ?w => pose proof (len_nonneg w) end.
    change (len (s_ "description")) with 11. lia. }
  destruct (find_matching_brace_range (pre ++ w ++ post) (m_end m - 1)) as (r & -> & _).
  - lia.
  - simpl. destruct (negb _); eauto.
Qed.

Ltac skip_turn := eexists; split; [reflexivity|]; simpl; lia.

Lemma glossary_turn_progresses : progresses glossary_turn.
Proof.
  intros tex pos Hpos. unfold glossary_turn.
  destruct (search re_newglossaryentry _) as [m|] eqn:E; [|exists Break; split; [reflexivity|exact I]].
  apply search_slice_range in E as (Hs & Hse & He); [|discriminate|assumption].
  destruct (find_range tex (ch "{") (pos + m_start m) ltac:(lia)) as [->|H1];
    [skip_turn|].
  destruct (Z.eqb_spec (find tex (ch "{") (pos + m_start m)) (-1)); [skip_turn|].
  destruct (find_matching_brace_range tex (find tex (ch "{") (pos + m_start m)))
    as (key_end & -> & [->|H2]); [lia|skip_turn|]. simpl.
  destruct (Z.eqb_spec key_end (-1)); [skip_turn|].
  destruct (find_range tex (ch "{") (key_end + 1) ltac:(lia)) as [->|H3];
    [skip_turn|].
  destruct (Z.eqb_spec (find tex (ch "{") (key_end + 1)) (-1)); [skip_turn|].
  destruct (find_matching_brace_range tex (find tex (ch "{") (key_end + 1)))
    as (params_end & -> & [->|H4]); [lia|skip_turn|]. simpl.
  destruct (Z.eqb_spec params_end (-1)); [skip_turn|].
  destruct (parse_description_total
              (slice tex (find tex (ch "{") (key_end + 1) + 1) params_end))
    as (d & ->). simpl.
  eexists; split; [reflexivity|]. simpl. lia.
Qed.

Lemma acronym_turn_progresses : progresses acronym_turn.
Proof.
  intros tex pos Hpos. unfold acronym_turn.
  destruct (search re_newacronym _) as [m|] eqn:E; [|exists Break; split; [reflexivity|exact I]].
  apply search_slice_range in E as (Hs & Hse & He); [|discriminate|assumption].
  destruct (find_range tex (ch "{") (pos + m_start m) ltac:(lia)) as [->|H1];
    [skip_turn|].
  destruct (Z.eqb_spec (find tex (ch "{") (pos + m_start m)) (-1)); [skip_turn|].
  destruct (find_matching_brace_range tex (find tex (ch "{") (pos + m_start m)))
    as (key_end & -> & [->|H2]); [lia|skip_turn|]. simpl.
  destruct (Z.eqb_spec key_end (-1)); [skip_turn|].
  destruct (find_range tex (ch "{") (key_end + 1) ltac:(lia)) as [->|H3];
    [skip_turn|].
  destruct (Z.eqb_spec (find tex (ch "{") (key_end + 1)) (-1)); [skip_turn|].
  destruct (find_matching_brace_range tex (find tex (ch "{") (key_end + 1)))
    as (short_end & -> & [->|H4]); [lia|skip_turn|]. simpl.
  destruct (Z.eqb_spec short_end (-1)); [skip_turn|].
  destruct (find_range tex (ch "{") (short_end + 1) ltac:(lia)) as [->|H5];
    [skip_turn|].
  destruct (Z.eqb_spec (find tex (ch "{") (short_end + 1)) (-1)); [skip_turn|].
  destruct (find_matching_brace_range tex (find tex (ch "{") (short_end + 1)))
    as (long_end & -> & [->|H6]); [lia|skip_turn|]. simpl.
  destruct (Z.eqb_spec long_end (-1)); [skip_turn|].
  eexists; split; [reflexivity|]. simpl. lia.
Qed.

(** A loop whose body progresses ends within the turns the program
    gives it, and returns the entries of its run in their order. *)
Lemma scan_loop_total (body : str -> Z -> result turn) :
  progresses body ->
  forall fuel tex_content pos entries,
    0 <= pos ->
    (Z.to_nat (len tex_content - pos) < fuel)%nat ->
    exists l, scan_loop body fuel tex_content pos entries = Ok (entries ++ l)
              /\ scan_trace body tex_content pos l.
Proof.
  intros Hbody. induction fuel as [|fuel IH]; intros tex pos entries Hpos Hfuel;
    [lia|].
  simpl. destruct (Hbody tex pos Hpos) as (t & Ht & Hp). rewrite Ht. simpl.
  destruct t as [|pos' appended].
  - exists []. rewrite app_nil_r. split; [reflexivity|]. now constructor.
  - destruct (IH tex pos' (entries ++ appended)) as (l & El & Tl); [lia|lia|].
    exists (appended ++ l). rewrite app_assoc. split; [exact El|].
    econstructor; eauto. lia.
Qed.

Lemma parse_glossary_entries_total (tex_content : str) :
  exists l, parse_glossary_entries tex_content = Ok l
            /\ scan_trace glossary_turn tex_content 0 l.
Proof.
  unfold parse_glossary_entries.
  destruct (scan_loop_total glossary_turn glossary_turn_progresses
              (S (List.length tex_content)) tex_content 0 [])
    as (l & E & T); [lia | unfold len; lia | eauto].
Qed.

Lemma parse_acronym_entries_total (tex_content : str) :
  exists l, parse_acronym_entries tex_content = Ok l
            /\ scan_trace acronym_turn tex_content 0 l.
Proof.
  unfold parse_acronym_entries.
  destruct (scan_loop_total acronym_turn acronym_turn_progresses
              (S (List.length tex_content)) tex_content 0 [])
    as (l & E & T); [lia | unfold len; lia | eauto].
Qed.

End Totality.

Section Shapes.

Lemma index_from_at (c : char) (gap rest : str) :
  forall i, ~ In c gap -> index_from c (gap ++ c :: rest) i = i + len gap.
Proof.
  induction gap as [|x gap IH]; intros i H; simpl.
  - rewrite N.eqb_refl. unfold len. simpl. lia.
  - destruct (N.eqb_spec x c) as [->|_]; [exfalso; apply H; now left|].
    rewrite IH by (intros Hc; apply H; now right).
    rewrite len_cons. lia.
Qed.

(** [find] from the end of [a] skips a gap without the character. *)
Lemma find_at (text a gap rest : str) (c : char) :
  text = a ++ gap ++ c :: rest -> ~ In c gap ->
  find text c (len a) = len a + len gap.
Proof.
  intros -> H. unfold find, slice_from.
  rewrite clamp_id by (rewrite len_app; pose proof (len_nonneg a);
                       pose proof (len_nonneg (gap ++ c :: rest)); lia).
  unfold len at 1 2. rewrite Nat2Z.id, skipn_length_app.
  now rewrite index_from_at.
Qed.

(** The matcher on a balanced body: the closing brace behind the body. *)
Lemma find_matching_brace_at (text a body rest : str) :
  text = a ++ ch "{" :: body ++ ch "}" :: rest -> balanced body ->
  find_matching_brace text (len a) = Ok (len a + len body + 1).
Proof.
  intros -> [Hnet Hpre].
  pose proof (len_nonneg a). pose proof (len_nonneg body). pose proof (len_nonneg rest).
  rewrite find_matching_brace_scan
    by (rewrite len_app, len_cons, len_app, len_cons; lia).
  unfold len at 1. rewrite Nat2Z.id, nth_middle. simpl negb. cbv iota.
  replace (Z.to_nat (len a + 1)) with (List.length (a ++ [ch "{"]))
    by (rewrite length_app; unfold len; simpl; lia).
  replace (a ++ ch "{" :: body ++ ch "}" :: rest)
    with ((a ++ [ch "{"]) ++ body ++ ch "}" :: rest)
    by (now rewrite <- app_assoc).
  rewrite skipn_length_app.
  destruct (scan_hit (body ++ ch "}" :: rest) 1 (len a + 1) (List.length body))
    as [E _].
  - lia.
  - rewrite length_app. simpl. lia.
  - replace (S (List.length body)) with (List.length (body ++ [ch "}"]))
      by (rewrite length_app; simpl; lia).
    replace (body ++ ch "}" :: rest) with ((body ++ [ch "}"]) ++ rest)
      by (now rewrite <- app_assoc).
    rewrite firstn_app, firstn_all, Nat.sub_diag. simpl firstn. rewrite app_nil_r.
    unfold net in *. rewrite !count_app, !count_cons, !count_nil.
    change (ch "}" =? ch "{")%N with false. change (ch "}" =? ch "}")%N with true.
    lia.
  - intros m Hm. rewrite firstn_app.
    replace (S m - List.length body)%nat with 0%nat by lia.
    simpl firstn at 2. rewrite app_nil_r. specialize (Hpre (S m)). lia.
  - rewrite E. simpl. f_equal. unfold len. lia.
Qed.

Lemma slice_at (text a b c : str) :
  text = a ++ b ++ c -> slice text (len a) (len a + len b) = b.
Proof.
  intros ->. pose proof (len_nonneg a). pose proof (len_nonneg b).
  pose proof (len_nonneg c).
  rewrite slice_firstn_skipn by (rewrite !len_app; lia).
  unfold len. rewrite Nat2Z.id, skipn_length_app.
  replace (Z.to_nat (Z.of_nat (List.length a) + Z.of_nat (List.length b))
           - List.length a)%nat with (List.length b) by lia.
  rewrite firstn_app, firstn_all, Nat.sub_diag. simpl. apply app_nil_r.
Qed.

(** The brace group behind [a]: past a gap without opening brace, the
    braces around a balanced body; the text between them is the body. *)
Lemma brace_group_at (text a gap body rest : str) :
  text = a ++ gap ++ ch "{" :: body ++ ch "}" :: rest ->
  ~ In (ch "{") gap -> balanced body ->
  brace_group text (len a)
  = Some (len a + len gap, len a + len gap + len body + 1)
  /\ slice text (len a + len gap + 1) (len a + len gap + len body + 1) = body.
Proof.
  intros E Hgap Hb. unfold brace_group. cbv zeta.
  rewrite (find_at text a gap (body ++ ch "}" :: rest) (ch "{") E Hgap).
  pose proof (len_nonneg a). pose proof (len_nonneg gap). pose proof (len_nonneg body).
  destruct (Z.eqb_spec (len a + len gap) (-1)); [lia|].
  assert (Ea : len a + len gap = len (a ++ gap)) by (now rewrite len_app).
  rewrite Ea.
  rewrite (find_matching_brace_at text (a ++ gap) body rest)
    by (auto; now rewrite E, <- app_assoc).
  destruct (Z.eqb_spec (len (a ++ gap) + len body + 1) (-1)); [lia|].
  split; [reflexivity|].
  replace (len (a ++ gap) + 1) with (len ((a ++ gap) ++ [ch "{"]))
    by (rewrite (len_app (a ++ gap)); reflexivity).
  replace (len (a ++ gap) + len body + 1)
    with (len ((a ++ gap) ++ [ch "{"]) + len body)
    by (rewrite (len_app (a ++ gap)); change (len [ch "{"]) with 1; lia).
  apply (slice_at text _ body (ch "}" :: rest)).
  rewrite E, <- !app_assoc. reflexivity.
Qed.

(** A literal at the head of the text is where [search] finds it. *)
Lemma search_lit_head (l rest : str) :
  search (Lit l) (l ++ rest)
  = Some {| m_start := 0; m_end := len l; m_groups := [] |}.
Proof.
  apply (search_from_first (Lit l) [] (l ++ rest) 0 (List.length l) []).
  - intros k Hk. simpl in Hk. lia.
  - unfold match_here. cbn [run].
    assert (H : strip_prefix l (l ++ rest) = Some rest) by (now apply strip_prefix_app).
    rewrite H. reflexivity.
Qed.

Lemma slice_from_at (a b : str) : slice_from (a ++ b) (len a) = b.
Proof.
  unfold slice_from.
  rewrite clamp_id by (rewrite len_app; pose proof (len_nonneg a);
                       pose proof (len_nonneg b); lia).
  unfold len. rewrite Nat2Z.id. apply skipn_length_app.
Qed.

End Shapes.

Section Extractors.

Lemma find_nonneg (text : str) (c : char) (start : Z) :
  find text c start = -1 \/ 0 <= find text c start < len text.
Proof.
  unfold find, slice_from.
  destruct (index_from_range c (skipn (clamp text start) text)
              (Z.of_nat (clamp text start)) _ eq_refl) as [E|E]; [auto|].
  right. revert E. unfold len. rewrite length_skipn.
  pose proof (clamp_le text start). lia.
Qed.

(** The groups of the specification are what the lookups of the program
    find; no lookup raises. *)
Lemma brace_group_cases (tex_content : str) (from : Z) :
  (find tex_content (ch "{") from = -1 /\ brace_group tex_content from = None)
  \/ (exists b, find tex_content (ch "{") from = b /\ (b =? -1) = false
                /\ find_matching_brace tex_content b = Ok (-1)
                /\ brace_group tex_content from = None)
  \/ (exists b e, find tex_content (ch "{") from = b /\ (b =? -1) = false
                  /\ find_matching_brace tex_content b = Ok e
                  /\ (e =? -1) = false
                  /\ 0 <= b < e /\ e < len tex_content
                  /\ brace_group tex_content from = Some (b, e)).
Proof.
  unfold brace_group. cbv zeta.
  destruct (find_nonneg tex_content (ch "{") from) as [E|H].
  - left. rewrite E. auto.
  - right.
    destruct (Z.eqb_spec (find tex_content (ch "{") from) (-1)) as [|Hb]; [lia|].
    destruct (find_matching_brace_range tex_content (find tex_content (ch "{") from))
      as (r & Er & Hr); [lia|].
    rewrite Er.
    destruct (Z.eqb_spec r (-1)) as [->|Hr'].
    + left. eexists. repeat split; auto. now apply Z.eqb_neq.
    + right. exists (find tex_content (ch "{") from), r.
      repeat split; auto; try lia; now apply Z.eqb_neq.
Qed.

Ltac group_step tex from b e Hb He Hg :=
  destruct (brace_group_cases tex from)
    as [[Hb Hg] | [(b & Hb & ? & He & Hg) | (b & e & Hb & ? & He & ? & ? & ? & Hg)]];
  rewrite ?Hg;
  [ rewrite Hb; reflexivity
  | rewrite Hb;
    match goal with H : (b =? -1) = false |- _ => rewrite H end;
    rewrite He; reflexivity
  | rewrite Hb;
    match goal with H : (b =? -1) = false |- _ => rewrite H end;
    rewrite He; simpl bind;
    match goal with H : (e =? -1) = false |- _ => rewrite H end ].

Lemma acronym_turn_occurrence (tex_content : str) (pos : Z) :
  acronym_turn tex_content pos = Ok (acronym_occurrence tex_content pos).
Proof.
  unfold acronym_turn, acronym_occurrence.
  destruct (search re_newacronym _) as [m|]; [|reflexivity].
  cbv zeta.
  group_step tex_content (pos + m_start m) b1 e1 Hb1 He1 Hg1.
  simpl snd.
  group_step tex_content (e1 + 1) b2 e2 Hb2 He2 Hg2.
  simpl snd.
  group_step tex_content (e2 + 1) b3 e3 Hb3 He3 Hg3.
  unfold acronym_emit, group_text. simpl fst. simpl snd.
  do 2 f_equal; [lia|].
  destruct (clean_latex_text (strip (slice tex_content (b2 + 1) e2)));
    [reflexivity|].
  destruct (clean_latex_text (strip (slice tex_content (b3 + 1) e3)));
    reflexivity.
Qed.

Lemma brace_group_some (tex_content : str) (from b e : Z) :
  brace_group tex_content from = Some (b, e) ->
  find tex_content (ch "{") from = b /\ (b =? -1) = false
  /\ find_matching_brace tex_content b = Ok e /\ (e =? -1) = false.
Proof.
  intros H.
  destruct (brace_group_cases tex_content from)
    as [[_ Hg] | [(b' & _ & _ & _ & Hg) | (b' & e' & Hb & ? & He & ? & _ & _ & Hg)]];
    rewrite Hg in H; try discriminate.
  injection H as <- <-. auto.
Qed.

(** The turn of the glossary loop at an occurrence whose key and
    parameter block are located. *)
Lemma glossary_turn_located (tex_content : str) (pos : Z) m b1 e1 b2 e2 :
  search re_newglossaryentry (slice_from tex_content pos) = Some m ->
  brace_group tex_content (pos + m_start m) = Some (b1, e1) ->
  brace_group tex_content (e1 + 1) = Some (b2, e2) ->
  glossary_turn tex_content pos
  = (description <- parse_description (slice tex_content (b2 + 1) e2) ;;
     Ok (Continue (e2 + 1)
           (glossary_emit (group_text tex_content (b1, e1))
                          (parse_name (slice tex_content (b2 + 1) e2))
                          description))).
Proof.
  intros Hm H1 H2. unfold glossary_turn. rewrite Hm. cbv zeta.
  apply brace_group_some in H1 as (-> & -> & -> & E1). simpl bind. rewrite E1.
  apply brace_group_some in H2 as (-> & -> & -> & E2). simpl bind. rewrite E2.
  unfold group_text. simpl fst. simpl snd.
  destruct (parse_description _); simpl; try reflexivity.
  do 2 f_equal. lia.
Qed.

Lemma occurs_app (l a b : str) : occurs l (a ++ l ++ b) = true.
Proof.
  induction a as [|c a IH]; simpl app.
  - assert (H : strip_prefix l (l ++ b) = Some b)
      by (now apply strip_prefix_app).
    destruct (l ++ b); simpl; now rewrite H.
  - simpl occurs. rewrite IH. now destruct (strip_prefix _ _).
Qed.

Lemma matches_description (w : str) g :
  matches re_description w g ->
  exists ws1 ws2,
    w = s_ "description" ++ ws1 ++ s_ "=" ++ ws2 ++ s_ "{"
    /\ forallb isspace ws1 = true /\ forallb isspace ws2 = true.
Proof.
  unfold re_description. intros M. inv_matches. eauto.
Qed.

(** The description pattern finds nothing in a text without the marker
    [description], spaces, [=], spaces, opening brace. *)
Lemma search_description_none (params : str) :
  (forall a ws1 ws2 b,
      forallb isspace ws1 = true -> forallb isspace ws2 = true ->
      params <> a ++ s_ "description" ++ ws1 ++ s_ "=" ++ ws2 ++ s_ "{" ++ b) ->
  search re_description params = None.
Proof.
  intros H. apply search_from_none. intros k _ w s' g E M.
  apply matches_description in M as (ws1 & ws2 & -> & H1 & H2).
  apply (H (firstn k params) ws1 ws2 s' H1 H2).
  rewrite <- (firstn_skipn k params) at 1. rewrite E.
  now rewrite <- !app_assoc.
Qed.

(** The claim C3 as it is written fails: this parameter block holds the
    marker [description=] followed by an opening brace nowhere, and the
    occurrence yields an entry all the same, the pattern of the program
    taking white space around the equals sign. *)
Lemma glossary_missing_description_counterexample :
  brace_group (s_ "\newglossaryentry{k}{description = {D}}") 20 = Some (20, 38)
  /\ slice (s_ "\newglossaryentry{k}{description = {D}}") 21 38
     = s_ "description = {D}"
  /\ occurs (s_ "description={") (s_ "description = {D}") = false
  /\ parse_glossary_entries (s_ "\newglossaryentry{k}{description = {D}}")
     = Ok [mk "k" "D"].
Proof. vm_compute. repeat split; reflexivity. Qed.

Lemma no_brace_app (a b : str) :
  ~ In (ch "{") a -> ~ In (ch "{") b -> ~ In (ch "{") (a ++ b).
Proof. intros Ha Hb H. apply in_app_or in H as [H|H]; auto. Qed.

Ltac list_eq :=
  unfold braced; repeat (progress (rewrite <- ?app_assoc; cbn [app])); reflexivity.
Ltac len_eq :=
  unfold braced, len;
  repeat (progress (rewrite ?length_app; cbn [List.length])); lia.

(** The brace group met at [from], the end of [a]: the text between its
    braces, and where the text behind the group starts. *)
Lemma brace_group_next (text a gap body rest : str) (from : Z) :
  from = len a ->
  text = a ++ gap ++ braced body ++ rest ->
  ~ In (ch "{") gap -> balanced body ->
  exists g,
    brace_group text from = Some g
    /\ slice text (fst g + 1) (snd g) = body
    /\ snd g + 1 = len (a ++ gap ++ braced body).
Proof.
  intros -> E Hgap Hb.
  destruct (brace_group_at text a gap body rest) as [H1 H2]; auto.
  { rewrite E. list_eq. }
  eexists. split; [exact H1|]. split; [exact H2|]. simpl snd. len_eq.
Qed.

Lemma no_brace_command (command gap : str) :
  forallb (is_not (ch "{")) command = true ->
  ~ In (ch "{") gap -> ~ In (ch "{") (command ++ gap).
Proof.
  intros Hc Hg. apply no_brace_app; [|assumption].
  intros H. rewrite forallb_forall in Hc. specialize (Hc _ H).
  unfold is_not in Hc. now rewrite N.eqb_refl in Hc.
Qed.

(** An acronym command as it is written: the command name, then key, short
    form and long form in braces, each balanced, with no opening brace in
    the gaps. Met where it starts, it yields the entry of its short and
    long form, and the scan goes on behind its last brace. *)
Lemma acronym_turn_written (pre g1 key g2 short g3 long post : str) :
  ~ In (ch "{") g1 -> ~ In (ch "{") g2 -> ~ In (ch "{") g3 ->
  balanced key -> balanced short -> balanced long ->
  acronym_turn
    (pre ++ s_ "\newacronym" ++ g1 ++ braced key ++ g2 ++ braced short
         ++ g3 ++ braced long ++ post)
    (len pre)
  = Ok (Continue
          (len (pre ++ s_ "\newacronym" ++ g1 ++ braced key ++ g2 ++ braced short
                    ++ g3 ++ braced long))
          (acronym_emit (strip short) (strip long))).
Proof.
  intros H1 H2 H3 Bk Bs Bl.
  set (tex := pre ++ _ ++ _ ++ _ ++ _ ++ _ ++ _ ++ _ ++ post).
  rewrite acronym_turn_occurrence. f_equal. unfold acronym_occurrence.
  unfold tex at 1. rewrite slice_from_at. unfold re_newacronym.
  rewrite search_lit_head. cbv zeta. cbn [m_start m_end]. rewrite Z.add_0_r.
  destruct (brace_group_next tex pre (s_ "\newacronym" ++ g1) key
              (g2 ++ braced short ++ g3 ++ braced long ++ post) (len pre))
    as (k & -> & _ & Ek);
    [reflexivity | unfold tex; list_eq | now apply no_brace_command | assumption |].
  destruct (brace_group_next tex _ g2 short (g3 ++ braced long ++ post) _ Ek)
    as (s & -> & Ts & Es); [unfold tex; list_eq | assumption | assumption |].
  destruct (brace_group_next tex _ g3 long post _ Es) as (l & -> & Tl & El);
    [unfold tex; list_eq | assumption | assumption |].
  unfold group_text. rewrite Ts, Tl, El. unfold acronym_emit. f_equal.
  - f_equal. list_eq.
  - destruct (clean_latex_text (strip short)); [reflexivity|].
    destruct (clean_latex_text (strip long)); reflexivity.
Qed.

(** A glossary command as it is written: the command name, then the key
    and the parameter block in braces, both balanced, with no opening brace
    in the gaps. Met where it starts, its turn emits from the key, the name
    and the description of the block, and the scan goes on behind the
    block. *)
Lemma glossary_turn_written (pre g1 key g2 params post : str) :
  ~ In (ch "{") g1 -> ~ In (ch "{") g2 -> balanced key -> balanced params ->
  glossary_turn
    (pre ++ s_ "\newglossaryentry" ++ g1 ++ braced key ++ g2 ++ braced params ++ post)
    (len pre)
  = (description <- parse_description params ;;
     Ok (Continue
           (len (pre ++ s_ "\newglossaryentry" ++ g1 ++ braced key ++ g2
                     ++ braced params))
           (glossary_emit (strip key) (parse_name params) description))).
Proof.
  intros H1 H2 Bk Bp.
  set (tex := pre ++ _ ++ _ ++ _ ++ _ ++ _ ++ post).
  assert (Hm : search re_newglossaryentry (slice_from tex (len pre))
               = Some {| m_start := 0; m_end := len (s_ "\newglossaryentry");
                         m_groups := [] |}).
  { unfold tex. rewrite slice_from_at. apply search_lit_head. }
  destruct (brace_group_next tex pre (s_ "\newglossaryentry" ++ g1) key
              (g2 ++ braced params ++ post) (len pre))
    as ([b1 e1] & G1 & T1 & E1);
    [reflexivity | unfold tex; list_eq | now apply no_brace_command | assumption |].
  destruct (brace_group_next tex _ g2 params post _ E1)
    as ([b2 e2] & G2 & T2 & E2); [unfold tex; list_eq | assumption | assumption |].
  simpl fst in *. simpl snd in *.
  rewrite (glossary_turn_located tex (len pre) _ b1 e1 b2 e2 Hm);
    [|cbn [m_start]; now rewrite Z.add_0_r | exact G2].
  unfold group_text. simpl fst. simpl snd. rewrite T1, T2, E2.
  destruct (parse_description params); try reflexivity.
  simpl bind. do 3 f_equal. list_eq.
Qed.

Lemma balanced_from_sound (s : str) :
  forall d, balanced_from d s = true ->
            d + net s = 0 /\ forall n, 0 <= d -> 0 <= d + net (firstn n s).
Proof.
  induction s as [|c s IH]; intros d H; simpl in H.
  - apply Z.eqb_eq in H. subst d. split; [reflexivity|].
    intros n _. now rewrite firstn_nil.
  - apply andb_true_iff in H as [H0 H]. apply Z.leb_le in H0.
    destruct (IH _ H) as [E P]. rewrite net_cons. pose proof (bump_shift c d).
    split; [lia|].
    intros [|n] Hd; [simpl; unfold net; simpl; lia|].
    rewrite firstn_cons, net_cons. specialize (P n H0). lia.
Qed.

Lemma balanced_check (s : str) : balanced_from 0 s = true -> balanced s.
Proof.
  intros H. destruct (balanced_from_sound s 0 H) as [E P].
  split; [lia|]. intros n. specialize (P n ltac:(lia)). lia.
Qed.

(** C4. The acronym extractor. At every occurrence the turn of the program
    does not raise and is the turn of the specification: three brace groups
    in order, each the first opening brace behind the group before with the
    brace the matcher finds for it, the key not emitted, the occurrence
    skipped when a group is missing, an entry emitted only when short and
    long form are both non-empty after normalization. A command written
    with its three groups in braces yields the entry of the second and the
    third group. The entries returned are those of the occurrences, in
    order; and the example of the specification. *)
Theorem acronym_extractor :
  (forall tex_content pos,
      acronym_turn tex_content pos = Ok (acronym_occurrence tex_content pos))
  /\ (forall pre g1 key g2 short g3 long post,
         ~ In (ch "{") g1 -> ~ In (ch "{") g2 -> ~ In (ch "{") g3 ->
         balanced key -> balanced short -> balanced long ->
         acronym_turn
           (pre ++ s_ "\newacronym" ++ g1 ++ braced key ++ g2 ++ braced short
                ++ g3 ++ braced long ++ post)
           (len pre)
         = Ok (Continue
                 (len (pre ++ s_ "\newacronym" ++ g1 ++ braced key ++ g2
                           ++ braced short ++ g3 ++ braced long))
                 (let short_form := clean_latex_text (strip short) in
                  let long_form := clean_latex_text (strip long) in
                  if truthy short_form && truthy long_form
                  then [ {| name := short_form; description := long_form |} ]
                  else [])))
  /\ (forall tex_content,
         exists l, parse_acronym_entries tex_content = Ok l
                   /\ scan_trace acronym_turn tex_content 0 l)
  /\ parse_acronym_entries (s_ "\newacronym{cpu}{CPU}{Central Processing Unit}")
     = Ok [mk "CPU" "Central Processing Unit"].
Proof.
  split; [exact acronym_turn_occurrence|].
  split; [exact acronym_turn_written|].
  split; [exact parse_acronym_entries_total|].
  vm_compute. reflexivity.
Qed.

Lemma acronym_extractor_witness :
  acronym_turn
    (s_ "x" ++ s_ "\newacronym" ++ [] ++ braced (s_ "cpu") ++ s_ " "
        ++ braced (s_ " CPU ") ++ [] ++ braced (s_ "Central {P}rocessing Unit")
        ++ s_ "y")
    (len (s_ "x"))
  = Ok (Continue 52 [mk "CPU" "Central {P}rocessing Unit"]).
Proof.
  apply (proj1 (proj2 acronym_extractor) (s_ "x") [] (s_ "cpu") (s_ " ")
               (s_ " CPU ") [] (s_ "Central {P}rocessing Unit") (s_ "y")).
  - intros [].
  - simpl. intuition discriminate.
  - intros [].
  - apply balanced_check. reflexivity.
  - apply balanced_check. reflexivity.
  - apply balanced_check. reflexivity.
Defined.

(** The turn has nothing to append when the description is missing. *)
Lemma glossary_emit_none (key : str) (name : option str) :
  glossary_emit key name None = [].
Proof.
  unfold glossary_emit.
  destruct (negb (truthy_opt name)); [|destruct name]; reflexivity.
Qed.

(** C3, amended. Missing description. At every occurrence whose key and
    parameter block are located and whose parameter block holds nowhere
    the word [description], optional white space, [=], optional white
    space and an opening brace (or whose first such marker has a brace
    the matcher cannot close), the turn appends no entry, does not raise,
    and the scan goes on behind the parameter block. So does a command
    written with key and parameter block in braces. *)
Theorem glossary_missing_description :
  (forall tex_content pos m key params,
      search re_newglossaryentry (slice_from tex_content pos) = Some m ->
      brace_group tex_content (pos + m_start m) = Some key ->
      brace_group tex_content (snd key + 1) = Some params ->
      (forall a ws1 ws2 b,
          forallb isspace ws1 = true -> forallb isspace ws2 = true ->
          slice tex_content (fst params + 1) (snd params)
          <> a ++ s_ "description" ++ ws1 ++ s_ "=" ++ ws2 ++ s_ "{" ++ b)
      \/ (exists dm,
             search re_description (slice tex_content (fst params + 1) (snd params))
             = Some dm
             /\ find_matching_brace
                  (slice tex_content (fst params + 1) (snd params)) (m_end dm - 1)
                = Ok (-1)) ->
      glossary_turn tex_content pos = Ok (Continue (snd params + 1) []))
  /\ (forall pre g1 key g2 params post,
         ~ In (ch "{") g1 -> ~ In (ch "{") g2 ->
         balanced key -> balanced params ->
         (forall a ws1 ws2 b,
             forallb isspace ws1 = true -> forallb isspace ws2 = true ->
             params <> a ++ s_ "description" ++ ws1 ++ s_ "=" ++ ws2 ++ s_ "{" ++ b) ->
         glossary_turn
           (pre ++ s_ "\newglossaryentry" ++ g1 ++ braced key ++ g2
                ++ braced params ++ post)
           (len pre)
         = Ok (Continue
                 (len (pre ++ s_ "\newglossaryentry" ++ g1 ++ braced key ++ g2
                           ++ braced params))
                 [])).
Proof.
  split.
  - intros tex pos m [b1 e1] [b2 e2] Hm H1 H2 Hd. simpl fst in *. simpl snd in *.
    rewrite (glossary_turn_located tex pos m b1 e1 b2 e2 Hm H1 H2).
    assert (E : parse_description (slice tex (b2 + 1) e2) = Ok None).
    { unfold parse_description. destruct Hd as [Hd | (dm & Hs & Hf)].
      - now rewrite (search_description_none _ Hd).
      - rewrite Hs. cbv zeta. rewrite Hf. reflexivity. }
    rewrite E. simpl bind. now rewrite glossary_emit_none.
  - intros pre g1 key g2 params post H1 H2 Bk Bp Hd.
    rewrite glossary_turn_written by assumption.
    unfold parse_description. rewrite (search_description_none _ Hd).
    simpl bind. now rewrite glossary_emit_none.
Qed.

Lemma glossary_missing_description_witness :
  glossary_turn
    (s_ "\newglossaryentry{k}{name={N}}\newglossaryentry{j}{description={D}}") 0
  = Ok (Continue 30 [])
  /\ glossary_turn
       (s_ "x" ++ s_ "\newglossaryentry" ++ [] ++ braced (s_ "k") ++ []
           ++ braced (s_ "name={N}") ++ s_ "y")
       (len (s_ "x"))
     = Ok (Continue 31 []).
Proof.
  assert (H : forall a ws1 ws2 b : str,
             s_ "name={N}"
             <> a ++ s_ "description" ++ ws1 ++ s_ "=" ++ ws2 ++ s_ "{" ++ b).
  { intros a ws1 ws2 b E.
    apply (f_equal (occurs (s_ "description"))) in E.
    rewrite occurs_app in E. discriminate E. }
  split.
  - apply (proj1 glossary_missing_description
             (s_ "\newglossaryentry{k}{name={N}}\newglossaryentry{j}{description={D}}")
             0 {| m_start := 0; m_end := 17; m_groups := [] |}
             (17, 19) (20, 29) eq_refl eq_refl eq_refl).
    left. intros a ws1 ws2 b _ _. apply H.
  - apply (proj2 glossary_missing_description (s_ "x") [] (s_ "k") []
                 (s_ "name={N}") (s_ "y")).
    + intros [].
    + intros [].
    + apply balanced_check. reflexivity.
    + apply balanced_check. reflexivity.
    + intros a ws1 ws2 b _ _. apply H.
Defined.

(** C5. Output ordering: the combined sequence is the glossary entries,
    in the order of their occurrences, followed by the acronym entries, in
    the order of theirs, whatever their order in the text; an acronym
    written before a glossary entry comes out behind it. *)
Theorem parse_all_entries_order :
  (forall tex_content,
      exists g a,
        parse_glossary_entries tex_content = Ok g
        /\ parse_acronym_entries tex_content = Ok a
        /\ parse_all_entries tex_content = Ok (g ++ a)
        /\ scan_trace glossary_turn tex_content 0 g
        /\ scan_trace acronym_turn tex_content 0 a)
  /\ parse_all_entries
       (s_ "\newacronym{a}{A}{Long}\newglossaryentry{k}{name={N},description={D}}")
     = Ok [mk "N" "D"; mk "A" "Long"].
Proof.
  split.
  - intros tex.
    destruct (parse_glossary_entries_total tex) as (g & Eg & Tg).
    destruct (parse_acronym_entries_total tex) as (a & Ea & Ta).
    exists g, a. unfold parse_all_entries. rewrite Eg, Ea. auto.
  - vm_compute. reflexivity.
Qed.

(** C9. Totality of the parsing pipeline. In this model indexing a text
    out of range raises and a loop has the turns its text allows. On every
    text a turn of either scanning loop returns without raising, every
    lookup that fails being answered by the skip of the occurrence, and
    moves forward inside the text; so both loops end within their turns and
    the three parsers return a list. The normalizer is a total function,
    its substitutions being scans that consume the text, and it returns
    the empty string on the empty string. *)
Theorem parsing_total :
  progresses glossary_turn
  /\ progresses acronym_turn
  /\ (forall tex_content,
         (exists l, parse_glossary_entries tex_content = Ok l)
         /\ (exists l, parse_acronym_entries tex_content = Ok l)
         /\ (exists l, parse_all_entries tex_content = Ok l))
  /\ clean_latex_text [] = [].
Proof.
  split; [exact glossary_turn_progresses|].
  split; [exact acronym_turn_progresses|].
  split; [|reflexivity].
  intros tex.
  destruct (parse_glossary_entries_total tex) as (g & Eg & _).
  destruct (parse_acronym_entries_total tex) as (a & Ea & _).
  unfold parse_all_entries. rewrite Eg, Ea. simpl.
  split; [|split]; eexists; reflexivity.
Qed.

End Extractors.

Section SubFacts.

Variable r : regex.
Variable repl : list titem.

Lemma sub_from_skip (skip : nat) :
  forall s, (skip <= List.length s)%nat ->
            sub_from r repl s skip = sub_from r repl (skipn skip s) 0.
Proof.
  induction skip as [|skip IH]; intros s H; [reflexivity|].
  destruct s as [|c s]; simpl in H; [lia|].
  simpl skipn. rewrite <- IH by lia. reflexivity.
Qed.

Lemma sub_nil : match_here r false [] = None -> sub r repl [] = [].
Proof. unfold sub. simpl. now intros ->. Qed.

Lemma sub_skip (c : char) (s : str) :
  match_here r false (c :: s) = None ->
  sub r repl (c :: s) = c :: sub r repl s.
Proof. unfold sub. simpl. now intros ->. Qed.

Lemma sub_match (s : str) (k : nat) g :
  match_here r false s = Some (S k, g) ->
  sub r repl s = expand repl g ++ sub r repl (skipn (S k) s).
Proof.
  intros H. pose proof H as H'.
  apply match_here_sound in H' as (w & s' & -> & _ & Hk & _).
  unfold sub. destruct (w ++ s') as [|c t] eqn:E.
  - apply (f_equal (@List.length char)) in E. rewrite length_app in E.
    simpl in E. lia.
  - simpl. rewrite H. f_equal.
    apply (f_equal (@List.length char)) in E. rewrite length_app in E.
    simpl in E. apply sub_from_skip. lia.
Qed.

End SubFacts.

Section Markup.

Lemma star_longest {R : Type} (p : char -> bool) (w : str) :
  forall s' n (k : str -> nat -> option R) x,
    forallb p w = true ->
    k s' (n + List.length w)%nat = Some x ->
    match s' with c :: _ => p c = false | [] => True end ->
    star p (w ++ s') n k = Some x.
Proof.
  induction w as [|c w IH]; intros s' n k x Hw Hk Hs; simpl in *.
  - rewrite Nat.add_0_r in Hk.
    destruct s' as [|c s']; simpl; [exact Hk|]. now rewrite Hs.
  - apply andb_true_iff in Hw as [Hc Hw]. rewrite Hc.
    rewrite Nat.add_succ_r in Hk.
    now rewrite (IH s' (S n) k x Hw Hk Hs).
Qed.

Lemma is_not_refl (c : char) : is_not c c = false.
Proof. unfold is_not. now rewrite N.eqb_refl. Qed.

Variable command : str.

Lemma matches_markup (w : str) g :
  matches (markup command) w g ->
  exists arg, w = command ++ arg ++ s_ "}" /\ arg <> []
              /\ forallb (is_not (ch "}")) arg = true /\ g = [(1%nat, arg)].
Proof.
  unfold markup. intros M. inv_matches. eauto.
Qed.

(** The markup pattern at the command followed by a non-empty argument
    without closing brace and a closing brace: this is the match. *)
Lemma match_here_markup (arg rest : str) :
  arg <> [] -> forallb (is_not (ch "}")) arg = true ->
  match_here (markup command) false (command ++ arg ++ s_ "}" ++ rest)
  = Some (List.length command + List.length arg + 1, [(1, arg)])%nat.
Proof.
  intros Hne Harg. unfold match_here, markup. cbn [run].
  assert (HS : strip_prefix command (command ++ arg ++ s_ "}" ++ rest)
              = Some (arg ++ s_ "}" ++ rest)) by (now apply strip_prefix_app).
  rewrite HS. clear HS.
  destruct arg as [|c arg]; [contradiction|].
  cbn [forallb] in Harg. cbn [app].
  apply andb_true_iff in Harg as [Hc Harg]. rewrite Hc.
  apply star_longest; auto.
  - change (s_ "}" ++ rest) with (ch "}" :: rest).
    assert (P : strip_prefix (s_ "}") (ch "}" :: rest) = Some rest) by reflexivity.
    rewrite P. cbn [andb].
    replace (S (0 + List.length command) + List.length arg - (0 + List.length command))%nat
      with (S (List.length arg)) by lia.
    change (firstn (S (List.length arg)) (c :: arg ++ ch "}" :: rest))
      with (c :: firstn (List.length arg) (arg ++ ch "}" :: rest)).
    rewrite firstn_app, firstn_all, Nat.sub_diag. simpl firstn.
    rewrite app_nil_r. simpl List.length. do 2 f_equal. lia.
  - apply is_not_refl.
Qed.

Variable repl : list titem.

(** The three equations of the substitution of a markup pattern. *)
Lemma sub_markup_match (arg rest : str) :
  arg <> [] -> forallb (is_not (ch "}")) arg = true ->
  command <> [] ->
  sub (markup command) repl (command ++ arg ++ s_ "}" ++ rest)
  = expand repl [(1%nat, arg)] ++ sub (markup command) repl rest.
Proof.
  intros Hne Harg Hc.
  pose proof (match_here_markup arg rest Hne Harg) as H.
  replace (List.length command + List.length arg + 1)%nat
    with (S (List.length command + List.length arg)) in H by lia.
  rewrite (sub_match _ _ _ _ _ H). f_equal. f_equal.
  replace (S (List.length command + List.length arg))
    with (List.length (command ++ arg ++ s_ "}"))
    by (rewrite !length_app; simpl; lia).
  replace (command ++ arg ++ s_ "}" ++ rest)
    with ((command ++ arg ++ s_ "}") ++ rest) by (now rewrite <- !app_assoc).
  apply skipn_length_app.
Qed.

Lemma sub_markup_skip (c : char) (s : str) :
  (forall arg rest, arg <> [] -> forallb (is_not (ch "}")) arg = true ->
                    c :: s <> command ++ arg ++ s_ "}" ++ rest) ->
  sub (markup command) repl (c :: s) = c :: sub (markup command) repl s.
Proof.
  intros H. apply sub_skip. apply match_here_none.
  intros w s' g E M. apply matches_markup in M as (arg & -> & Hne & Harg & _).
  apply (H arg s' Hne Harg). rewrite E. now rewrite <- !app_assoc.
Qed.

End Markup.

Section Normalizer.

Lemma bold_match (arg rest : str) :
  arg <> [] -> forallb (is_not (ch "}")) arg = true ->
  bold (s_ "\textbf{" ++ arg ++ s_ "}" ++ rest)
  = s_ "<b>" ++ arg ++ s_ "</b>" ++ bold rest.
Proof.
  intros Hne Harg. unfold bold. change re_textbf with (markup (s_ "\textbf{")).
  rewrite sub_markup_match by (auto; discriminate).
  cbn [expand flat_map lookup Nat.eqb]. now rewrite <- !app_assoc.
Qed.

Lemma italic_match (arg rest : str) :
  arg <> [] -> forallb (is_not (ch "}")) arg = true ->
  italic (s_ "\emph{" ++ arg ++ s_ "}" ++ rest)
  = s_ "<i>" ++ arg ++ s_ "</i>" ++ italic rest.
Proof.
  intros Hne Harg. unfold italic. change re_emph with (markup (s_ "\emph{")).
  rewrite sub_markup_match by (auto; discriminate).
  cbn [expand flat_map lookup Nat.eqb]. now rewrite <- !app_assoc.
Qed.

(** C7, amended. Markup rewriting: the bold step replaces, from left to
    right, every [\textbf{] that is followed by a non-empty run of
    characters other than the closing brace and a closing brace by that
    run between [<b>] and [</b>], the run copied as it is, and goes on
    behind the closing brace; a character where no such text starts is
    copied. The italic step does the same with [\emph{], [<i>] and
    [</i>]. Both are the second and third step of the normalizer, which
    turns [\textbf{Hi}] into [<b>Hi</b>] and [\emph{x}] into [<i>x</i>]. *)
Theorem markup_rewriting :
  (forall arg rest,
      arg <> [] -> forallb (is_not (ch "}")) arg = true ->
      bold (s_ "\textbf{" ++ arg ++ s_ "}" ++ rest)
      = s_ "<b>" ++ arg ++ s_ "</b>" ++ bold rest)
  /\ (forall c s,
         (forall arg rest,
             arg <> [] -> forallb (is_not (ch "}")) arg = true ->
             c :: s <> s_ "\textbf{" ++ arg ++ s_ "}" ++ rest) ->
         bold (c :: s) = c :: bold s)
  /\ bold [] = []
  /\ (forall arg rest,
         arg <> [] -> forallb (is_not (ch "}")) arg = true ->
         italic (s_ "\emph{" ++ arg ++ s_ "}" ++ rest)
         = s_ "<i>" ++ arg ++ s_ "</i>" ++ italic rest)
  /\ (forall c s,
         (forall arg rest,
             arg <> [] -> forallb (is_not (ch "}")) arg = true ->
             c :: s <> s_ "\emph{" ++ arg ++ s_ "}" ++ rest) ->
         italic (c :: s) = c :: italic s)
  /\ italic [] = []
  /\ (forall text,
         text <> [] ->
         clean_latex_text text
         = strip (sub re_command [G 1]
                    (sub re_ldots [T (s_ "...")]
                       (sub re_dots [T (s_ "...")]
                          (italic (bold (sub re_spaces [T (s_ " ")]
                                             (strip text))))))))
  /\ clean_latex_text (s_ "\textbf{Hi}") = s_ "<b>Hi</b>"
  /\ clean_latex_text (s_ "\emph{x}") = s_ "<i>x</i>".
Proof.
  split; [exact bold_match|].
  split; [intros c s H; apply (sub_markup_skip (s_ "\textbf{")); exact H|].
  split; [reflexivity|].
  split; [exact italic_match|].
  split; [intros c s H; apply (sub_markup_skip (s_ "\emph{")); exact H|].
  split; [reflexivity|].
  split; [intros [|c text] H; [contradiction|reflexivity]|].
  split; vm_compute; reflexivity.
Qed.

Lemma markup_rewriting_witness :
  bold (s_ "\textbf{" ++ s_ "Hi" ++ s_ "}" ++ s_ " there")
  = s_ "<b>" ++ s_ "Hi" ++ s_ "</b>" ++ bold (s_ " there").
Proof.
  apply (proj1 markup_rewriting); [discriminate | reflexivity].
Defined.

(** The claim C7 as it is written fails: an argument with braces inside
    is cut at its first closing brace, and an empty argument is not
    rewritten. *)
Lemma markup_rewriting_counterexample :
  clean_latex_text (s_ "\textbf{a{b}c}") = s_ "<b>a{b</b>c}"
  /\ clean_latex_text (s_ "\textbf{a{b}c}") <> s_ "<b>a{b}c</b>"
  /\ clean_latex_text (s_ "\textbf{}") = s_ "textbf{}"
  /\ clean_latex_text (s_ "\textbf{}") <> s_ "<b></b>".
Proof.
  vm_compute. repeat split; try reflexivity; discriminate.
Qed.

(** C6. What the normalizer does to a math span: the commands between the
    dollar signs lose their backslash, and markup and dots inside are
    rewritten; so it is in the entries the parsers return. *)
Theorem clean_latex_text_math_span :
  clean_latex_text (s_ "$\alpha$") = s_ "$alpha$"
  /\ clean_latex_text (s_ "$\frac{a}{b} \dots \textbf{x}$")
     = s_ "$frac{a}{b} ... <b>x</b>$"
  /\ parse_all_entries (s_ "\newglossaryentry{a}{description={angle $\alpha$}}")
     = Ok [mk "a" "angle $alpha$"].
Proof. vm_compute. repeat split; reflexivity. Qed.

End Normalizer.

Section Tidy.

Lemma walk_app (s t : str) :
  forall st,
    walk st (s ++ t)
    = match walk st s with Some st' => walk st' t | None => None end.
Proof.
  induction s as [|c s IH]; intros st; simpl; [reflexivity|].
  destruct (wstep st c); auto.
Qed.

Lemma wstep_other (st : wstate) (c : char) :
  isspace c = false -> wstep st c = Some AfterOther.
Proof. unfold wstep. now intros ->. Qed.

Lemma wstep_space (st st' : wstate) (c : char) :
  isspace c = true -> wstep st c = Some st' ->
  c = ch " " /\ st = AfterOther /\ st' = AfterSpace.
Proof.
  unfold wstep. intros ->. destruct (N.eqb_spec c (ch " ")); [|discriminate].
  destruct st; try discriminate. intros [= <-]. auto.
Qed.

(** A non-empty text without white space takes the reader behind a
    character that is no white space. *)
Lemma walk_word (w : str) :
  forall st, w <> [] -> forallb (fun c => negb (isspace c)) w = true ->
             walk st w = Some AfterOther.
Proof.
  induction w as [|c w IH]; intros st Hne Hw; [contradiction|].
  simpl in *. apply andb_true_iff in Hw as [Hc Hw].
  apply negb_true_iff in Hc. rewrite (wstep_other _ _ Hc).
  destruct w as [|d w]; [reflexivity|]. apply IH; [discriminate|exact Hw].
Qed.

Lemma walk_facts (s : str) :
  forall st st',
    walk st s = Some st' ->
    (forall c, In c s -> isspace c = true -> c = ch " ")
    /\ (forall a b c d, s = a ++ c :: d :: b ->
                        isspace c = true -> isspace d = true -> False)
    /\ (forall c t, s = c :: t -> isspace c = true -> st = AfterOther)
    /\ (forall c t, s = t ++ [c] -> isspace c = true -> st' = AfterSpace).
Proof.
  induction s as [|x s IH]; intros st st' H.
  - repeat split.
    + intros c [].
    + intros [|? ?] ? ? ? ?; discriminate.
    + discriminate.
    + intros c [|? ?]; discriminate.
  - simpl in H. destruct (wstep st x) as [st1|] eqn:Hx; [|discriminate].
    destruct (IH _ _ H) as (I1 & I2 & I3 & I4).
    repeat split.
    + intros c [<-|Hc] Hs; [|auto].
      now destruct (wstep_space _ _ _ Hs Hx).
    + intros [|y a] b c d E Hc Hd; simpl in E; injection E as -> ->.
      * destruct (wstep_space _ _ _ Hc Hx) as (_ & _ & ->).
        specialize (I3 d b eq_refl Hd). discriminate.
      * eapply I2; eauto.
    + intros c t [= -> ->] Hs. now destruct (wstep_space _ _ _ Hs Hx).
    + intros c [|y t] E Hs; simpl in E; injection E as -> E.
      * subst s. simpl in H. injection H as <-.
        now destruct (wstep_space _ _ _ Hs Hx).
      * eapply I4; eauto.
Qed.

Lemma walk_tidy (s : str) (st : wstate) :
  walk AtStart s = Some st -> st <> AfterSpace -> tidy s.
Proof.
  intros H Hst. destruct (walk_facts s _ _ H) as (I1 & I2 & I3 & I4).
  repeat split; auto.
  - intros c t E. destruct (isspace c) eqn:Hc; [|reflexivity].
    specialize (I3 c t E Hc). discriminate.
  - intros c t E. destruct (isspace c) eqn:Hc; [|reflexivity].
    specialize (I4 c t E Hc). contradiction.
Qed.

End Tidy.

Section TidySubstitution.

Lemma sub_walk (r : regex) (repl : list titem) :
  keeps_walk r repl ->
  forall s st st', walk st s = Some st' -> walk st (sub r repl s) = Some st'.
Proof.
  intros K s. remember (List.length s) as n eqn:En.
  revert s En. induction n as [n IH] using lt_wf_ind. intros s En st st' H.
  destruct (match_here r false s) as [[k g]|] eqn:E.
  - destruct (K s k g E) as [Hk Hw].
    destruct k as [|k]; [lia|].
    rewrite (sub_match _ _ _ _ _ E).
    pose proof E as E'.
    apply match_here_sound in E' as (w & s' & -> & _ & Hl & _).
    rewrite <- (firstn_skipn (S k) (w ++ s')) in H.
    rewrite walk_app in H. rewrite walk_app.
    destruct (walk st (firstn (S k) (w ++ s'))) as [st1|] eqn:W; [|discriminate].
    rewrite (Hw st st1 W).
    apply (IH (List.length (skipn (S k) (w ++ s')))); auto.
    subst n. rewrite length_skipn, length_app. lia.
  - destruct s as [|c s].
    + now rewrite sub_nil.
    + rewrite sub_skip by assumption. simpl in *.
      destruct (wstep st c) as [st1|]; [|discriminate].
      apply (IH (List.length s)); auto. subst n. simpl. lia.
Qed.

Lemma firstn_match (r : regex) (s : str) n g :
  match_here r false s = Some (n, g) ->
  exists w s', s = w ++ s' /\ matches r w g /\ firstn n s = w /\ n = List.length w.
Proof.
  intros H. apply match_here_sound in H as (w & s' & -> & M & -> & _).
  exists w, s'. repeat split; auto.
  rewrite firstn_app, firstn_all, Nat.sub_diag. simpl. apply app_nil_r.
Qed.

Lemma word_length (w : str) : word w -> (0 < List.length w)%nat.
Proof. intros [H _]. destruct w; [contradiction|simpl; lia]. Qed.

Lemma keeps_walk_markup (command opening closing : str) :
  word command -> word opening -> word closing ->
  keeps_walk (markup command) [T opening; G 1; T closing].
Proof.
  intros Hc Ho Hcl s n g H.
  apply firstn_match in H as (w & s' & -> & M & -> & ->).
  apply matches_markup in M as (arg & -> & Hne & Harg & ->).
  split; [rewrite length_app; pose proof (word_length _ Hc); lia|].
  intros st st'. cbn [expand flat_map lookup Nat.eqb].
  rewrite !walk_app, app_nil_r.
  destruct Hc as [Hc1 Hc2], Ho as [Ho1 Ho2], Hcl as [Hl1 Hl2].
  rewrite (walk_word command st Hc1 Hc2), (walk_word opening st Ho1 Ho2).
  rewrite !walk_app.
  destruct (walk AfterOther arg) as [st2|]; [|discriminate].
  intros H. rewrite (walk_word closing st2 Hl1 Hl2).
  rewrite <- H. symmetry. now apply walk_word.
Qed.

Lemma keeps_walk_lit (l t : str) :
  word l -> word t -> keeps_walk (Lit l) [T t].
Proof.
  intros Hl Ht s n g H.
  apply firstn_match in H as (w & s' & -> & M & -> & ->).
  apply matches_lit in M as [-> ->].
  split; [now apply word_length|].
  intros st st'. cbn [expand flat_map]. rewrite app_nil_r.
  destruct Hl as [Hl1 Hl2], Ht as [Ht1 Ht2].
  now rewrite (walk_word l st Hl1 Hl2), (walk_word t st Ht1 Ht2).
Qed.

Lemma isalpha_not_space (c : char) : isalpha c = true -> isspace c = false.
Proof.
  unfold isalpha. intros H.
  assert (R : (65 <= c <= 122)%N).
  { apply orb_true_iff in H as [H|H]; apply andb_true_iff in H as [H1 H2];
      apply N.leb_le in H1, H2; lia. }
  unfold isspace.
  replace (c <=? 13)%N with false by (symmetry; apply N.leb_gt; lia).
  replace (c <=? 32)%N with false by (symmetry; apply N.leb_gt; lia).
  replace (8192 <=? c)%N with false by (symmetry; apply N.leb_gt; lia).
  replace (c =? 133)%N with false by (symmetry; apply N.eqb_neq; lia).
  replace (c =? 160)%N with false by (symmetry; apply N.eqb_neq; lia).
  replace (c =? 5760)%N with false by (symmetry; apply N.eqb_neq; lia).
  replace (c =? 8232)%N with false by (symmetry; apply N.eqb_neq; lia).
  replace (c =? 8233)%N with false by (symmetry; apply N.eqb_neq; lia).
  replace (c =? 8239)%N with false by (symmetry; apply N.eqb_neq; lia).
  replace (c =? 8287)%N with false by (symmetry; apply N.eqb_neq; lia).
  replace (c =? 12288)%N with false by (symmetry; apply N.eqb_neq; lia).
  now rewrite !andb_false_r.
Qed.

Lemma keeps_walk_command : keeps_walk re_command [G 1].
Proof.
  intros s n g H.
  apply firstn_match in H as (w & s' & -> & M & -> & ->).
  unfold re_command in M. inv_matches.
  split; [rewrite length_app; simpl; lia|].
  intros st st'. cbn [expand flat_map lookup Nat.eqb]. rewrite app_nil_r.
  rewrite app_nil_r.
  assert (Hw : forallb (fun c => negb (isspace c)) w2 = true).
  { apply forallb_forall. intros c Hc. apply negb_true_iff, isalpha_not_space.
    match goal with H : forallb isalpha _ = true |- _ =>
      rewrite forallb_forall in H; now apply H end. }
  rewrite walk_app. change (walk st (s_ "\")) with (Some AfterOther).
  change (lookup 1 [(1%nat, w2)]) with (Some w2). cbv iota beta.
  match goal with H : w2 <> [] |- _ =>
    now rewrite (walk_word w2 st H Hw), (walk_word w2 AfterOther H Hw) end.
Qed.

End TidySubstitution.

Section Strip.

Lemma lstrip_starts_clean (s : str) : starts_clean (lstrip s).
Proof.
  induction s as [|c s IH]; simpl; [exact I|].
  destruct (isspace c) eqn:E; [exact IH | exact E].
Qed.

Lemma lstrip_id (s : str) : starts_clean s -> lstrip s = s.
Proof. destruct s as [|c s]; simpl; [reflexivity | now intros ->]. Qed.

Lemma lstrip_suffix (s : str) : exists ws, s = ws ++ lstrip s.
Proof.
  induction s as [|c s [ws IH]]; simpl; [now exists []|].
  destruct (isspace c); [|now exists []].
  exists (c :: ws). simpl. now f_equal.
Qed.

Lemma ends_clean_rev (s : str) : ends_clean s <-> starts_clean (rev s).
Proof.
  split.
  - intros H. destruct (rev s) as [|c t] eqn:E; simpl; [exact I|].
    apply (H c (rev t)). rewrite <- (rev_involutive s), E. reflexivity.
  - intros H c t ->. rewrite rev_app_distr in H. exact H.
Qed.

Lemma rstrip_ends_clean (s : str) : ends_clean (rstrip s).
Proof.
  apply ends_clean_rev. unfold rstrip. rewrite rev_involutive.
  apply lstrip_starts_clean.
Qed.

Lemma rstrip_id (s : str) : ends_clean s -> rstrip s = s.
Proof.
  intros H. unfold rstrip. rewrite lstrip_id by (now apply ends_clean_rev).
  apply rev_involutive.
Qed.

Lemma rstrip_prefix (s : str) : exists ws, s = rstrip s ++ ws.
Proof.
  unfold rstrip. destruct (lstrip_suffix (rev s)) as [ws E].
  exists (rev ws). rewrite <- rev_app_distr, <- E. symmetry. apply rev_involutive.
Qed.

Lemma strip_clean (s : str) : starts_clean (strip s) /\ ends_clean (strip s).
Proof.
  split; [|apply rstrip_ends_clean].
  unfold strip. pose proof (lstrip_starts_clean s) as H.
  destruct (rstrip_prefix (lstrip s)) as [ws E].
  destruct (rstrip (lstrip s)) as [|c t]; simpl; [exact I|].
  rewrite E in H. exact H.
Qed.

Lemma strip_id (s : str) : starts_clean s -> ends_clean s -> strip s = s.
Proof.
  intros H1 H2. unfold strip. rewrite lstrip_id by assumption.
  now apply rstrip_id.
Qed.

End Strip.

Section Collapse.

Variable repl : list titem.

Lemma span_spaces (s : str) :
  exists ws rest, s = ws ++ rest /\ forallb isspace ws = true /\ starts_clean rest.
Proof.
  induction s as [|c s (ws & rest & -> & Hw & Hr)].
  - exists [], []. simpl. auto.
  - destruct (isspace c) eqn:E.
    + exists (c :: ws), rest. simpl. rewrite E. auto.
    + exists [], (c :: ws ++ rest). simpl. auto.
Qed.

Lemma sub_spaces_match (ws rest : str) :
  ws <> [] -> forallb isspace ws = true -> starts_clean rest ->
  sub re_spaces repl (ws ++ rest) = expand repl [] ++ sub re_spaces repl rest.
Proof.
  intros Hne Hw Hr. destruct ws as [|c ws]; [contradiction|].
  simpl in Hw. apply andb_true_iff in Hw as [Hc Hw].
  assert (H : match_here re_spaces false ((c :: ws) ++ rest)
              = Some (S (List.length ws), [])).
  { unfold match_here, re_spaces. cbn [run app]. rewrite Hc.
    apply star_longest; auto. }
  rewrite (sub_match _ _ _ _ _ H). do 2 f_equal.
  change (S (List.length ws)) with (List.length (c :: ws)).
  apply skipn_length_app.
Qed.

Lemma sub_spaces_skip (c : char) (s : str) :
  isspace c = false ->
  sub re_spaces repl (c :: s) = c :: sub re_spaces repl s.
Proof.
  intros H. apply sub_skip. unfold match_here, re_spaces. cbn [run].
  now rewrite H.
Qed.

End Collapse.

Section NormalizerTidy.

(** The first step: a text that neither starts nor ends with white space
    has its runs of white space replaced by one blank each, and the result
    is tidy. *)
Lemma walk_collapse (n : nat) :
  forall s st,
    (List.length s <= n)%nat ->
    ends_clean s ->
    st = AfterOther \/ (st = AtStart /\ starts_clean s) ->
    exists st', walk st (sub re_spaces [T (s_ " ")] s) = Some st'
                /\ st' <> AfterSpace.
Proof.
  induction n as [n IH] using lt_wf_ind. intros s st Hn He Hst.
  destruct s as [|c s].
  - exists st. split; [reflexivity|]. destruct Hst as [->|[-> _]]; discriminate.
  - assert (He' : forall t, ends_clean (c :: s) ->
                            forall pre, c :: s = pre ++ t -> ends_clean t).
    { intros t H pre E x u ->. apply (H x (pre ++ u)).
      now rewrite E, <- app_assoc. }
    destruct (isspace c) eqn:Hc.
    + destruct Hst as [->|[_ Hs]]; [|simpl in Hs; congruence].
      destruct (span_spaces (c :: s)) as (ws & rest & E & Hw & Hr).
      assert (Hne : ws <> []).
      { intros ->. simpl in E. subst rest. simpl in Hr. congruence. }
      rewrite E, sub_spaces_match by assumption.
      cbn [expand flat_map app].
      change (walk AfterOther (s_ " " ++ [] ++ ?x)) with (walk AfterSpace x).
      destruct rest as [|d rest].
      { exfalso. rewrite app_nil_r in E.
        destruct (exists_last Hne) as (t & x & Et).
        rewrite Et in Hw. rewrite forallb_app in Hw.
        apply andb_true_iff in Hw as [_ Hx]. simpl in Hx.
        rewrite (He x t) in Hx by congruence. discriminate. }
      simpl in Hr. rewrite sub_spaces_skip by assumption.
      simpl. rewrite (wstep_other _ _ Hr).
      apply (IH (List.length rest)).
      * apply (f_equal (@List.length char)) in E. rewrite length_app in E.
        simpl in E. destruct ws; [contradiction|]. simpl in *. lia.
      * reflexivity.
      * apply (He' rest He (ws ++ [d])). now rewrite <- app_assoc.
      * now left.
    + rewrite sub_spaces_skip by assumption. simpl.
      rewrite (wstep_other _ _ Hc).
      apply (IH (List.length s)).
      * simpl in Hn. lia.
      * reflexivity.
      * now apply (He' s He [c]).
      * now left.
Qed.

Lemma word_literal (w : str) :
  (match w with [] => false | _ => forallb (fun c => negb (isspace c)) w end) = true ->
  word w.
Proof. destruct w; [discriminate|]. split; [discriminate|assumption]. Qed.

Lemma walk_clean (s : str) (st : wstate) :
  walk AtStart s = Some st -> st <> AfterSpace ->
  starts_clean s /\ ends_clean s.
Proof.
  intros H Hst. destruct (walk_tidy s st H Hst) as (_ & _ & H3 & H4).
  split; [|exact H4]. destruct s as [|c s]; simpl; [exact I|].
  now apply (H3 c s).
Qed.

(** The normalizer returns a tidy text. *)
Lemma clean_latex_text_tidy (text : str) : tidy (clean_latex_text text).
Proof.
  unfold clean_latex_text. destruct (negb (truthy text)).
  { now apply (walk_tidy [] AtStart). }
  destruct (strip_clean text) as [Hs He].
  destruct (walk_collapse _ (strip text) AtStart (Nat.le_refl _) He
                          (or_intror (conj eq_refl Hs))) as (st & W & Hst).
  apply (sub_walk re_textbf [T (s_ "<b>"); G 1; T (s_ "</b>")]) in W;
    [|apply (keeps_walk_markup (s_ "\textbf{")); now apply word_literal].
  apply (sub_walk re_emph [T (s_ "<i>"); G 1; T (s_ "</i>")]) in W;
    [|apply (keeps_walk_markup (s_ "\emph{")); now apply word_literal].
  apply (sub_walk re_dots [T (s_ "...")]) in W;
    [|apply keeps_walk_lit; now apply word_literal].
  apply (sub_walk re_ldots [T (s_ "...")]) in W;
    [|apply keeps_walk_lit; now apply word_literal].
  apply (sub_walk re_command [G 1]) in W; [|exact keeps_walk_command].
  destruct (walk_clean _ _ W Hst) as [H1 H2].
  rewrite strip_id by assumption.
  exact (walk_tidy _ _ W Hst).
Qed.

Lemma glossary_emit_normalized key name description :
  Forall normalized (glossary_emit key name description).
Proof.
  unfold glossary_emit.
  destruct (if negb (truthy_opt name) then Some key else name) as [n|]; [|constructor].
  destruct description as [d|]; [|constructor].
  destruct (truthy n && truthy d); constructor; [|constructor].
  exists n, d. auto.
Qed.

Lemma acronym_emit_normalized short_form long_form :
  Forall normalized (acronym_emit short_form long_form).
Proof.
  unfold acronym_emit.
  destruct (truthy _ && truthy _); constructor; [|constructor].
  exists short_form, long_form. auto.
Qed.

Ltac turn_cases :=
  repeat match goal with
    | H : Ok _ = Ok _ |- _ => injection H as <- <-
    | H : bind ?r _ = Ok _ |- _ => destruct r; simpl bind in H; try discriminate
    | H : (if ?b then _ else _) = Ok _ |- _ => destruct b
    | H : match ?x with Some _ => _ | None => _ end = Ok _ |- _ =>
        destruct x; try discriminate
    end.

Lemma glossary_turn_normalized tex_content pos pos' appended :
  glossary_turn tex_content pos = Ok (Continue pos' appended) ->
  Forall normalized appended.
Proof.
  unfold glossary_turn. cbv zeta. intros H. turn_cases;
    try constructor; apply glossary_emit_normalized.
Qed.

Lemma acronym_turn_normalized tex_content pos pos' appended :
  acronym_turn tex_content pos = Ok (Continue pos' appended) ->
  Forall normalized appended.
Proof.
  unfold acronym_turn. cbv zeta. intros H. turn_cases;
    try constructor; apply acronym_emit_normalized.
Qed.

Lemma scan_trace_normalized (body : str -> Z -> result turn) tex_content :
  (forall pos pos' appended,
      body tex_content pos = Ok (Continue pos' appended) ->
      Forall normalized appended) ->
  forall pos l, scan_trace body tex_content pos l -> Forall normalized l.
Proof.
  intros Hbody pos l T. induction T; [constructor|].
  apply Forall_app. eauto.
Qed.

(** C10. Output-field invariant: the parsers return, on every text, a
    list whose entries all have a tidy name and a tidy description: no
    white space but the blank (so no newline and no tab), no two
    white-space characters in a row, none at the start and none at the
    end; both fields come out of the normalizer. *)
Theorem output_fields_tidy (tex_content : str) :
  exists l,
    parse_all_entries tex_content = Ok l
    /\ Forall (fun e => normalized e /\ tidy (name e) /\ tidy (description e)) l.
Proof.
  destruct (parse_glossary_entries_total tex_content) as (g & Eg & Tg).
  destruct (parse_acronym_entries_total tex_content) as (a & Ea & Ta).
  exists (g ++ a). unfold parse_all_entries. rewrite Eg, Ea. split; [reflexivity|].
  assert (H : Forall normalized (g ++ a)).
  { apply Forall_app. split.
    - eapply scan_trace_normalized; [|exact Tg].
      intros. eapply glossary_turn_normalized; eauto.
    - eapply scan_trace_normalized; [|exact Ta].
      intros. eapply acronym_turn_normalized; eauto. }
  eapply Forall_impl; [|exact H].
  intros e (x & y & Hx & Hy). split; [now exists x, y|].
  rewrite Hx, Hy. split; apply clean_latex_text_tidy.
Qed.

End NormalizerTidy.

Section RoundTrip.

Import Csv.

Lemma special_false (c : char) :
  special c = false ->
  (c =? delimiter)%N = false /\ (c =? quotechar)%N = false
  /\ is_newline c = false.
Proof.
  unfold special, is_newline, lineterminator. simpl existsb.
  intros H. repeat (apply orb_false_iff in H as [H ?]).
  repeat split; auto.
  now rewrite orb_false_r in *.
Qed.

(** At the start of a record a character that ends no line is read as
    at the start of a field. *)
Lemma read_start_record (c : char) (s : str) :
  is_newline c = false ->
  read StartRecord [] [] (c :: s) = read StartField [] [] (c :: s).
Proof.
  intros H. simpl. unfold feed. now rewrite H.
Qed.

Lemma read_plain (f : str) :
  forall cur fields rest,
    existsb special f = false ->
    read InField cur fields (f ++ rest) = read InField (rev f ++ cur) fields rest.
Proof.
  induction f as [|c f IH]; intros cur fields rest H; [reflexivity|].
  simpl in H. apply orb_false_iff in H as [Hc Hf].
  apply special_false in Hc as (Hd & Hq & Hn).
  simpl. unfold feed. rewrite Hn, Hd. simpl. rewrite (IH _ _ _ Hf).
  now rewrite <- app_assoc.
Qed.

Lemma read_quoted (f : str) :
  forall cur fields rest,
    read InQuotedField cur fields (double_quotes f ++ rest)
    = read InQuotedField (rev f ++ cur) fields rest.
Proof.
  induction f as [|c f IH]; intros cur fields rest; [reflexivity|].
  unfold double_quotes in *. simpl flat_map.
  destruct (N.eqb_spec c quotechar) as [->|Hc].
  - simpl. rewrite IH. now rewrite <- app_assoc.
  - apply N.eqb_neq in Hc. simpl. unfold feed. rewrite Hc. simpl. rewrite IH.
    now rewrite <- app_assoc.
Qed.

(** A written field as the reader meets it: a first character that ends
    no line, whatever follows the field. *)
Lemma field_head (f rest : str) (c : char) :
  is_newline c = false ->
  exists d s, field f ++ c :: rest = d :: s /\ is_newline d = false.
Proof.
  intros Hc. unfold field. destruct (existsb special f) eqn:E.
  - eexists _, _. split; [reflexivity|reflexivity].
  - destruct f as [|x f]; simpl.
    + eauto.
    + simpl in E. apply orb_false_iff in E as [Hx _].
      apply special_false in Hx as (_ & _ & Hn). eauto.
Qed.

(** Reading a written field that a delimiter follows. *)
Lemma read_field_delimiter (f : str) (fields : list str) (rest : str) :
  read StartField [] fields (field f ++ delimiter :: rest)
  = read StartField [] (f :: fields) rest.
Proof.
  unfold field. destruct (existsb special f) eqn:E.
  - cbn [app]. change (read StartField [] fields (quotechar :: ?s))
      with (read InQuotedField [] fields s).
    rewrite <- app_assoc, read_quoted. simpl.
    now rewrite app_nil_r, rev_involutive.
  - destruct f as [|c f]; [reflexivity|].
    simpl in E. apply orb_false_iff in E as [Hc Hf].
    apply special_false in Hc as (Hd & Hq & Hn).
    simpl. unfold feed. rewrite Hn, Hq, Hd. simpl.
    rewrite (read_plain f [c] fields _ Hf). simpl.
    now rewrite rev_app_distr, rev_involutive.
Qed.

(** Reading a written field that the line terminator follows. *)
Lemma read_field_eol (f : str) (fields : list str) (rest : str) :
  read StartField [] fields (field f ++ lineterminator ++ rest)
  = rev (f :: fields) :: read StartRecord [] [] rest.
Proof.
  unfold field. destruct (existsb special f) eqn:E.
  - cbn [app]. change (read StartField [] fields (quotechar :: ?s))
      with (read InQuotedField [] fields s).
    rewrite <- app_assoc, read_quoted. simpl.
    now rewrite app_nil_r, rev_involutive.
  - destruct f as [|c f]; [reflexivity|].
    simpl in E. apply orb_false_iff in E as [Hc Hf].
    apply special_false in Hc as (Hd & Hq & Hn).
    simpl. unfold feed. rewrite Hn, Hq, Hd. simpl.
    rewrite (read_plain f [c] fields _ Hf). simpl.
    now rewrite rev_app_distr, rev_involutive.
Qed.

(** One written row read back, whatever follows it. *)
Lemma read_row (a b rest : str) :
  read StartRecord [] [] (writerow [a; b] ++ rest)
  = [a; b] :: read StartRecord [] [] rest.
Proof.
  assert (E : writerow [a; b] ++ rest
              = field a ++ delimiter :: field b ++ lineterminator ++ rest).
  { unfold writerow. destruct a; simpl join; now rewrite <- !app_assoc. }
  rewrite E.
  destruct (field_head a (field b ++ lineterminator ++ rest) delimiter eq_refl)
    as (d & s & Ed & Hd).
  rewrite Ed, read_start_record, <- Ed by assumption.
  now rewrite read_field_delimiter, read_field_eol.
Qed.

(** C8. Round trip of the record writer: the rows read back from the
    text written for a list of entries are, in number and order, the
    (name, description) pairs of the entries, character for character,
    whatever delimiters, quotes or line breaks the fields contain. *)
Theorem csv_round_trip (entries : list entry) :
  reader (write_anki_csv entries)
  = map (fun entry => [name entry; description entry]) entries.
Proof.
  unfold reader, write_anki_csv.
  induction entries as [|e entries IH]; [reflexivity|].
  cbn [flat_map map]. rewrite read_row. now f_equal.
Qed.

End RoundTrip.

(* ================================================================== *)
(** * More on the brace matcher *)
(* ================================================================== *)

Section BraceMatcherMore.

Lemma net_app (s t : str) : net (s ++ t) = net s + net t.
Proof. unfold net. rewrite !count_app. lia. Qed.

Lemma net_nil : net [] = 0.
Proof. reflexivity. Qed.

(** What the scan has seen when it stops at depth 0: a closing brace, and
    before it a depth that stayed positive. *)
Lemma scan_found (s : str) :
  forall brace_count pos p,
    0 < brace_count ->
    scan s brace_count pos = (0, p) ->
    exists n,
      (n < List.length s)%nat
      /\ p = pos + Z.of_nat n + 1
      /\ nth n s 0%N = ch "}"
      /\ brace_count + net (firstn n s) = 1
      /\ forall m, (m <= n)%nat -> 0 < brace_count + net (firstn m s).
Proof.
  induction s as [|c s IH]; intros bc pos p Hbc H; simpl in H.
  - injection H as H _. lia.
  - destruct (Z.ltb_spec 0 bc); [|lia].
    pose proof (bump_step c bc). pose proof (bump_shift c bc).
    destruct (Z.eq_dec (bump c bc) 0) as [E|E].
    + rewrite E, scan_zero in H. injection H as <-.
      exists 0%nat. simpl. rewrite net_nil.
      pose proof (bump_zero c bc Hbc E) as ->.
      unfold bump in E. change (ch "}" =? ch "{")%N with false in E.
      change (ch "}" =? ch "}")%N with true in E. cbv iota in E.
      repeat split; try lia.
      intros m Hm. replace m with 0%nat by lia. simpl. rewrite net_nil. lia.
    + destruct (IH (bump c bc) (pos + 1) p ltac:(lia) H)
        as (n & Hn & -> & Hc & Hnet & Hpos).
      exists (S n). simpl List.length. rewrite firstn_cons, net_cons.
      repeat split; try lia; auto.
      intros [|m] Hm; [simpl; rewrite net_nil; lia|].
      rewrite firstn_cons, net_cons. specialize (Hpos m ltac:(lia)). lia.
Qed.

(** A scan that ends above depth 0 has read the whole text. *)
Lemma scan_unfinished (s : str) :
  forall brace_count pos,
    0 < brace_count ->
    fst (scan s brace_count pos) <> 0 ->
    fst (scan s brace_count pos) = brace_count + net s
    /\ 0 < fst (scan s brace_count pos).
Proof.
  induction s as [|c s IH]; intros bc pos Hbc H; simpl in *.
  - rewrite net_nil. lia.
  - destruct (Z.ltb_spec 0 bc); [|lia].
    pose proof (bump_step c bc). pose proof (bump_shift c bc).
    destruct (Z.eq_dec (bump c bc) 0) as [E|E].
    + rewrite E, scan_zero in H. simpl in H. contradiction.
    + destruct (IH (bump c bc) (pos + 1) ltac:(lia) H) as [I1 I2].
      rewrite I1, net_cons in *. lia.
Qed.

Lemma scan_app_found (s extra : str) :
  forall brace_count pos,
    fst (scan s brace_count pos) = 0 ->
    scan (s ++ extra) brace_count pos = scan s brace_count pos.
Proof.
  induction s as [|c s IH]; intros bc pos H; simpl in *.
  - subst bc. apply scan_zero.
  - destruct (0 <? bc); [now apply IH | reflexivity].
Qed.

Lemma scan_shift (s : str) (k : Z) :
  forall brace_count pos,
    scan s brace_count (k + pos)
    = (fst (scan s brace_count pos), k + snd (scan s brace_count pos)).
Proof.
  induction s as [|c s IH]; intros bc pos; simpl; [reflexivity|].
  destruct (0 <? bc); [|reflexivity].
  rewrite <- IH. f_equal. lia.
Qed.

(** What a found match tells: the index held an opening brace, the match
    holds a closing brace, and the text between them is balanced. *)
Lemma find_matching_brace_found (text : str) (start_pos r : Z) :
  0 <= start_pos ->
  find_matching_brace text start_pos = Ok r -> r <> -1 ->
  start_pos < r < len text
  /\ getitem text start_pos = Ok (ch "{")
  /\ getitem text r = Ok (ch "}")
  /\ balanced (slice text (start_pos + 1) r).
Proof.
  intros Hs H Hr.
  destruct (Z.ltb_spec start_pos (len text)) as [Hlt|Hge].
  2:{ unfold find_matching_brace in H.
      destruct (Z.geb_spec start_pos (len text)); [|lia].
      injection H as <-. contradiction. }
  rewrite find_matching_brace_scan in H by lia. injection H as H.
  destruct (N.eqb_spec (nth (Z.to_nat start_pos) text 0%N) (ch "{")) as [Hc|Hc];
    simpl negb in H; cbv iota in H; [|congruence].
  destruct (scan (skipn (Z.to_nat (start_pos + 1)) text) 1 (start_pos + 1))
    as [bc p] eqn:E.
  destruct (Z.eqb_spec bc 0) as [->|]; [|congruence].
  apply scan_found in E as (n & Hn & -> & Hclose & Hnet & Hpos); [|lia].
  rewrite length_skipn in Hn. subst r.
  assert (Hlen : start_pos + 1 + Z.of_nat n + 1 - 1 < len text)
    by (unfold len in *; lia).
  split; [lia|]. split; [rewrite getitem_nth by lia; now rewrite Hc|].
  split.
  - rewrite getitem_nth by lia. f_equal. rewrite <- Hclose.
    rewrite nth_skipn. f_equal. lia.
  - rewrite slice_firstn_skipn by lia.
    replace (Z.to_nat (start_pos + 1 + Z.of_nat n + 1 - 1) - Z.to_nat (start_pos + 1))%nat
      with n by lia.
    split; [lia|].
    intros m. rewrite firstn_firstn. specialize (Hpos (Nat.min m n) ltac:(lia)). lia.
Qed.

(** In a balanced text every opening brace has its closing brace. *)
Lemma balanced_brace_closes (body : str) (i : Z) :
  balanced body -> 0 <= i ->
  getitem body i = Ok (ch "{") ->
  exists r, find_matching_brace body i = Ok r /\ i < r < len body.
Proof.
  intros [Hnet Hpre] Hi Hc.
  assert (Hin : i < len body).
  { unfold getitem in Hc. destruct (Z.ltb_spec i 0); [lia|].
    destruct (Z.leb_spec 0 i); [|lia].
    destruct (Z.ltb_spec i (len body)); [lia|discriminate]. }
  rewrite getitem_nth in Hc by lia. injection Hc as Hc.
  rewrite find_matching_brace_scan by lia. rewrite Hc.
  simpl negb. cbv iota.
  pose proof (scan_range (skipn (Z.to_nat (i + 1)) body) 1 (i + 1)) as [R1 R2].
  pose proof (scan_unfinished (skipn (Z.to_nat (i + 1)) body) 1 (i + 1) ltac:(lia))
    as U.
  destruct (scan (skipn (Z.to_nat (i + 1)) body) 1 (i + 1)) as [bc p].
  cbn [fst snd] in *.
  destruct (Z.eqb_spec bc 0) as [->|Hbc].
  - eexists. split; [reflexivity|].
    specialize (R2 ltac:(lia) eq_refl).
    revert R1. unfold len. rewrite length_skipn. lia.
  - exfalso. destruct (U Hbc) as [U1 U2].
    assert (E : net body
                = net (firstn (Z.to_nat i) body) + 1
                  + net (skipn (Z.to_nat (i + 1)) body)).
    { rewrite <- (firstn_skipn (Z.to_nat i) body) at 1.
      rewrite (skipn_nth body (Z.to_nat i)) by (unfold len in *; lia).
      rewrite net_app, net_cons, Hc.
      replace (S (Z.to_nat i)) with (Z.to_nat (i + 1)) by lia.
      unfold bump. change (ch "{" =? ch "{")%N with true. cbv iota. lia. }
    specialize (Hpre (Z.to_nat i)). lia.
Qed.

Lemma find_matching_brace_prefix (a t : str) (i : Z) :
  0 <= i ->
  exists r, find_matching_brace t i = Ok r
            /\ find_matching_brace (a ++ t) (len a + i)
               = Ok (shift_index (len a) r).
Proof.
  intros Hi. pose proof (len_nonneg a).
  destruct (Z.ltb_spec i (len t)) as [Hlt|Hge].
  - rewrite (find_matching_brace_scan t i) by lia.
    rewrite (find_matching_brace_scan (a ++ t) (len a + i))
      by (rewrite len_app; lia).
    eexists. split; [reflexivity|]. f_equal.
    replace (Z.to_nat (len a + i)) with (List.length a + Z.to_nat i)%nat
      by (unfold len; lia).
    rewrite app_nth2_plus.
    destruct (negb _); [reflexivity|].
    replace (Z.to_nat (len a + i + 1)) with (Z.to_nat (i + 1) + List.length a)%nat
      by (unfold len; lia).
    rewrite <- skipn_skipn, skipn_length_app.
    replace (len a + i + 1) with (len a + (i + 1)) by lia.
    rewrite scan_shift.
    pose proof (scan_range (skipn (Z.to_nat (i + 1)) t) 1 (i + 1)) as [R _].
    destruct (scan (skipn (Z.to_nat (i + 1)) t) 1 (i + 1)) as [bc q].
    cbn [fst snd] in *. unfold shift_index.
    destruct (bc =? 0); [|reflexivity].
    destruct (Z.eqb_spec (q - 1) (-1)); [lia|]. lia.
  - exists (-1). unfold find_matching_brace.
    destruct (Z.geb_spec i (len t)); [|lia].
    destruct (Z.geb_spec (len a + i) (len (a ++ t)));
      [auto | rewrite len_app in *; lia].
Qed.

Lemma find_matching_brace_suffix (text extra : str) (i r : Z) :
  0 <= i ->
  find_matching_brace text i = Ok r -> r <> -1 ->
  find_matching_brace (text ++ extra) i = Ok r.
Proof.
  intros Hi H Hr. pose proof (len_nonneg extra).
  destruct (Z.ltb_spec i (len text)) as [Hlt|Hge].
  2:{ unfold find_matching_brace in H.
      destruct (Z.geb_spec i (len text)); [|lia].
      injection H as <-. contradiction. }
  rewrite find_matching_brace_scan in H by lia.
  rewrite find_matching_brace_scan by (rewrite len_app; lia).
  rewrite app_nth1 by (unfold len in *; lia).
  destruct (negb _); [exact H|].
  rewrite skipn_app.
  replace (Z.to_nat (i + 1) - List.length text)%nat with 0%nat
    by (unfold len in *; lia).
  simpl skipn at 2.
  destruct (scan (skipn (Z.to_nat (i + 1)) text) 1 (i + 1)) as [bc q] eqn:E.
  destruct (Z.eqb_spec bc 0) as [->|]; [|injection H as <-; contradiction].
  rewrite scan_app_found by (now rewrite E). rewrite E. exact H.
Qed.

(** X1. For an index counted from the start, the matcher raises nothing
    and answers the not-found signal or an index behind the given one and
    inside the text. *)
Theorem matcher_answer_in_range (text : str) (start_pos : Z) :
  0 <= start_pos ->
  exists r, find_matching_brace text start_pos = Ok r
            /\ (r = -1 \/ start_pos < r < len text).
Proof. apply find_matching_brace_range. Qed.

Lemma matcher_answer_in_range_witness :
  exists r, find_matching_brace (s_ "a{b{c}}") 1 = Ok r
            /\ (r = -1 \/ 1 < r < len (s_ "a{b{c}}")).
Proof. apply (matcher_answer_in_range (s_ "a{b{c}}") 1). lia. Defined.

(** X2. A negative index that reaches before the start of the text makes
    the matcher raise [IndexError]: the guard of the first line stops only
    an index past the end. *)
Theorem matcher_raises_before_start (text : str) (start_pos : Z) :
  start_pos < - len text ->
  find_matching_brace text start_pos = IndexError.
Proof.
  intros H. pose proof (len_nonneg text). unfold find_matching_brace.
  destruct (Z.geb_spec start_pos (len text)); [lia|].
  unfold getitem. destruct (Z.ltb_spec start_pos 0); [|lia].
  destruct (Z.leb_spec 0 (start_pos + len text)); [lia|]. reflexivity.
Qed.

Lemma matcher_raises_before_start_witness :
  find_matching_brace (s_ "{}") (-3) = IndexError.
Proof. apply matcher_raises_before_start. vm_compute. reflexivity. Defined.

(** X3. What a found match tells: when the matcher, asked at an index
    counted from the start, answers an index, the given index holds an
    opening brace, the answer holds a closing brace behind it, and the text
    between the two is balanced. *)
Theorem matcher_found_is_group (text : str) (start_pos r : Z) :
  0 <= start_pos ->
  find_matching_brace text start_pos = Ok r -> r <> -1 ->
  start_pos < r < len text
  /\ getitem text start_pos = Ok (ch "{")
  /\ getitem text r = Ok (ch "}")
  /\ balanced (slice text (start_pos + 1) r).
Proof. apply find_matching_brace_found. Qed.

Lemma matcher_found_is_group_witness :
  1 < 6 < len (s_ "a{b{c}}")
  /\ getitem (s_ "a{b{c}}") 1 = Ok (ch "{")
  /\ getitem (s_ "a{b{c}}") 6 = Ok (ch "}")
  /\ balanced (slice (s_ "a{b{c}}") (1 + 1) 6).
Proof.
  apply (matcher_found_is_group (s_ "a{b{c}}") 1 6);
    [lia | reflexivity | discriminate].
Defined.

(** X4. The matcher on a group as it is written: at the opening brace of
    a balanced body in braces, whatever stands before and behind, it
    answers the index of the closing brace. *)
Theorem matcher_on_written_group (a body rest : str) :
  balanced body ->
  find_matching_brace (a ++ braced body ++ rest) (len a)
  = Ok (len a + len body + 1).
Proof.
  intros H. apply (find_matching_brace_at _ a body rest); [|exact H].
  unfold braced. cbn [app]. now rewrite <- app_assoc.
Qed.

Lemma matcher_on_written_group_witness :
  find_matching_brace (s_ "ab" ++ braced (s_ "x{y}z") ++ s_ "}}") (len (s_ "ab"))
  = Ok (len (s_ "ab") + len (s_ "x{y}z") + 1).
Proof.
  apply matcher_on_written_group. apply balanced_check. reflexivity.
Defined.

(** X5. In a balanced text every opening brace has its closing brace: the
    matcher finds it, inside the text. *)
Theorem matcher_closes_in_balanced (body : str) (i : Z) :
  balanced body -> 0 <= i ->
  getitem body i = Ok (ch "{") ->
  exists r, find_matching_brace body i = Ok r /\ i < r < len body.
Proof. apply balanced_brace_closes. Qed.

Lemma matcher_closes_in_balanced_witness :
  exists r, find_matching_brace (s_ "a{b}{c{d}}") 4 = Ok r
            /\ 4 < r < len (s_ "a{b}{c{d}}").
Proof.
  apply matcher_closes_in_balanced;
    [apply balanced_check; reflexivity | lia | reflexivity].
Defined.

(** X6. The matcher looks forward only: with more text in front, asked at
    the index moved by the length of that text, it gives the same answer,
    moved likewise. *)
Theorem matcher_ignores_text_before (a t : str) (i : Z) :
  0 <= i ->
  exists r, find_matching_brace t i = Ok r
            /\ find_matching_brace (a ++ t) (len a + i)
               = Ok (shift_index (len a) r).
Proof. apply find_matching_brace_prefix. Qed.

Lemma matcher_ignores_text_before_witness :
  exists r, find_matching_brace (s_ "{x}") 0 = Ok r
            /\ find_matching_brace (s_ "}{" ++ s_ "{x}") (len (s_ "}{") + 0)
               = Ok (shift_index (len (s_ "}{")) r).
Proof. apply matcher_ignores_text_before. lia. Defined.

(** X7. A match that is found stays: text added behind the text does not
    change the answer. *)
Theorem matcher_ignores_text_behind_match (text extra : str) (i r : Z) :
  0 <= i ->
  find_matching_brace text i = Ok r -> r <> -1 ->
  find_matching_brace (text ++ extra) i = Ok r.
Proof. apply find_matching_brace_suffix. Qed.

Lemma matcher_ignores_text_behind_match_witness :
  find_matching_brace (s_ "{x}" ++ s_ "}}{") 0 = Ok 2.
Proof.
  apply matcher_ignores_text_behind_match; [lia | reflexivity | discriminate].
Defined.

End BraceMatcherMore.

(* ================================================================== *)
(** * More on the normalizer *)
(* ================================================================== *)

Section NormalizerMore.

(** How [re.sub] is shown to keep a relation between a text and what it
    makes of it: on the empty text, on a copied character, and on a match
    replaced. *)
Lemma sub_relates (r : regex) (repl : list titem) (P : str -> str -> Prop) :
  (forall w g, matches r w g -> w <> []) ->
  P [] [] ->
  (forall c s t, P s t -> P (c :: s) (c :: t)) ->
  (forall w g s t, matches r w g -> P s t -> P (w ++ s) (expand repl g ++ t)) ->
  forall s, P s (sub r repl s).
Proof.
  intros Hne Hnil Hcopy Hmatch s.
  remember (List.length s) as n eqn:En. revert s En.
  induction n as [n IH] using lt_wf_ind. intros s En.
  destruct (match_here r false s) as [[k g]|] eqn:E.
  - pose proof E as E'.
    apply match_here_sound in E' as (w & s' & -> & M & -> & _).
    pose proof (Hne w g M) as Hw.
    destruct (List.length w) as [|k] eqn:Ek; [destruct w; [contradiction|discriminate]|].
    rewrite (sub_match _ _ _ _ _ E). rewrite <- Ek, skipn_length_app.
    apply Hmatch; [exact M|].
    apply (IH (List.length s')); [|reflexivity].
    subst n. rewrite length_app. lia.
  - destruct s as [|c s].
    + now rewrite (sub_nil r repl).
    + rewrite (sub_skip r repl) by assumption. apply Hcopy.
      apply (IH (List.length s)); [subst n; simpl; lia | reflexivity].
Qed.

Lemma shrinking_nonempty (r : regex) (repl : list titem) :
  shrinking r repl -> forall w g, matches r w g -> w <> [].
Proof. intros H w g M. now destruct (H w g M). Qed.

Lemma sub_length (r : regex) (repl : list titem) (s : str) :
  shrinking r repl -> (List.length (sub r repl s) <= List.length s)%nat.
Proof.
  intros H.
  apply (sub_relates r repl (fun s t => (List.length t <= List.length s)%nat));
    [exact (shrinking_nonempty r repl H) | auto | simpl; lia |].
  intros w g s' t M Ht. destruct (H w g M) as (_ & _ & Hl).
  rewrite !length_app. lia.
Qed.

Lemma sub_nonempty (r : regex) (repl : list titem) (s : str) :
  shrinking r repl -> s <> [] -> sub r repl s <> [].
Proof.
  intros H.
  apply (sub_relates r repl (fun s t => s <> [] -> t <> []));
    [exact (shrinking_nonempty r repl H) | auto | discriminate |].
  intros w g s' t M _ _. destruct (H w g M) as (_ & He & _).
  destruct (expand repl g); [contradiction|discriminate].
Qed.

Lemma sub_plain (r : regex) (repl : list titem) (s : str) :
  shrinking r repl -> slashed r -> ~ In (ch "\") s -> sub r repl s = s.
Proof.
  intros H Hs.
  apply (sub_relates r repl (fun s t => ~ In (ch "\") s -> t = s));
    [exact (shrinking_nonempty r repl H) | auto | |].
  - intros c s' t IH Hc. f_equal. apply IH. intros Hin. apply Hc. now right.
  - intros w g s' t M _ Hc. exfalso. apply Hc. apply in_or_app. left.
    now apply (Hs w g).
Qed.

Lemma shrinking_spaces : shrinking re_spaces [T (s_ " ")].
Proof.
  intros w g M. unfold re_spaces in M. inv_matches.
  repeat split; auto; [discriminate|].
  destruct w; [contradiction|]. simpl. lia.
Qed.

Lemma shrinking_markup (command opening closing : str) :
  opening <> [] ->
  (List.length opening + List.length closing <= List.length command + 1)%nat ->
  shrinking (markup command) [T opening; G 1; T closing].
Proof.
  intros Ho Hl w g M. apply matches_markup in M as (arg & -> & Hne & _ & ->).
  cbn [expand flat_map lookup Nat.eqb]. rewrite app_nil_r.
  repeat split.
  - destruct command; [|discriminate]. destruct arg; [contradiction|discriminate].
  - destruct opening; [contradiction|discriminate].
  - rewrite !length_app. change (List.length (s_ "}")) with 1%nat. lia.
Qed.

Lemma shrinking_lit (l t : str) :
  l <> [] -> t <> [] -> (List.length t <= List.length l)%nat ->
  shrinking (Lit l) [T t].
Proof.
  intros Hl Ht Hle w g M. apply matches_lit in M as [-> ->].
  cbn [expand flat_map]. rewrite app_nil_r. auto.
Qed.

Lemma shrinking_command : shrinking re_command [G 1].
Proof.
  intros w g M. unfold re_command in M. inv_matches.
  change (expand [G 1] ([(1%nat, w2)] ++ [])) with (w2 ++ []).
  rewrite app_nil_r. repeat split; auto; [discriminate|].
  rewrite length_app. lia.
Qed.

Lemma slashed_markup (command : str) :
  In (ch "\") command -> slashed (markup command).
Proof.
  intros H w g M. apply matches_markup in M as (arg & -> & _).
  apply in_or_app. now left.
Qed.

Lemma slashed_lit (l : str) : In (ch "\") l -> slashed (Lit l).
Proof. intros H w g M. now apply matches_lit in M as [-> _]. Qed.

Lemma slashed_command : slashed re_command.
Proof.
  intros w g M. unfold re_command in M. inv_matches. now left.
Qed.

Lemma lstrip_split (s : str) :
  exists ws, s = ws ++ lstrip s /\ forallb isspace ws = true.
Proof.
  induction s as [|c s (ws & E & H)]; simpl; [now exists []|].
  destruct (isspace c) eqn:Hc; [|now exists []].
  exists (c :: ws). simpl. rewrite Hc, H. split; [now f_equal|reflexivity].
Qed.

Lemma forallb_rev (f : char -> bool) (s : str) :
  forallb f (rev s) = forallb f s.
Proof.
  induction s as [|c s IH]; [reflexivity|].
  simpl. rewrite forallb_app, IH. simpl. rewrite andb_true_r. apply andb_comm.
Qed.

Lemma rstrip_split (s : str) :
  exists ws, s = rstrip s ++ ws /\ forallb isspace ws = true.
Proof.
  unfold rstrip. destruct (lstrip_split (rev s)) as (ws & E & H).
  exists (rev ws). rewrite forallb_rev. split; [|exact H].
  rewrite <- rev_app_distr, <- E. symmetry. apply rev_involutive.
Qed.

Lemma strip_split (s : str) :
  exists ws1 ws2,
    s = ws1 ++ strip s ++ ws2
    /\ forallb isspace ws1 = true /\ forallb isspace ws2 = true.
Proof.
  destruct (lstrip_split s) as (ws1 & E1 & H1).
  destruct (rstrip_split (lstrip s)) as (ws2 & E2 & H2).
  exists ws1, ws2. unfold strip. now rewrite <- E2.
Qed.

Lemma lstrip_blank (s : str) : forallb isspace s = true -> lstrip s = [].
Proof.
  induction s as [|c s IH]; [reflexivity|]. simpl.
  intros H. apply andb_true_iff in H as [Hc H]. rewrite Hc. auto.
Qed.

(** [strip] leaves nothing exactly of a text that is all white space. *)
Lemma strip_blank (s : str) : strip s = [] <-> forallb isspace s = true.
Proof.
  split.
  - intros E. destruct (strip_split s) as (ws1 & ws2 & Es & H1 & H2).
    rewrite Es, E, !forallb_app, H1, H2. reflexivity.
  - intros H. unfold strip. now rewrite (lstrip_blank s H).
Qed.

Lemma strip_length (s : str) : (List.length (strip s) <= List.length s)%nat.
Proof.
  destruct (strip_split s) as (ws1 & ws2 & E & _).
  rewrite E at 2. rewrite !length_app. lia.
Qed.

Lemma strip_plain (s : str) : ~ In (ch "\") s -> ~ In (ch "\") (strip s).
Proof.
  intros H Hin. apply H.
  destruct (strip_split s) as (ws1 & ws2 & E & _). rewrite E.
  apply in_or_app. right. apply in_or_app. now left.
Qed.

(** The last [strip] of the normalizer finds nothing to trim: the
    normalizer is its first [strip] followed by its substitutions. *)
Lemma clean_latex_text_steps (text : str) :
  clean_latex_text text = substitutions (strip text).
Proof.
  unfold clean_latex_text, substitutions. destruct text as [|c text].
  { reflexivity. }
  simpl negb. cbv iota.
  destruct (strip_clean (c :: text)) as [Hs He].
  destruct (walk_collapse _ (strip (c :: text)) AtStart (Nat.le_refl _) He
                          (or_intror (conj eq_refl Hs))) as (st & W & Hst).
  apply (sub_walk re_textbf [T (s_ "<b>"); G 1; T (s_ "</b>")]) in W;
    [|apply (keeps_walk_markup (s_ "\textbf{")); now apply word_literal].
  apply (sub_walk re_emph [T (s_ "<i>"); G 1; T (s_ "</i>")]) in W;
    [|apply (keeps_walk_markup (s_ "\emph{")); now apply word_literal].
  apply (sub_walk re_dots [T (s_ "...")]) in W;
    [|apply keeps_walk_lit; now apply word_literal].
  apply (sub_walk re_ldots [T (s_ "...")]) in W;
    [|apply keeps_walk_lit; now apply word_literal].
  apply (sub_walk re_command [G 1]) in W; [|exact keeps_walk_command].
  destruct (walk_clean _ _ W Hst) as [H1 H2].
  apply strip_id; assumption.
Qed.

Lemma shrinking_textbf : shrinking re_textbf [T (s_ "<b>"); G 1; T (s_ "</b>")].
Proof. apply (shrinking_markup (s_ "\textbf{")); [discriminate | simpl; lia]. Qed.

Lemma shrinking_emph : shrinking re_emph [T (s_ "<i>"); G 1; T (s_ "</i>")].
Proof. apply (shrinking_markup (s_ "\emph{")); [discriminate | simpl; lia]. Qed.

Lemma shrinking_dots : shrinking re_dots [T (s_ "...")].
Proof. apply shrinking_lit; [discriminate | discriminate | simpl; lia]. Qed.

Lemma shrinking_ldots : shrinking re_ldots [T (s_ "...")].
Proof. apply shrinking_lit; [discriminate | discriminate | simpl; lia]. Qed.

Lemma substitutions_length (s : str) :
  (List.length (substitutions s) <= List.length s)%nat.
Proof.
  unfold substitutions.
  pose proof (sub_length re_spaces [T (s_ " ")] s shrinking_spaces).
  pose proof (sub_length _ _ (sub re_spaces [T (s_ " ")] s) shrinking_textbf).
  pose proof (sub_length _ _
                (sub re_textbf [T (s_ "<b>"); G 1; T (s_ "</b>")]
                     (sub re_spaces [T (s_ " ")] s)) shrinking_emph).
  pose proof (sub_length _ _
                (sub re_emph [T (s_ "<i>"); G 1; T (s_ "</i>")]
                   (sub re_textbf [T (s_ "<b>"); G 1; T (s_ "</b>")]
                        (sub re_spaces [T (s_ " ")] s))) shrinking_dots).
  pose proof (sub_length _ _
                (sub re_dots [T (s_ "...")]
                   (sub re_emph [T (s_ "<i>"); G 1; T (s_ "</i>")]
                      (sub re_textbf [T (s_ "<b>"); G 1; T (s_ "</b>")]
                           (sub re_spaces [T (s_ " ")] s)))) shrinking_ldots).
  pose proof (sub_length _ _
                (sub re_ldots [T (s_ "...")]
                   (sub re_dots [T (s_ "...")]
                      (sub re_emph [T (s_ "<i>"); G 1; T (s_ "</i>")]
                         (sub re_textbf [T (s_ "<b>"); G 1; T (s_ "</b>")]
                              (sub re_spaces [T (s_ " ")] s))))) shrinking_command).
  lia.
Qed.

Lemma substitutions_nonempty (s : str) : s <> [] -> substitutions s <> [].
Proof.
  intros H. unfold substitutions.
  apply sub_nonempty; [exact shrinking_command|].
  apply sub_nonempty; [exact shrinking_ldots|].
  apply sub_nonempty; [exact shrinking_dots|].
  apply sub_nonempty; [exact shrinking_emph|].
  apply sub_nonempty; [exact shrinking_textbf|].
  apply sub_nonempty; [exact shrinking_spaces | exact H].
Qed.

(** The normalizer leaves nothing exactly of a text that is all white
    space. *)
Lemma clean_latex_text_blank (text : str) :
  clean_latex_text text = [] <-> forallb isspace text = true.
Proof.
  rewrite clean_latex_text_steps, <- strip_blank. split.
  - intros H. destruct (strip text) as [|c s] eqn:E; [reflexivity|].
    exfalso. now apply (substitutions_nonempty (c :: s)).
  - now intros ->.
Qed.

Lemma sub_spaces_plain (s : str) :
  ~ In (ch "\") s -> ~ In (ch "\") (sub re_spaces [T (s_ " ")] s).
Proof.
  apply (sub_relates re_spaces [T (s_ " ")]
           (fun s t => ~ In (ch "\") s -> ~ In (ch "\") t)).
  - exact (shrinking_nonempty _ _ shrinking_spaces).
  - auto.
  - intros c s' t IH H [E|Hin]; [apply H; now left|].
    apply IH; [|exact Hin]. intros Hs. apply H. now right.
  - intros w g s' t M IH H Hin. unfold re_spaces in M. inv_matches.
    cbn [expand flat_map app] in Hin. destruct Hin as [E|Hin]; [discriminate E|].
    apply IH; [|exact Hin]. intros Hs. apply H. apply in_or_app. now right.
Qed.

(** On a text without backslash the substitutions behind the first find
    nothing to replace. *)
Lemma substitutions_plain (s : str) :
  ~ In (ch "\") s -> substitutions s = sub re_spaces [T (s_ " ")] s.
Proof.
  intros H. apply sub_spaces_plain in H. unfold substitutions.
  rewrite (sub_plain re_textbf) by
    (auto using shrinking_textbf; apply (slashed_markup (s_ "\textbf{")); now left).
  rewrite (sub_plain re_emph) by
    (auto using shrinking_emph; apply (slashed_markup (s_ "\emph{")); now left).
  rewrite (sub_plain re_dots) by
    (auto using shrinking_dots; apply slashed_lit; now left).
  rewrite (sub_plain re_ldots) by
    (auto using shrinking_ldots; apply slashed_lit; now left).
  now rewrite (sub_plain re_command) by
    (auto using shrinking_command, slashed_command).
Qed.

(** The first substitution changes nothing in a text whose white space is
    single blanks between other characters. *)
Lemma sub_spaces_walk (s : str) :
  forall st st',
    walk st s = Some st' -> st' <> AfterSpace ->
    sub re_spaces [T (s_ " ")] s = s.
Proof.
  induction s as [|c s IH]; intros st st' W Hst; [reflexivity|].
  simpl in W. destruct (wstep st c) as [st1|] eqn:Hc; [|discriminate].
  destruct (isspace c) eqn:Hs.
  - destruct (wstep_space _ _ _ Hs Hc) as (-> & -> & ->).
    destruct s as [|d s]; [simpl in W; congruence|].
    assert (Hd : isspace d = false).
    { simpl in W. destruct (isspace d) eqn:Hd; [|reflexivity].
      unfold wstep in W. rewrite Hd in W. now destruct (d =? ch " ")%N. }
    change (ch " " :: d :: s) with ([ch " "] ++ d :: s).
    rewrite sub_spaces_match; [|discriminate|reflexivity|exact Hd].
    cbn [expand flat_map app]. change (s_ " " ++ []) with [ch " "].
    cbn [app]. f_equal. now apply (IH AfterSpace st').
  - rewrite sub_spaces_skip by assumption. f_equal.
    now apply (IH st1 st').
Qed.

Lemma tidy_walk_from (s : str) :
  forall st,
    (forall c, In c s -> isspace c = true -> c = ch " ") ->
    (forall a b c d, s = a ++ c :: d :: b ->
                     isspace c = true -> isspace d = true -> False) ->
    (forall c t, s = c :: t -> isspace c = true -> st = AfterOther) ->
    exists st',
      walk st s = Some st'
      /\ (st' = AfterSpace ->
          (s = [] /\ st = AfterSpace)
          \/ exists t c, s = t ++ [c] /\ isspace c = true).
Proof.
  induction s as [|x s IH]; intros st H1 H2 H3.
  - exists st. split; [reflexivity|]. auto.
  - assert (H1' : forall c, In c s -> isspace c = true -> c = ch " ")
      by (intros c Hc; apply H1; now right).
    assert (H2' : forall a b c d, s = a ++ c :: d :: b ->
                                  isspace c = true -> isspace d = true -> False)
      by (intros a b c d ->; apply (H2 (x :: a) b c d); reflexivity).
    simpl. destruct (isspace x) eqn:Hx.
    + pose proof (H1 x (or_introl eq_refl) Hx) as ->.
      pose proof (H3 _ _ eq_refl Hx) as ->.
      unfold wstep. rewrite Hx, N.eqb_refl.
      destruct (IH AfterSpace H1' H2') as (st' & W & E).
      { intros c t -> Hc. exfalso. apply (H2 [] t (ch " ") c eq_refl Hx Hc). }
      exists st'. split; [exact W|]. intros Hst. right.
      destruct (E Hst) as [[-> _] | (t & c & -> & Hc)].
      * exists [], (ch " "). auto.
      * exists (ch " " :: t), c. auto.
    + rewrite (wstep_other _ _ Hx).
      destruct (IH AfterOther H1' H2') as (st' & W & E); [auto|].
      exists st'. split; [exact W|]. intros Hst. right.
      destruct (E Hst) as [[_ Habs] | (t & c & -> & Hc)]; [discriminate|].
      exists (x :: t), c. auto.
Qed.

(** A tidy text is one the reader goes through. *)
Lemma tidy_walk (s : str) :
  tidy s -> exists st, walk AtStart s = Some st /\ st <> AfterSpace.
Proof.
  intros (H1 & H2 & H3 & H4).
  destruct (tidy_walk_from s AtStart H1 H2) as (st & W & E).
  { intros c t E Hc. rewrite (H3 c t E) in Hc. discriminate. }
  exists st. split; [exact W|]. intros Hst.
  destruct (E Hst) as [[_ Habs] | (t & c & Es & Hc)]; [discriminate|].
  rewrite (H4 c t Es) in Hc. discriminate.
Qed.

(** X8. The normalizer returns the empty string exactly for a text that
    is empty or all white space: whatever else a text holds, something of
    it is left. *)
Theorem normalizer_empty_iff_blank (text : str) :
  clean_latex_text text = [] <-> forallb isspace text = true.
Proof. apply clean_latex_text_blank. Qed.

(** X9. The normalizer never makes a text longer: trimming and collapsing
    white space shorten it, and each markup, dots or command replaced is
    replaced by a text that is not longer. *)
Theorem normalizer_never_longer (text : str) :
  len (clean_latex_text text) <= len text.
Proof.
  rewrite clean_latex_text_steps. unfold len.
  pose proof (substitutions_length (strip text)).
  pose proof (strip_length text). lia.
Qed.

(** X10. On a text without backslash the normalizer only trims the text
    and replaces each run of white space by one blank. *)
Theorem normalizer_plain_text (text : str) :
  ~ In (ch "\") text ->
  clean_latex_text text = sub re_spaces [T (s_ " ")] (strip text).
Proof.
  intros H. rewrite clean_latex_text_steps.
  apply substitutions_plain. now apply strip_plain.
Qed.

Lemma normalizer_plain_text_witness :
  clean_latex_text (s_ "  a {b}   c ")
  = sub re_spaces [T (s_ " ")] (strip (s_ "  a {b}   c ")).
Proof.
  apply normalizer_plain_text. simpl. intuition discriminate.
Defined.

(** X11. A tidy text without backslash is returned as it is: normalizing
    such a text again changes nothing. *)
Theorem normalizer_fixed_point (text : str) :
  tidy text -> ~ In (ch "\") text -> clean_latex_text text = text.
Proof.
  intros Ht Hs. destruct (tidy_walk text Ht) as (st & W & Hst).
  destruct (walk_clean _ _ W Hst) as [H1 H2].
  rewrite clean_latex_text_steps, strip_id by assumption.
  rewrite substitutions_plain by assumption.
  now apply (sub_spaces_walk text AtStart st).
Qed.

Lemma normalizer_fixed_point_witness :
  clean_latex_text (s_ "<b>Hi</b> a... b") = s_ "<b>Hi</b> a... b".
Proof.
  apply normalizer_fixed_point.
  - apply (walk_tidy _ AfterOther); [reflexivity | discriminate].
  - simpl. intuition discriminate.
Defined.

End NormalizerMore.

(* ================================================================== *)
(** * More on the extractors *)
(* ================================================================== *)

Section ExtractorsMore.

Ltac lookup_step tex from b e Hb He Hg Hr :=
  destruct (brace_group_cases tex from)
    as [[Hb Hg] | [(b & Hb & ? & He & Hg) | (b & e & Hb & ? & He & ? & Hr & ? & Hg)]];
  rewrite ?Hg;
  [ rewrite Hb; reflexivity
  | rewrite Hb;
    match goal with H : (b =? -1) = false |- _ => rewrite H end;
    rewrite He; reflexivity
  | rewrite Hb;
    match goal with H : (b =? -1) = false |- _ => rewrite H end;
    rewrite He; simpl bind;
    match goal with H : (e =? -1) = false |- _ => rewrite H end ].

(** The turn of the glossary loop, its lookups read as brace groups. *)
Lemma glossary_turn_occurrence (tex_content : str) (pos : Z) :
  glossary_turn tex_content pos = glossary_occurrence tex_content pos.
Proof.
  unfold glossary_turn, glossary_occurrence.
  destruct (search re_newglossaryentry _) as [m|]; [|reflexivity].
  cbv zeta.
  lookup_step tex_content (pos + m_start m) b1 e1 Hb1 He1 Hg1 Hr1.
  simpl snd.
  lookup_step tex_content (e1 + 1) b2 e2 Hb2 He2 Hg2 Hr2.
  unfold group_text. simpl fst. simpl snd.
  destruct (parse_description _); simpl; try reflexivity.
  do 2 f_equal. lia.
Qed.

Lemma brace_group_in_range (tex_content : str) (from : Z) g :
  brace_group tex_content from = Some g ->
  0 <= fst g < snd g /\ snd g < len tex_content.
Proof.
  intros H.
  destruct (brace_group_cases tex_content from)
    as [[_ Hg] | [(b & _ & _ & _ & Hg) | (b & e & _ & _ & _ & _ & Hr & Hl & Hg)]];
    rewrite Hg in H; try discriminate.
  injection H as <-. simpl. lia.
Qed.

Lemma clamp_shift (a t : str) (p : Z) :
  0 <= p -> clamp (a ++ t) (len a + p) = (List.length a + clamp t p)%nat.
Proof.
  intros H. unfold clamp. rewrite len_app. pose proof (len_nonneg a).
  destruct (Z.ltb_spec (len a + p) 0); [lia|].
  destruct (Z.ltb_spec p 0); [lia|]. unfold len. lia.
Qed.

Lemma skipn_plus_app (a t : str) (n : nat) :
  skipn (List.length a + n) (a ++ t) = skipn n t.
Proof.
  rewrite Nat.add_comm, <- skipn_skipn. now rewrite skipn_length_app.
Qed.

Lemma slice_from_shift (a t : str) (p : Z) :
  0 <= p -> slice_from (a ++ t) (len a + p) = slice_from t p.
Proof.
  intros H. unfold slice_from. rewrite clamp_shift by assumption.
  apply skipn_plus_app.
Qed.

Lemma slice_shift (a t : str) (x y : Z) :
  0 <= x -> 0 <= y -> slice (a ++ t) (len a + x) (len a + y) = slice t x y.
Proof.
  intros Hx Hy. unfold slice. rewrite !clamp_shift by assumption.
  rewrite skipn_plus_app. f_equal. lia.
Qed.

Lemma index_from_shift (c : char) (s : str) (k : Z) :
  forall i, 0 <= i ->
            index_from c s (k + i) = shift_index k (index_from c s i).
Proof.
  induction s as [|x s IH]; intros i Hi; simpl; [reflexivity|].
  destruct (x =? c)%N.
  - unfold shift_index. destruct (Z.eqb_spec i (-1)); [lia|reflexivity].
  - rewrite <- IH by lia. f_equal. lia.
Qed.

Lemma find_shift (a t : str) (c : char) (x : Z) :
  0 <= x -> find (a ++ t) c (len a + x) = shift_index (len a) (find t c x).
Proof.
  intros H. unfold find. rewrite slice_from_shift, clamp_shift by assumption.
  rewrite Nat2Z.inj_add. apply index_from_shift. lia.
Qed.

Lemma brace_group_shift (a t : str) (from from' : Z) :
  0 <= from -> from' = len a + from ->
  brace_group (a ++ t) from' = option_map (shift_group (len a)) (brace_group t from).
Proof.
  intros H ->. pose proof (len_nonneg a). unfold brace_group. cbv zeta.
  rewrite find_shift by assumption.
  destruct (find_nonneg t (ch "{") from) as [->|Hf]; [reflexivity|].
  replace (shift_index (len a) (find t (ch "{") from))
    with (len a + find t (ch "{") from)
    by (unfold shift_index;
        destruct (Z.eqb_spec (find t (ch "{") from) (-1)); [lia|reflexivity]).
  destruct (Z.eqb_spec (find t (ch "{") from) (-1)); [lia|].
  destruct (Z.eqb_spec (len a + find t (ch "{") from) (-1)); [lia|].
  destruct (find_matching_brace_prefix a t (find t (ch "{") from))
    as (r & E1 & ->); [lia|].
  destruct (find_matching_brace_range t (find t (ch "{") from))
    as (r' & E & Hr); [lia|].
  rewrite E1 in E. injection E as <-. rewrite E1.
  unfold shift_index. simpl bind.
  destruct (Z.eqb_spec r (-1)) as [->|Hr']; [reflexivity|].
  destruct (Z.eqb_spec (len a + r) (-1)); [lia|reflexivity].
Qed.

(** ** Entries are never empty *)

Lemma strip_strip (s : str) : strip (strip s) = strip s.
Proof. destruct (strip_clean s). apply strip_id; assumption. Qed.

Lemma clean_latex_text_stripped (s : str) :
  strip s = s -> s <> [] -> clean_latex_text s <> [].
Proof.
  intros E H C. apply clean_latex_text_blank, strip_blank in C. congruence.
Qed.

Lemma parse_name_stripped (params n : str) :
  parse_name params = Some n -> strip n = n.
Proof.
  unfold parse_name. destruct (search re_name params) as [m|]; [|discriminate].
  cbv zeta.
  destruct (match group m 1 with Some g => Some g | None => group m 2 end)
    as [x|]; [|discriminate].
  destruct x as [|c x]; simpl truthy; cbv iota; intros [= <-];
    [reflexivity | apply strip_strip].
Qed.

Lemma parse_description_stripped (params d : str) :
  parse_description params = Ok (Some d) -> strip d = d.
Proof.
  unfold parse_description.
  destruct (search re_description params) as [m|]; [|discriminate].
  cbv zeta. destruct (find_matching_brace params (m_end m - 1)) as [e| |];
    simpl; try discriminate.
  destruct (negb (e =? -1)); intros [= <-]. apply strip_strip.
Qed.

Lemma glossary_emit_filled (key : str) (name description : option str) :
  strip key = key ->
  (forall n, name = Some n -> strip n = n) ->
  (forall d, description = Some d -> strip d = d) ->
  Forall filled (glossary_emit key name description).
Proof.
  intros Hk Hn Hd. unfold glossary_emit. cbv zeta.
  assert (Hn' : forall n,
             (if negb (truthy_opt name) then Some key else name) = Some n ->
             strip n = n).
  { intros n. destruct (negb (truthy_opt name)); [now intros [= <-] | apply Hn]. }
  destruct (if negb (truthy_opt name) then Some key else name) as [n|];
    [|constructor].
  destruct description as [d|]; [|constructor].
  destruct n as [|c n]; [constructor|]. destruct d as [|c' d]; constructor;
    [|constructor].
  split; simpl; apply clean_latex_text_stripped; auto; discriminate.
Qed.

Lemma acronym_emit_filled (short_form long_form : str) :
  Forall filled (acronym_emit short_form long_form).
Proof.
  unfold acronym_emit. cbv zeta.
  destruct (clean_latex_text short_form) as [|c s]; [constructor|].
  destruct (clean_latex_text long_form) as [|c' l]; constructor; [|constructor].
  split; discriminate.
Qed.

Lemma glossary_turn_filled tex_content pos pos' appended :
  glossary_turn tex_content pos = Ok (Continue pos' appended) ->
  Forall filled appended.
Proof.
  rewrite glossary_turn_occurrence. unfold glossary_occurrence.
  destruct (search re_newglossaryentry _) as [m|]; [|discriminate].
  cbv zeta.
  destruct (brace_group tex_content (pos + m_start m)) as [key|];
    [|intros [= _ <-]; constructor].
  destruct (brace_group tex_content (snd key + 1)) as [block|];
    [|intros [= _ <-]; constructor].
  destruct (parse_description _) as [d| |] eqn:D; simpl; try discriminate.
  intros [= _ <-]. apply glossary_emit_filled.
  - apply strip_strip.
  - apply parse_name_stripped.
  - intros x ->. apply (parse_description_stripped _ _ D).
Qed.

Lemma acronym_turn_filled tex_content pos pos' appended :
  acronym_turn tex_content pos = Ok (Continue pos' appended) ->
  Forall filled appended.
Proof.
  rewrite acronym_turn_occurrence. unfold acronym_occurrence.
  destruct (search re_newacronym _) as [m|]; [|discriminate].
  cbv zeta.
  destruct (brace_group tex_content (pos + m_start m)) as [key|];
    [|intros [= _ <-]; constructor].
  destruct (brace_group tex_content (snd key + 1)) as [short|];
    [|intros [= _ <-]; constructor].
  destruct (brace_group tex_content (snd short + 1)) as [long|];
    [|intros [= _ <-]; constructor].
  intros [= _ <-].
  destruct (clean_latex_text (group_text tex_content short)) as [|c s];
    [constructor|].
  destruct (clean_latex_text (group_text tex_content long)) as [|c' l];
    constructor; [|constructor].
  split; discriminate.
Qed.

Lemma scan_trace_forall (P : entry -> Prop)
      (body : str -> Z -> result turn) tex_content :
  (forall pos pos' appended,
      body tex_content pos = Ok (Continue pos' appended) ->
      Forall P appended) ->
  forall pos l, scan_trace body tex_content pos l -> Forall P l.
Proof.
  intros Hbody pos l T. induction T; [constructor|].
  apply Forall_app. eauto.
Qed.

(** X12. Whatever the text, every entry the three parsers return has a
    name and a description that are not empty: a card is never blank on
    one side, also when the normalizer has removed markup from the
    field. *)
Theorem entries_never_empty (tex_content : str) :
  exists l, parse_all_entries tex_content = Ok l /\ Forall filled l.
Proof.
  destruct (parse_glossary_entries_total tex_content) as (g & Eg & Tg).
  destruct (parse_acronym_entries_total tex_content) as (a & Ea & Ta).
  exists (g ++ a). unfold parse_all_entries. rewrite Eg, Ea. split; [reflexivity|].
  apply Forall_app. split.
  - apply (scan_trace_forall filled glossary_turn tex_content
             (glossary_turn_filled tex_content) 0 g Tg).
  - apply (scan_trace_forall filled acronym_turn tex_content
             (acronym_turn_filled tex_content) 0 a Ta).
Qed.

(** ** A text without the command *)

Lemma match_here_lit (l s : str) :
  match_here (Lit l) false s
  = match strip_prefix l s with
    | Some _ => Some (List.length l, [])
    | None => None
    end.
Proof.
  unfold match_here. cbn [run]. destruct (strip_prefix l s); reflexivity.
Qed.

Lemma search_from_absent (l s : str) :
  forall i, occurs l s = false -> search_from (Lit l) s i = None.
Proof.
  induction s as [|c s IH]; intros i H; simpl in H |- *;
    rewrite match_here_lit.
  - destruct (strip_prefix l []); [discriminate|reflexivity].
  - destruct (strip_prefix l (c :: s)); [discriminate|]. now apply IH.
Qed.

Lemma occurs_skipn (l s : str) (n : nat) :
  occurs l s = false -> l <> [] -> occurs l (skipn n s) = false.
Proof.
  intros H Hl. revert s H. induction n as [|n IH]; intros s H; [exact H|].
  destruct s as [|c s]; [exact H|]. simpl skipn. apply IH.
  simpl in H. destruct (strip_prefix l (c :: s)); [discriminate|exact H].
Qed.

Lemma scan_loop_absent (command : str) (body : str -> Z -> result turn)
      (tex_content : str) :
  (forall pos, search (Lit command) (slice_from tex_content pos) = None ->
               body tex_content pos = Ok Break) ->
  command <> [] ->
  occurs command tex_content = false ->
  scan_loop body (S (List.length tex_content)) tex_content 0 [] = Ok [].
Proof.
  intros Hbody Hc H. simpl. rewrite Hbody; [reflexivity|].
  apply search_from_absent. unfold slice_from. now apply occurs_skipn.
Qed.

Lemma glossary_turn_break (tex_content : str) (pos : Z) :
  search re_newglossaryentry (slice_from tex_content pos) = None ->
  glossary_turn tex_content pos = Ok Break.
Proof. unfold glossary_turn. now intros ->. Qed.

Lemma acronym_turn_break (tex_content : str) (pos : Z) :
  search re_newacronym (slice_from tex_content pos) = None ->
  acronym_turn tex_content pos = Ok Break.
Proof. unfold acronym_turn. now intros ->. Qed.

Lemma parse_glossary_entries_absent (tex_content : str) :
  occurs (s_ "\newglossaryentry") tex_content = false ->
  parse_glossary_entries tex_content = Ok [].
Proof.
  apply (scan_loop_absent (s_ "\newglossaryentry") glossary_turn);
    [apply glossary_turn_break | discriminate].
Qed.

Lemma parse_acronym_entries_absent (tex_content : str) :
  occurs (s_ "\newacronym") tex_content = false ->
  parse_acronym_entries tex_content = Ok [].
Proof.
  apply (scan_loop_absent (s_ "\newacronym") acronym_turn);
    [apply acronym_turn_break | discriminate].
Qed.

(** X13. A text in which [\newglossaryentry] does not occur gives no
    glossary entries, whatever else it holds, and the combined parser then
    returns the acronym entries alone. *)
Theorem glossary_needs_command (tex_content : str) :
  occurs (s_ "\newglossaryentry") tex_content = false ->
  parse_glossary_entries tex_content = Ok []
  /\ parse_all_entries tex_content = parse_acronym_entries tex_content.
Proof.
  intros H. apply parse_glossary_entries_absent in H.
  split; [exact H|]. unfold parse_all_entries. rewrite H. simpl.
  destruct (parse_acronym_entries tex_content); reflexivity.
Qed.

Lemma glossary_needs_command_witness :
  occurs (s_ "\newglossaryentry") (s_ "\newglossary{k}{name={N}} \newacronym{a}{b}{c}")
  = false
  /\ parse_glossary_entries (s_ "\newglossary{k}{name={N}} \newacronym{a}{b}{c}")
     = Ok []
  /\ parse_all_entries (s_ "\newglossary{k}{name={N}} \newacronym{a}{b}{c}")
     = parse_acronym_entries (s_ "\newglossary{k}{name={N}} \newacronym{a}{b}{c}").
Proof.
  split; [reflexivity|].
  apply (glossary_needs_command
           (s_ "\newglossary{k}{name={N}} \newacronym{a}{b}{c}")).
  reflexivity.
Defined.

(** X14. A text in which [\newacronym] does not occur gives no acronym
    entries, and the combined parser then returns the glossary entries
    alone. *)
Theorem acronym_needs_command (tex_content : str) :
  occurs (s_ "\newacronym") tex_content = false ->
  parse_acronym_entries tex_content = Ok []
  /\ parse_all_entries tex_content = parse_glossary_entries tex_content.
Proof.
  intros H. apply parse_acronym_entries_absent in H.
  split; [exact H|]. unfold parse_all_entries. rewrite H.
  destruct (parse_glossary_entries tex_content); simpl;
    [now rewrite app_nil_r | reflexivity | reflexivity].
Qed.

Lemma acronym_needs_command_witness :
  occurs (s_ "\newacronym") (s_ "\acronym{a}{b}{c}\newglossaryentry{k}{description={D}}")
  = false
  /\ parse_acronym_entries
       (s_ "\acronym{a}{b}{c}\newglossaryentry{k}{description={D}}") = Ok []
  /\ parse_all_entries (s_ "\acronym{a}{b}{c}\newglossaryentry{k}{description={D}}")
     = parse_glossary_entries
         (s_ "\acronym{a}{b}{c}\newglossaryentry{k}{description={D}}").
Proof.
  split; [reflexivity|].
  apply (acronym_needs_command
           (s_ "\acronym{a}{b}{c}\newglossaryentry{k}{description={D}}")).
  reflexivity.
Defined.

(** ** The description of a located parameter block *)

Lemma getitem_at (a b : str) (c : char) : getitem (a ++ c :: b) (len a) = Ok c.
Proof.
  pose proof (len_nonneg a). pose proof (len_nonneg b).
  rewrite getitem_nth by (rewrite len_app, len_cons; lia).
  unfold len. rewrite Nat2Z.id, app_nth2, Nat.sub_diag by lia. reflexivity.
Qed.

Lemma description_marker_brace (params : str) (m : Match) :
  search re_description params = Some m ->
  1 <= m_end m /\ getitem params (m_end m - 1) = Ok (ch "{").
Proof.
  intros H.
  apply search_from_sound in H as (pre & w & post & -> & M & Hs & He & _).
  apply matches_description in M as (ws1 & ws2 & -> & _ & _).
  change (s_ "{") with [ch "{"] in *. rewrite He, Hs.
  set (w0 := s_ "description" ++ ws1 ++ s_ "=" ++ ws2).
  replace (pre ++ (s_ "description" ++ ws1 ++ s_ "=" ++ ws2 ++ [ch "{"]) ++ post)
    with ((pre ++ w0) ++ ch "{" :: post)
    by (unfold w0; now rewrite <- !app_assoc).
  replace (s_ "description" ++ ws1 ++ s_ "=" ++ ws2 ++ [ch "{"])
    with (w0 ++ [ch "{"]) by (unfold w0; now rewrite <- !app_assoc).
  pose proof (len_nonneg pre). pose proof (len_nonneg w0).
  replace (Z.of_nat (0 + List.length pre) + len (w0 ++ [ch "{"]) - 1)
    with (len (pre ++ w0))
    by (rewrite !len_app; unfold len; simpl List.length; lia).
  split; [|apply getitem_at].
  rewrite len_app. unfold len at 2. simpl List.length. lia.
Qed.

Lemma parse_description_balanced (params : str) (m : Match) :
  balanced params ->
  search re_description params = Some m ->
  exists desc_end,
    find_matching_brace params (m_end m - 1) = Ok desc_end
    /\ m_end m - 1 < desc_end < len params
    /\ parse_description params
       = Ok (Some (strip (slice params (m_end m) desc_end))).
Proof.
  intros B H. destruct (description_marker_brace params m H) as [H1 Hc].
  destruct (balanced_brace_closes params (m_end m - 1) B ltac:(lia) Hc)
    as (r & E & Hr).
  exists r. split; [exact E|]. split; [exact Hr|].
  unfold parse_description. rewrite H. cbv zeta. rewrite E. simpl bind.
  destruct (Z.eqb_spec r (-1)); [lia|]. simpl negb. cbv iota.
  replace (m_end m - 1 + 1) with (m_end m) by lia. reflexivity.
Qed.

Lemma brace_group_balanced (tex_content : str) (from : Z) (g : Z * Z) :
  brace_group tex_content from = Some g ->
  balanced (slice tex_content (fst g + 1) (snd g)).
Proof.
  intros H. pose proof (brace_group_in_range tex_content from g H) as R.
  destruct g as [b e]. apply brace_group_some in H as (_ & _ & E & He).
  simpl in *.
  apply (find_matching_brace_found tex_content b e); [lia | exact E |].
  intros ->. discriminate.
Qed.

(** X15. In a brace group the extractors located, a description marker
    [description = {] always has its closing brace inside the group: the
    description is read up to that brace and trimmed, and the case of a
    marker without closing brace, which the program guards against, does
    not arise. *)
Theorem located_block_has_description
        (tex_content : str) (from : Z) (g : Z * Z) (m : Match) :
  brace_group tex_content from = Some g ->
  search re_description (slice tex_content (fst g + 1) (snd g)) = Some m ->
  exists desc_end,
    find_matching_brace (slice tex_content (fst g + 1) (snd g)) (m_end m - 1)
    = Ok desc_end
    /\ m_end m - 1 < desc_end < len (slice tex_content (fst g + 1) (snd g))
    /\ parse_description (slice tex_content (fst g + 1) (snd g))
       = Ok (Some (strip (slice (slice tex_content (fst g + 1) (snd g))
                                (m_end m) desc_end))).
Proof.
  intros G H. apply parse_description_balanced; [|exact H].
  exact (brace_group_balanced tex_content from g G).
Qed.

Lemma located_block_has_description_witness :
  brace_group (s_ "\newglossaryentry{k}{description = { {D} }, x={}}") 20
  = Some (20, 48)
  /\ search re_description
       (slice (s_ "\newglossaryentry{k}{description = { {D} }, x={}}") 21 48)
     = Some {| m_start := 0; m_end := 15; m_groups := [] |}
  /\ exists desc_end,
      find_matching_brace
        (slice (s_ "\newglossaryentry{k}{description = { {D} }, x={}}") 21 48) 14
      = Ok desc_end
      /\ 14 < desc_end
         < len (slice (s_ "\newglossaryentry{k}{description = { {D} }, x={}}") 21 48)
      /\ parse_description
           (slice (s_ "\newglossaryentry{k}{description = { {D} }, x={}}") 21 48)
         = Ok (Some (strip (slice
                  (slice (s_ "\newglossaryentry{k}{description = { {D} }, x={}}") 21 48)
                  15 desc_end))).
Proof.
  split; [reflexivity|]. split; [reflexivity|].
  apply (located_block_has_description
           (s_ "\newglossaryentry{k}{description = { {D} }, x={}}") 20 (20, 48)
           {| m_start := 0; m_end := 15; m_groups := [] |});
    reflexivity.
Defined.

(** ** The extractors look forward only *)

Lemma group_text_shift (a t : str) (g : Z * Z) :
  0 <= fst g -> 0 <= snd g ->
  group_text (a ++ t) (shift_group (len a) g) = group_text t g.
Proof.
  intros H1 H2. unfold group_text, shift_group. simpl fst. simpl snd.
  replace (len a + fst g + 1) with (len a + (fst g + 1)) by lia.
  now rewrite slice_shift by lia.
Qed.

Lemma brace_group_behind (a t : str) (g : Z * Z) :
  0 <= snd g ->
  brace_group (a ++ t) (snd (shift_group (len a) g) + 1)
  = option_map (shift_group (len a)) (brace_group t (snd g + 1)).
Proof.
  intros H. apply brace_group_shift; [lia|]. unfold shift_group. simpl. lia.
Qed.

Lemma acronym_turn_shift (a t : str) (p : Z) :
  0 <= p ->
  acronym_turn (a ++ t) (len a + p) = shift_turn (len a) (acronym_turn t p).
Proof.
  intros Hp. rewrite !acronym_turn_occurrence. unfold acronym_occurrence.
  rewrite slice_from_shift by assumption.
  destruct (search re_newacronym (slice_from t p)) as [m|] eqn:S; [|reflexivity].
  assert (Hm : 0 <= m_start m)
    by (apply (search_slice_range (s_ "\newacronym") t p m); [discriminate|assumption..]).
  cbv zeta.
  rewrite (brace_group_shift a t (p + m_start m)) by lia.
  destruct (brace_group t (p + m_start m)) as [key|] eqn:G1; simpl option_map;
    cbv iota; [|simpl; do 2 f_equal; lia].
  pose proof (brace_group_in_range _ _ _ G1) as R1.
  rewrite brace_group_behind by lia.
  destruct (brace_group t (snd key + 1)) as [short|] eqn:G2; simpl option_map;
    cbv iota; [|simpl; do 2 f_equal; lia].
  pose proof (brace_group_in_range _ _ _ G2) as R2.
  rewrite brace_group_behind by lia.
  destruct (brace_group t (snd short + 1)) as [long|] eqn:G3; simpl option_map;
    cbv iota; [|simpl; do 2 f_equal; lia].
  pose proof (brace_group_in_range _ _ _ G3) as R3.
  rewrite !group_text_shift by lia.
  simpl. do 2 f_equal. lia.
Qed.

Lemma glossary_turn_shift (a t : str) (p : Z) :
  0 <= p ->
  glossary_turn (a ++ t) (len a + p) = shift_turn (len a) (glossary_turn t p).
Proof.
  intros Hp. rewrite !glossary_turn_occurrence. unfold glossary_occurrence.
  rewrite slice_from_shift by assumption.
  destruct (search re_newglossaryentry (slice_from t p)) as [m|] eqn:S;
    [|reflexivity].
  assert (Hm : 0 <= m_start m)
    by (apply (search_slice_range (s_ "\newglossaryentry") t p m);
        [discriminate|assumption..]).
  cbv zeta.
  rewrite (brace_group_shift a t (p + m_start m)) by lia.
  destruct (brace_group t (p + m_start m)) as [key|] eqn:G1; simpl option_map;
    cbv iota; [|simpl; do 2 f_equal; lia].
  pose proof (brace_group_in_range _ _ _ G1) as R1.
  rewrite brace_group_behind by lia.
  destruct (brace_group t (snd key + 1)) as [block|] eqn:G2; simpl option_map;
    cbv iota; [|simpl; do 2 f_equal; lia].
  pose proof (brace_group_in_range _ _ _ G2) as R2.
  rewrite group_text_shift by lia.
  unfold shift_group at 1 2. simpl fst. simpl snd.
  replace (len a + fst block + 1) with (len a + (fst block + 1)) by lia.
  rewrite slice_shift by lia.
  destruct (parse_description _) as [d| |]; simpl; try reflexivity.
  do 2 f_equal. unfold shift_group. simpl. lia.
Qed.

Lemma search_from_offset (r : regex) (s : str) :
  forall i,
    search_from r s i
    = option_map (offset_match (Z.of_nat i)) (search_from r s 0).
Proof.
  assert (Hit : forall i n g,
             Some {| m_start := Z.of_nat i; m_end := Z.of_nat (i + n);
                     m_groups := g |}
             = option_map (offset_match (Z.of_nat i))
                 (Some {| m_start := Z.of_nat 0; m_end := Z.of_nat (0 + n);
                          m_groups := g |})).
  { intros i n g. unfold offset_match. cbn [option_map m_start m_end m_groups].
    do 2 f_equal; lia. }
  induction s as [|c s IH]; intros i; cbn [search_from];
    destruct (match_here r false _) as [[n g]|]; try apply Hit;
    [reflexivity|].
  rewrite (IH (S i)), (IH 1%nat).
  destruct (search_from r s 0) as [m|]; [|reflexivity].
  unfold offset_match. cbn [option_map m_start m_end m_groups].
  rewrite Nat2Z.inj_succ. f_equal. f_equal; lia.
Qed.

Lemma search_from_skip (l : str) :
  forall junk rest i,
    starts_within l (junk ++ rest) (List.length junk) = false ->
    search_from (Lit l) (junk ++ rest) i
    = search_from (Lit l) rest (i + List.length junk).
Proof.
  induction junk as [|c junk IH]; intros rest i H.
  - simpl. now rewrite Nat.add_0_r.
  - simpl in H. simpl app. simpl search_from. rewrite match_here_lit.
    destruct (strip_prefix l (c :: junk ++ rest)); [discriminate|].
    rewrite (IH rest (S i) H). f_equal. simpl. lia.
Qed.

Lemma search_skip (l junk rest : str) :
  starts_within l (junk ++ rest) (List.length junk) = false ->
  search (Lit l) (junk ++ rest)
  = option_map (offset_match (len junk)) (search (Lit l) rest).
Proof.
  intros H. unfold search. rewrite (search_from_skip l junk rest 0 H).
  apply search_from_offset.
Qed.

Lemma slice_from_zero (text : str) : slice_from text 0 = text.
Proof.
  unfold slice_from. rewrite clamp_id by (pose proof (len_nonneg text); lia).
  reflexivity.
Qed.

Lemma glossary_turn_skip (junk rest : str) :
  starts_within (s_ "\newglossaryentry") (junk ++ rest) (List.length junk) = false ->
  glossary_turn (junk ++ rest) 0 = glossary_turn (junk ++ rest) (len junk).
Proof.
  intros H. unfold glossary_turn.
  rewrite slice_from_zero, slice_from_at.
  unfold re_newglossaryentry. rewrite (search_skip _ junk rest H).
  destruct (search (Lit (s_ "\newglossaryentry")) rest) as [m|]; reflexivity.
Qed.

Lemma acronym_turn_skip (junk rest : str) :
  starts_within (s_ "\newacronym") (junk ++ rest) (List.length junk) = false ->
  acronym_turn (junk ++ rest) 0 = acronym_turn (junk ++ rest) (len junk).
Proof.
  intros H. unfold acronym_turn.
  rewrite slice_from_zero, slice_from_at.
  unfold re_newacronym. rewrite (search_skip _ junk rest H).
  destruct (search (Lit (s_ "\newacronym")) rest) as [m|]; reflexivity.
Qed.

Lemma glossary_turn_forward : forward_only (s_ "\newglossaryentry") glossary_turn.
Proof. split; [exact glossary_turn_shift | exact glossary_turn_skip]. Qed.

Lemma acronym_turn_forward : forward_only (s_ "\newacronym") acronym_turn.
Proof. split; [exact acronym_turn_shift | exact acronym_turn_skip]. Qed.

(** ** Runs of a scanning loop *)

Lemma scan_trace_fun (body : str -> Z -> result turn) (tex_content : str) :
  forall pos l1, scan_trace body tex_content pos l1 ->
  forall l2, scan_trace body tex_content pos l2 -> l1 = l2.
Proof.
  intros pos l1 T1. induction T1 as [pos E|pos pos' appended rest E Hlt T1 IH];
    intros l2 T2; inversion T2 as [q E'|q q' appended' rest' E' Hlt' T2']; subst.
  - reflexivity.
  - congruence.
  - congruence.
  - rewrite E in E'. injection E' as <- <-. f_equal. now apply IH.
Qed.

Lemma scan_loop_of_trace (body : str -> Z -> result turn) (tex_content : str) l :
  progresses body ->
  scan_trace body tex_content 0 l ->
  scan_loop body (S (List.length tex_content)) tex_content 0 [] = Ok l.
Proof.
  intros Hbody T.
  destruct (scan_loop_total body Hbody (S (List.length tex_content))
                            tex_content 0 [])
    as (l' & E & T'); [lia | unfold len; lia |].
  rewrite E. simpl. f_equal. exact (scan_trace_fun body tex_content 0 l' T' l T).
Qed.

Lemma scan_trace_of_loop (body : str -> Z -> result turn) (tex_content : str) l :
  progresses body ->
  scan_loop body (S (List.length tex_content)) tex_content 0 [] = Ok l ->
  scan_trace body tex_content 0 l.
Proof.
  intros Hbody E.
  destruct (scan_loop_total body Hbody (S (List.length tex_content))
                            tex_content 0 [])
    as (l' & E' & T'); [lia | unfold len; lia |].
  rewrite E in E'. injection E' as ->. exact T'.
Qed.

Lemma scan_trace_shift (body : str -> Z -> result turn) (a t : str) :
  (forall p, 0 <= p ->
             body (a ++ t) (len a + p) = shift_turn (len a) (body t p)) ->
  forall p l, scan_trace body t p l -> 0 <= p ->
              scan_trace body (a ++ t) (len a + p) l.
Proof.
  intros Hbody p l T.
  induction T as [pos E|pos pos' appended rest E Hlt T IH]; intros Hp.
  - apply trace_break. rewrite Hbody, E by assumption. reflexivity.
  - apply (trace_continue body (a ++ t) (len a + pos) (len a + pos'));
      [|lia|apply IH; lia].
    rewrite Hbody, E by assumption. reflexivity.
Qed.

Lemma scan_trace_skip (body : str -> Z -> result turn) (tex_content : str)
      (k : Z) l :
  body tex_content 0 = body tex_content k -> 0 <= k ->
  scan_trace body tex_content k l -> scan_trace body tex_content 0 l.
Proof.
  intros E Hk T. inversion T as [q E'|q q' appended rest E' Hlt T']; subst.
  - apply trace_break. congruence.
  - apply (trace_continue body tex_content 0 q'); [congruence|lia|exact T'].
Qed.

Lemma scan_loop_skip (command : str) (body : str -> Z -> result turn)
      (junk rest : str) :
  forward_only command body -> progresses body ->
  starts_within command (junk ++ rest) (List.length junk) = false ->
  scan_loop body (S (List.length (junk ++ rest))) (junk ++ rest) 0 []
  = scan_loop body (S (List.length rest)) rest 0 [].
Proof.
  intros [Hshift Hskip] Hbody H.
  destruct (scan_loop_total body Hbody (S (List.length rest)) rest 0 [])
    as (l & E & T); [lia | unfold len; lia |].
  rewrite E. apply scan_loop_of_trace; [exact Hbody|].
  apply (scan_trace_skip body (junk ++ rest) (len junk));
    [now apply Hskip | apply len_nonneg |].
  rewrite <- (Z.add_0_r (len junk)).
  apply scan_trace_shift; [intros; now apply Hshift | exact T | lia].
Qed.

Lemma scan_loop_sequence (command : str) (body : str -> Z -> result turn)
      (front post : str) (appended l : list entry) :
  forward_only command body -> progresses body ->
  body (front ++ post) 0 = Ok (Continue (len front) appended) ->
  0 < len front ->
  scan_loop body (S (List.length post)) post 0 [] = Ok l ->
  scan_loop body (S (List.length (front ++ post))) (front ++ post) 0 []
  = Ok (appended ++ l).
Proof.
  intros [Hshift _] Hbody E Hfront El.
  apply scan_loop_of_trace; [exact Hbody|].
  apply (trace_continue body (front ++ post) 0 (len front)); [exact E|lia|].
  rewrite <- (Z.add_0_r (len front)).
  apply scan_trace_shift; [intros; now apply Hshift | | lia].
  now apply scan_trace_of_loop.
Qed.

Lemma parse_glossary_entries_skip (junk rest : str) :
  starts_within (s_ "\newglossaryentry") (junk ++ rest) (List.length junk) = false ->
  parse_glossary_entries (junk ++ rest) = parse_glossary_entries rest.
Proof.
  apply (scan_loop_skip (s_ "\newglossaryentry") glossary_turn);
    [exact glossary_turn_forward | exact glossary_turn_progresses].
Qed.

Lemma parse_acronym_entries_skip (junk rest : str) :
  starts_within (s_ "\newacronym") (junk ++ rest) (List.length junk) = false ->
  parse_acronym_entries (junk ++ rest) = parse_acronym_entries rest.
Proof.
  apply (scan_loop_skip (s_ "\newacronym") acronym_turn);
    [exact acronym_turn_forward | exact acronym_turn_progresses].
Qed.

(** X16. Text in front of the first command is ignored. When neither
    [\newglossaryentry] nor [\newacronym] starts inside the first part of a
    text, that part can be dropped: the three parsers return the same
    entries, whatever braces, names or descriptions the part holds. *)
Theorem text_before_first_command_ignored (junk rest : str) :
  starts_within (s_ "\newglossaryentry") (junk ++ rest) (List.length junk) = false ->
  starts_within (s_ "\newacronym") (junk ++ rest) (List.length junk) = false ->
  parse_glossary_entries (junk ++ rest) = parse_glossary_entries rest
  /\ parse_acronym_entries (junk ++ rest) = parse_acronym_entries rest
  /\ parse_all_entries (junk ++ rest) = parse_all_entries rest.
Proof.
  intros Hg Ha.
  pose proof (parse_glossary_entries_skip junk rest Hg) as Eg.
  pose proof (parse_acronym_entries_skip junk rest Ha) as Ea.
  split; [exact Eg|]. split; [exact Ea|].
  unfold parse_all_entries. now rewrite Eg, Ea.
Qed.

Lemma text_before_first_command_ignored_witness :
  parse_glossary_entries
    (s_ "{name={N}, description={D}} \newglossary "
        ++ s_ "\newglossaryentry{k}{description={E}}\newacronym{a}{b}{c}")
  = parse_glossary_entries
      (s_ "\newglossaryentry{k}{description={E}}\newacronym{a}{b}{c}")
  /\ parse_acronym_entries
       (s_ "{name={N}, description={D}} \newglossary "
           ++ s_ "\newglossaryentry{k}{description={E}}\newacronym{a}{b}{c}")
     = parse_acronym_entries
         (s_ "\newglossaryentry{k}{description={E}}\newacronym{a}{b}{c}")
  /\ parse_all_entries
       (s_ "{name={N}, description={D}} \newglossary "
           ++ s_ "\newglossaryentry{k}{description={E}}\newacronym{a}{b}{c}")
     = parse_all_entries
         (s_ "\newglossaryentry{k}{description={E}}\newacronym{a}{b}{c}").
Proof.
  apply (text_before_first_command_ignored
           (s_ "{name={N}, description={D}} \newglossary ")
           (s_ "\newglossaryentry{k}{description={E}}\newacronym{a}{b}{c}"));
    reflexivity.
Defined.

Lemma parse_glossary_entries_sequence
        (junk g1 key g2 params post : str)
        (description : option str) (l : list entry) :
  starts_within (s_ "\newglossaryentry")
    (junk ++ s_ "\newglossaryentry" ++ g1 ++ braced key ++ g2
          ++ braced params ++ post)
    (List.length junk) = false ->
  ~ In (ch "{") g1 -> ~ In (ch "{") g2 -> balanced key -> balanced params ->
  parse_description params = Ok description ->
  parse_glossary_entries post = Ok l ->
  parse_glossary_entries
    (junk ++ s_ "\newglossaryentry" ++ g1 ++ braced key ++ g2
          ++ braced params ++ post)
  = Ok (glossary_emit (strip key) (parse_name params) description ++ l).
Proof.
  intros Hj H1 H2 Bk Bp D El.
  pose proof (glossary_turn_skip junk _ Hj) as E0.
  rewrite (glossary_turn_written junk g1 key g2 params post H1 H2 Bk Bp), D
    in E0.
  simpl bind in E0.
  set (front := junk ++ s_ "\newglossaryentry" ++ g1 ++ braced key ++ g2
                     ++ braced params) in *.
  assert (Et : junk ++ s_ "\newglossaryentry" ++ g1 ++ braced key ++ g2
                    ++ braced params ++ post = front ++ post)
    by (unfold front; now rewrite <- !app_assoc).
  rewrite Et in *.
  apply (scan_loop_sequence (s_ "\newglossaryentry") glossary_turn);
    [exact glossary_turn_forward | exact glossary_turn_progresses
     | exact E0 | | exact El].
  unfold front. rewrite !len_app.
  pose proof (len_nonneg junk). pose proof (len_nonneg g1).
  pose proof (len_nonneg (braced key)). pose proof (len_nonneg g2).
  pose proof (len_nonneg (braced params)).
  change (len (s_ "\newglossaryentry")) with 17. lia.
Qed.

(** X17. Glossary entries one behind the other. A text that is, behind
    text without the command, a glossary command written in full (the
    command, a key in braces, a parameter block in braces, no opening brace
    in the gaps, braces balanced inside) followed by more text gives the
    entries of that command, followed by the entries of the text behind it
    parsed on its own. *)
Theorem glossary_entries_in_sequence
        (junk g1 key g2 params post : str)
        (description : option str) (l : list entry) :
  starts_within (s_ "\newglossaryentry")
    (junk ++ s_ "\newglossaryentry" ++ g1 ++ braced key ++ g2
          ++ braced params ++ post)
    (List.length junk) = false ->
  ~ In (ch "{") g1 -> ~ In (ch "{") g2 -> balanced key -> balanced params ->
  parse_description params = Ok description ->
  parse_glossary_entries post = Ok l ->
  parse_glossary_entries
    (junk ++ s_ "\newglossaryentry" ++ g1 ++ braced key ++ g2
          ++ braced params ++ post)
  = Ok (glossary_emit (strip key) (parse_name params) description ++ l).
Proof. exact (parse_glossary_entries_sequence junk g1 key g2 params post description l). Qed.

Lemma glossary_entries_in_sequence_witness :
  parse_glossary_entries
    (s_ "% terms " ++ s_ "\newglossaryentry" ++ [] ++ braced (s_ "cpu")
        ++ s_ " " ++ braced (s_ "name={CPU}, description={a {fast} chip}")
        ++ s_ " \newglossaryentry{ram}{description={memory}}")
  = Ok (glossary_emit (strip (s_ "cpu"))
          (parse_name (s_ "name={CPU}, description={a {fast} chip}"))
          (Some (s_ "a {fast} chip"))
        ++ [mk "ram" "memory"]).
Proof.
  apply (glossary_entries_in_sequence
           (s_ "% terms ") [] (s_ "cpu") (s_ " ")
           (s_ "name={CPU}, description={a {fast} chip}")
           (s_ " \newglossaryentry{ram}{description={memory}}")).
  - reflexivity.
  - intros [].
  - simpl. intuition discriminate.
  - apply balanced_check. reflexivity.
  - apply balanced_check. reflexivity.
  - reflexivity.
  - reflexivity.
Defined.

Lemma parse_acronym_entries_sequence
        (junk g1 key g2 short g3 long post : str) (l : list entry) :
  starts_within (s_ "\newacronym")
    (junk ++ s_ "\newacronym" ++ g1 ++ braced key ++ g2 ++ braced short
          ++ g3 ++ braced long ++ post)
    (List.length junk) = false ->
  ~ In (ch "{") g1 -> ~ In (ch "{") g2 -> ~ In (ch "{") g3 ->
  balanced key -> balanced short -> balanced long ->
  parse_acronym_entries post = Ok l ->
  parse_acronym_entries
    (junk ++ s_ "\newacronym" ++ g1 ++ braced key ++ g2 ++ braced short
          ++ g3 ++ braced long ++ post)
  = Ok (acronym_emit (strip short) (strip long) ++ l).
Proof.
  intros Hj H1 H2 H3 Bk Bs Bl El.
  pose proof (acronym_turn_skip junk _ Hj) as E0.
  rewrite (acronym_turn_written junk g1 key g2 short g3 long post
             H1 H2 H3 Bk Bs Bl) in E0.
  set (front := junk ++ s_ "\newacronym" ++ g1 ++ braced key ++ g2
                     ++ braced short ++ g3 ++ braced long) in *.
  assert (Et : junk ++ s_ "\newacronym" ++ g1 ++ braced key ++ g2
                    ++ braced short ++ g3 ++ braced long ++ post
               = front ++ post)
    by (unfold front; now rewrite <- !app_assoc).
  rewrite Et in *.
  apply (scan_loop_sequence (s_ "\newacronym") acronym_turn);
    [exact acronym_turn_forward | exact acronym_turn_progresses
     | exact E0 | | exact El].
  unfold front. rewrite !len_app.
  pose proof (len_nonneg junk). pose proof (len_nonneg g1).
  pose proof (len_nonneg (braced key)). pose proof (len_nonneg g2).
  pose proof (len_nonneg (braced short)). pose proof (len_nonneg g3).
  pose proof (len_nonneg (braced long)).
  change (len (s_ "\newacronym")) with 11. lia.
Qed.

(** X18. Acronyms one behind the other. A text that is, behind text
    without the command, an acronym command written in full (the command
    and three groups in braces: key, short form, long form) followed by
    more text gives the entry of that command, if it has one, followed by
    the entries of the text behind it parsed on its own. *)
Theorem acronym_entries_in_sequence
        (junk g1 key g2 short g3 long post : str) (l : list entry) :
  starts_within (s_ "\newacronym")
    (junk ++ s_ "\newacronym" ++ g1 ++ braced key ++ g2 ++ braced short
          ++ g3 ++ braced long ++ post)
    (List.length junk) = false ->
  ~ In (ch "{") g1 -> ~ In (ch "{") g2 -> ~ In (ch "{") g3 ->
  balanced key -> balanced short -> balanced long ->
  parse_acronym_entries post = Ok l ->
  parse_acronym_entries
    (junk ++ s_ "\newacronym" ++ g1 ++ braced key ++ g2 ++ braced short
          ++ g3 ++ braced long ++ post)
  = Ok (acronym_emit (strip short) (strip long) ++ l).
Proof. exact (parse_acronym_entries_sequence junk g1 key g2 short g3 long post l). Qed.

Lemma acronym_entries_in_sequence_witness :
  parse_acronym_entries
    (s_ "% short forms " ++ s_ "\newacronym" ++ [] ++ braced (s_ "cpu")
        ++ [] ++ braced (s_ "CPU") ++ s_ " "
        ++ braced (s_ "Central {P}rocessing Unit")
        ++ s_ " \newacronym{ram}{RAM}{Random Access Memory}")
  = Ok (acronym_emit (strip (s_ "CPU")) (strip (s_ "Central {P}rocessing Unit"))
        ++ [mk "RAM" "Random Access Memory"]).
Proof.
  apply (acronym_entries_in_sequence
           (s_ "% short forms ") [] (s_ "cpu") [] (s_ "CPU") (s_ " ")
           (s_ "Central {P}rocessing Unit")
           (s_ " \newacronym{ram}{RAM}{Random Access Memory}")).
  - reflexivity.
  - intros [].
  - intros [].
  - simpl. intuition discriminate.
  - apply balanced_check. reflexivity.
  - apply balanced_check. reflexivity.
  - apply balanced_check. reflexivity.
  - reflexivity.
Defined.

End ExtractorsMore.

(* ================================================================== *)
(** * More on the record writer *)
(* ================================================================== *)

Section WriterMore.
Import Csv.

Lemma count_absent (c : char) (s : str) : ~ In c s -> count c s = 0.
Proof.
  intros H. unfold count.
  now rewrite (proj1 (count_occ_not_In N.eq_dec s c) H).
Qed.

Lemma count_double_quotes (c : char) (f : str) :
  c <> quotechar -> count c (double_quotes f) = count c f.
Proof.
  intros Hc. induction f as [|x f IH]; [reflexivity|].
  unfold double_quotes in *. cbn [flat_map]. rewrite count_app, IH, count_cons.
  f_equal. destruct (N.eqb_spec x quotechar) as [->|Hx].
  - rewrite !count_cons, count_nil.
    destruct (N.eqb_spec quotechar c); [congruence|reflexivity].
  - rewrite count_cons, count_nil. lia.
Qed.

Lemma count_field (c : char) (f : str) :
  c <> quotechar -> count c (field f) = count c f.
Proof.
  intros Hc. unfold field. destruct (existsb special f); [|reflexivity].
  rewrite count_cons, count_app, count_double_quotes, count_cons, count_nil
    by assumption.
  destruct (N.eqb_spec quotechar c); [congruence|lia].
Qed.

Lemma count_writerow (c : char) (a b : str) :
  c <> quotechar -> c <> delimiter ->
  count c (writerow [a; b]) = count c a + count c b + count c lineterminator.
Proof.
  intros Hq Hd.
  assert (E : writerow [a; b]
              = field a ++ delimiter :: field b ++ lineterminator).
  { unfold writerow. destruct a; simpl join; rewrite <- ?app_assoc;
      reflexivity. }
  rewrite E, count_app, count_cons, count_app, !count_field by assumption.
  destruct (N.eqb_spec delimiter c); [congruence|lia].
Qed.

Lemma tidy_one_line (s : str) : tidy s -> ~ In cr s /\ ~ In lf s.
Proof.
  intros (H & _). split; intros Hin; apply H in Hin; try reflexivity;
    discriminate.
Qed.

Lemma write_anki_csv_lines (entries : list entry) :
  Forall one_line entries ->
  count lf (write_anki_csv entries) = Z.of_nat (List.length entries)
  /\ count cr (write_anki_csv entries) = Z.of_nat (List.length entries).
Proof.
  unfold write_anki_csv.
  induction 1 as [|e entries [[Hn1 Hn2] [Hd1 Hd2]] _ [IH1 IH2]];
    [split; reflexivity|].
  cbn [flat_map List.length]. rewrite Nat2Z.inj_succ, !count_app, IH1, IH2.
  rewrite !count_writerow by discriminate.
  rewrite (count_absent lf (name e)), (count_absent lf (description e)),
    (count_absent cr (name e)), (count_absent cr (description e))
    by assumption.
  unfold lineterminator. rewrite !count_cons, !count_nil.
  change (cr =? lf)%N with false. change (lf =? cr)%N with false.
  rewrite !N.eqb_refl. split; lia.
Qed.

Lemma normalized_one_line (e : entry) : normalized e -> one_line e.
Proof.
  intros (a & b & Ha & Hb). unfold one_line. rewrite Ha, Hb.
  split; apply tidy_one_line, clean_latex_text_tidy.
Qed.

Lemma parse_all_entries_one_line (tex_content : str) :
  exists l, parse_all_entries tex_content = Ok l /\ Forall one_line l.
Proof.
  destruct (parse_glossary_entries_total tex_content) as (g & Eg & Tg).
  destruct (parse_acronym_entries_total tex_content) as (a & Ea & Ta).
  exists (g ++ a). unfold parse_all_entries. rewrite Eg, Ea. split; [reflexivity|].
  apply Forall_impl with (P := normalized); [exact normalized_one_line|].
  apply Forall_app. split.
  - apply (scan_trace_normalized glossary_turn tex_content
             (glossary_turn_normalized tex_content) 0 g Tg).
  - apply (scan_trace_normalized acronym_turn tex_content
             (acronym_turn_normalized tex_content) 0 a Ta).
Qed.

(** X19. One line per card. Whatever the text, the file written for the
    entries parsed from it holds as many line feeds, and as many carriage
    returns, as there are entries: every record ends with the line
    terminator and no field holds a line break, so no record runs over
    two lines. *)
Theorem one_line_per_entry (tex_content : str) :
  exists l,
    parse_all_entries tex_content = Ok l
    /\ count lf (write_anki_csv l) = Z.of_nat (List.length l)
    /\ count cr (write_anki_csv l) = Z.of_nat (List.length l).
Proof.
  destruct (parse_all_entries_one_line tex_content) as (l & E & H).
  exists l. split; [exact E|]. now apply write_anki_csv_lines.
Qed.

End WriterMore.

(* ================================================================== *)
(** * The name and the description of a parameter block *)
(* ================================================================== *)

Section FieldsMore.

Lemma strip_prefix_refl (l s : str) : strip_prefix l (l ++ s) = Some s.
Proof. now apply strip_prefix_app. Qed.

Lemma starts_within_skipn (l : str) :
  forall n s k,
    starts_within l s n = false -> (k < n)%nat ->
    strip_prefix l (skipn k s) = None.
Proof.
  induction n as [|n IH]; intros s k H Hk; [lia|].
  cbn [starts_within] in H. destruct (strip_prefix l s) eqn:E; [discriminate|].
  destruct k as [|k]; [exact E|].
  destruct s as [|c s]; [exact E|].
  simpl skipn. apply IH; [exact H|lia].
Qed.

Lemma no_match_before (r : regex) (l a rest : str) :
  (forall w g, matches r w g -> exists w', w = l ++ w') ->
  starts_within l (a ++ rest) (List.length a) = false ->
  forall k, (k < List.length a)%nat -> no_match_here r (skipn k (a ++ rest)).
Proof.
  intros Hb H k Hk w s' g E M. destruct (Hb w g M) as (w' & ->).
  pose proof (starts_within_skipn l _ _ k H Hk) as N.
  rewrite E, <- app_assoc, strip_prefix_refl in N. discriminate.
Qed.

Lemma search_written (r : regex) (l a rest : str) (n : nat) (g : groups) :
  (forall w g, matches r w g -> exists w', w = l ++ w') ->
  starts_within l (a ++ rest) (List.length a) = false ->
  match_here r false rest = Some (n, g) ->
  search r (a ++ rest)
  = Some {| m_start := len a; m_end := len a + Z.of_nat n; m_groups := g |}.
Proof.
  intros Hb H M. unfold search.
  rewrite (search_from_first r a rest 0 n g (no_match_before r l a rest Hb H) M).
  unfold len. do 2 f_equal; lia.
Qed.

Lemma matches_name_begins (w : str) (g : groups) :
  matches re_name w g -> exists w', w = s_ "name" ++ w'.
Proof.
  unfold re_name. intros M. inversion M; subst; inv_matches; eauto.
Qed.

Lemma matches_description_begins (w : str) (g : groups) :
  matches re_description w g -> exists w', w = s_ "description" ++ w'.
Proof.
  intros M. apply matches_description in M as (ws1 & ws2 & -> & _). eauto.
Qed.

Lemma not_in_forallb (c : char) (s : str) :
  ~ In c s -> forallb (is_not c) s = true.
Proof.
  induction s as [|x s IH]; intros H; [reflexivity|]. simpl.
  rewrite IH by (intros Hin; apply H; now right).
  unfold is_not. destruct (N.eqb_spec x c) as [->|]; [|reflexivity].
  exfalso. apply H. now left.
Qed.

Lemma match_here_name_braced (ws1 ws2 n rest : str) :
  forallb isspace ws1 = true -> forallb isspace ws2 = true ->
  forallb (is_not (ch "}")) n = true ->
  exists k,
    match_here re_name false
      (s_ "name" ++ ws1 ++ s_ "=" ++ ws2 ++ s_ "{" ++ n ++ s_ "}" ++ rest)
    = Some (k, [(1%nat, n)]).
Proof.
  intros H1 H2 Hn. eexists. unfold match_here, re_name. cbn [run].
  rewrite strip_prefix_refl.
  erewrite (star_longest isspace ws1); [reflexivity | exact H1 | | reflexivity].
  cbv beta. rewrite strip_prefix_refl.
  apply (star_longest isspace ws2); [exact H2 | | reflexivity].
  rewrite strip_prefix_refl.
  apply (star_longest (is_not (ch "}")) n); [exact Hn | | apply is_not_refl].
  rewrite strip_prefix_refl. cbn [andb].
  match goal with
  | |- context [firstn ?k _] => replace k with (List.length n) by lia
  end.
  rewrite firstn_app, firstn_all, Nat.sub_diag. simpl firstn.
  rewrite app_nil_r. reflexivity.
Qed.

Lemma braced_app (body rest : str) :
  braced body ++ rest = s_ "{" ++ body ++ s_ "}" ++ rest.
Proof.
  unfold braced. change (s_ "{") with [ch "{"]. change (s_ "}") with [ch "}"].
  simpl. now rewrite <- app_assoc.
Qed.

Lemma parse_name_braced (a ws1 ws2 n rest : str) :
  starts_within (s_ "name")
    (a ++ s_ "name" ++ ws1 ++ s_ "=" ++ ws2 ++ braced n ++ rest)
    (List.length a) = false ->
  forallb isspace ws1 = true -> forallb isspace ws2 = true ->
  ~ In (ch "}") n ->
  parse_name (a ++ s_ "name" ++ ws1 ++ s_ "=" ++ ws2 ++ braced n ++ rest)
  = Some (strip n).
Proof.
  rewrite braced_app. intros Ha H1 H2 Hn.
  destruct (match_here_name_braced ws1 ws2 n rest H1 H2
              (not_in_forallb _ _ Hn)) as (k & M).
  unfold parse_name.
  rewrite (search_written re_name (s_ "name") a _ k _ matches_name_begins Ha M).
  cbv zeta. unfold group. cbn [m_groups lookup Nat.eqb].
  destruct n; reflexivity.
Qed.

Lemma span_unique (p : char -> bool) :
  forall a a' c c' x y,
    forallb p a = true -> forallb p a' = true ->
    p c = false -> p c' = false ->
    a ++ c :: x = a' ++ c' :: y -> a = a' /\ c = c' /\ x = y.
Proof.
  induction a as [|u a IH]; intros [|u' a'] c c' x y Ha Ha' Hc Hc' E;
    simpl in *.
  - injection E as -> ->. auto.
  - injection E as -> _. apply andb_true_iff in Ha' as [Hu _]. congruence.
  - injection E as -> _. apply andb_true_iff in Ha as [Hu _]. congruence.
  - injection E as -> E. apply andb_true_iff in Ha as [_ Ha].
    apply andb_true_iff in Ha' as [_ Ha'].
    destruct (IH a' c c' x y Ha Ha' Hc Hc' E) as (-> & -> & ->). auto.
Qed.

Lemma run_alt_right {R : Type} (r1 r2 : regex) (s : str) (n : nat) (g : groups)
      (k : str -> nat -> groups -> option R) :
  run r1 s n g k = None -> run (Alt r1 r2) s n g k = run r2 s n g k.
Proof. cbn [run]. now intros ->. Qed.

Lemma match_here_name_bare (ws1 ws2 v rest : str) (c : char) :
  forallb isspace ws1 = true -> forallb isspace ws2 = true ->
  isspace c = false -> c <> ch "{" ->
  ~ In (ch ",") (c :: v) -> ~ In (ch "}") (c :: v) ->
  ends_value rest = true ->
  exists k,
    match_here re_name false
      (s_ "name" ++ ws1 ++ s_ "=" ++ ws2 ++ (c :: v) ++ rest)
    = Some (k, [(2%nat, c :: v)]).
Proof.
  intros H1 H2 Hc Hb Hcomma Hbrace Hrest. eexists.
  unfold match_here, re_name. rewrite run_alt_right.
  - cbn [run]. rewrite strip_prefix_refl.
    erewrite (star_longest isspace ws1); [reflexivity | exact H1 | | reflexivity].
    cbv beta. rewrite strip_prefix_refl.
    apply (star_longest isspace ws2); [exact H2 | | exact Hc].
    assert (Hv : forallb (fun c0 => negb ((c0 =? ch ",") || (c0 =? ch "}"))%N)
                   (c :: v) = true).
    { apply forallb_forall. intros x Hx.
      destruct (N.eqb_spec x (ch ",")) as [->|]; [contradiction|].
      destruct (N.eqb_spec x (ch "}")) as [->|]; [contradiction|reflexivity]. }
    cbn [forallb] in Hv. apply andb_true_iff in Hv as [Hv0 Hv].
    cbn [app]. rewrite Hv0.
    apply (star_longest _ v); [exact Hv | |].
    + cbn [andb].
      match goal with
      | |- context [firstn ?k _] => replace k with (S (List.length v)) by lia
      end.
      cbn [firstn]. rewrite firstn_app, firstn_all, Nat.sub_diag. simpl firstn.
      rewrite app_nil_r. reflexivity.
    + destruct rest as [|x rest]; [exact I|]. simpl in Hrest.
      now rewrite Hrest.
  - match goal with
    | |- ?lhs = None => destruct lhs as [x|] eqn:E; [exfalso|reflexivity]
    end.
    apply run_sound in E as (w & s' & g' & Es & M & _).
    inv_matches.
    repeat match goal with
           | H : forallb isspace _ = true |- _ => revert H
           end.
    intros F1 F2 F3 F4.
    rewrite <- !app_assoc in Es. apply app_inv_head in Es.
    change (s_ "=") with [ch "="] in Es. change (s_ "{") with [ch "{"] in Es.
    cbn [app] in Es.
    match type of Es with
    | ws1 ++ _ :: _ = ?a' ++ _ :: _ =>
        apply (span_unique isspace ws1 a') in Es as (_ & _ & Es);
        try assumption; try reflexivity
    end.
    match type of Es with
    | ws2 ++ _ :: _ = ?a' ++ _ :: _ =>
        apply (span_unique isspace ws2 a') in Es as (_ & Es & _);
        try assumption; try reflexivity
    end.
    contradiction.
Qed.

Lemma match_here_description (ws1 ws2 rest : str) :
  forallb isspace ws1 = true -> forallb isspace ws2 = true ->
  match_here re_description false
    (s_ "description" ++ ws1 ++ s_ "=" ++ ws2 ++ s_ "{" ++ rest)
  = Some (List.length (s_ "description" ++ ws1 ++ s_ "=" ++ ws2 ++ s_ "{"), []).
Proof.
  intros H1 H2. unfold match_here, re_description. cbn [run].
  rewrite strip_prefix_refl.
  erewrite (star_longest isspace ws1); [reflexivity | exact H1 | | reflexivity].
  cbv beta. rewrite strip_prefix_refl.
  apply (star_longest isspace ws2); [exact H2 | | reflexivity].
  rewrite strip_prefix_refl. cbn [andb]. rewrite !length_app.
  do 2 f_equal. lia.
Qed.

Lemma parse_description_written (a ws1 ws2 d rest : str) :
  starts_within (s_ "description")
    (a ++ s_ "description" ++ ws1 ++ s_ "=" ++ ws2 ++ braced d ++ rest)
    (List.length a) = false ->
  forallb isspace ws1 = true -> forallb isspace ws2 = true ->
  balanced d ->
  parse_description
    (a ++ s_ "description" ++ ws1 ++ s_ "=" ++ ws2 ++ braced d ++ rest)
  = Ok (Some (strip d)).
Proof.
  rewrite braced_app. intros Ha H1 H2 Bd.
  pose proof (match_here_description ws1 ws2 (d ++ s_ "}" ++ rest) H1 H2) as M.
  unfold parse_description.
  rewrite (search_written re_description (s_ "description") a _ _ _
             matches_description_begins Ha M).
  cbv zeta. cbn [m_end].
  set (pre := a ++ s_ "description" ++ ws1 ++ s_ "=" ++ ws2).
  assert (Et : a ++ s_ "description" ++ ws1 ++ s_ "=" ++ ws2 ++ s_ "{" ++ d
                 ++ s_ "}" ++ rest
               = pre ++ ch "{" :: d ++ ch "}" :: rest)
    by (unfold pre; now rewrite <- !app_assoc).
  assert (El : len a + Z.of_nat (List.length (s_ "description" ++ ws1 ++ s_ "="
                                                 ++ ws2 ++ s_ "{")) - 1
               = len pre).
  { unfold pre, len. rewrite !length_app. simpl List.length. lia. }
  rewrite El, Et.
  rewrite (find_matching_brace_at _ pre d rest eq_refl Bd). simpl bind.
  pose proof (len_nonneg pre). pose proof (len_nonneg d).
  destruct (Z.eqb_spec (len pre + len d + 1) (-1)); [lia|]. simpl negb. cbv iota.
  replace (pre ++ ch "{" :: d ++ ch "}" :: rest)
    with ((pre ++ [ch "{"]) ++ d ++ ch "}" :: rest)
    by (now rewrite <- app_assoc).
  replace (len pre + 1) with (len (pre ++ [ch "{"]))
    by (rewrite len_app; reflexivity).
  replace (len pre + len d + 1) with (len (pre ++ [ch "{"]) + len d)
    by (rewrite len_app; unfold len at 2; simpl; lia).
  now rewrite (slice_at _ (pre ++ [ch "{"]) d (ch "}" :: rest) eq_refl).
Qed.

(** X20. The name written in braces. In a parameter block where the word
    [name] does not start before it, [name = {N}] gives the text [N]
    trimmed, read up to the FIRST closing brace behind the opening one:
    braces nested in the name are not matched. *)
Theorem name_in_braces (a ws1 ws2 n rest : str) :
  starts_within (s_ "name")
    (a ++ s_ "name" ++ ws1 ++ s_ "=" ++ ws2 ++ braced n ++ rest)
    (List.length a) = false ->
  forallb isspace ws1 = true -> forallb isspace ws2 = true ->
  ~ In (ch "}") n ->
  parse_name (a ++ s_ "name" ++ ws1 ++ s_ "=" ++ ws2 ++ braced n ++ rest)
  = Some (strip n).
Proof. exact (parse_name_braced a ws1 ws2 n rest). Qed.

Lemma name_in_braces_witness :
  parse_name (s_ " " ++ s_ "name" ++ s_ " " ++ s_ "=" ++ [] ++ braced (s_ " Foo ")
                 ++ s_ ", description={Bar}")
  = Some (s_ "Foo")
  /\ parse_name (s_ "type=x, " ++ s_ "name" ++ [] ++ s_ "=" ++ []
                    ++ braced (s_ "\textbf{CPU") ++ s_ "}, description={Bar}")
     = Some (s_ "\textbf{CPU").
Proof.
  split.
  - apply (name_in_braces (s_ " ") (s_ " ") [] (s_ " Foo ")
             (s_ ", description={Bar}")); try reflexivity.
    simpl. intuition discriminate.
  - apply (name_in_braces (s_ "type=x, ") [] [] (s_ "\textbf{CPU")
             (s_ "}, description={Bar}")); try reflexivity.
    simpl. intuition discriminate.
Defined.

(** X21. The name written without braces. In a parameter block where the
    word [name] does not start before it, [name = V], with [V] starting
    with a character that is neither white space nor an opening brace and
    running up to the next comma or closing brace or the end of the block,
    gives [V] trimmed; [V] may hold blanks and opening braces. *)
Theorem name_without_braces (a ws1 ws2 v rest : str) (c : char) :
  starts_within (s_ "name")
    (a ++ s_ "name" ++ ws1 ++ s_ "=" ++ ws2 ++ (c :: v) ++ rest)
    (List.length a) = false ->
  forallb isspace ws1 = true -> forallb isspace ws2 = true ->
  isspace c = false -> c <> ch "{" ->
  ~ In (ch ",") (c :: v) -> ~ In (ch "}") (c :: v) ->
  ends_value rest = true ->
  parse_name (a ++ s_ "name" ++ ws1 ++ s_ "=" ++ ws2 ++ (c :: v) ++ rest)
  = Some (strip (c :: v)).
Proof.
  intros Ha H1 H2 Hc Hb Hcomma Hbrace Hrest.
  destruct (match_here_name_bare ws1 ws2 v rest c H1 H2 Hc Hb Hcomma Hbrace
              Hrest) as (k & M).
  unfold parse_name.
  rewrite (search_written re_name (s_ "name") a _ k _ matches_name_begins Ha M).
  reflexivity.
Qed.

Lemma name_without_braces_witness :
  parse_name (s_ "type=x, " ++ s_ "name" ++ [] ++ s_ "=" ++ s_ " "
                 ++ (ch "C" :: s_ "entral Unit ") ++ s_ ", description={Bar}")
  = Some (s_ "Central Unit").
Proof.
  apply (name_without_braces (s_ "type=x, ") [] (s_ " ") (s_ "entral Unit ")
           (s_ ", description={Bar}") (ch "C")); try reflexivity.
  - discriminate.
  - simpl. intuition discriminate.
  - simpl. intuition discriminate.
Defined.

(** X22. The description written in braces. In a parameter block where
    the word [description] does not start before it,
    [description = {D}] with balanced braces in [D] gives [D] trimmed, up
    to the closing brace that matches the opening one: unlike the name, a
    description may hold nested braces. *)
Theorem description_in_braces (a ws1 ws2 d rest : str) :
  starts_within (s_ "description")
    (a ++ s_ "description" ++ ws1 ++ s_ "=" ++ ws2 ++ braced d ++ rest)
    (List.length a) = false ->
  forallb isspace ws1 = true -> forallb isspace ws2 = true ->
  balanced d ->
  parse_description
    (a ++ s_ "description" ++ ws1 ++ s_ "=" ++ ws2 ++ braced d ++ rest)
  = Ok (Some (strip d)).
Proof. exact (parse_description_written a ws1 ws2 d rest). Qed.

Lemma description_in_braces_witness :
  parse_description
    (s_ "name={Foo}, " ++ s_ "description" ++ s_ " " ++ s_ "=" ++ s_ " "
        ++ braced (s_ " a \textbf{fast} chip ") ++ s_ ", x={y}")
  = Ok (Some (s_ "a \textbf{fast} chip")).
Proof.
  apply (description_in_braces (s_ "name={Foo}, ") (s_ " ") (s_ " ")
           (s_ " a \textbf{fast} chip ") (s_ ", x={y}")); try reflexivity.
  apply balanced_check. reflexivity.
Defined.

Lemma glossary_emit_named (key n d : str) :
  n <> [] -> d <> [] ->
  glossary_emit key (Some n) (Some d)
  = [ {| name := clean_latex_text n; description := clean_latex_text d |} ].
Proof.
  intros Hn Hd. unfold glossary_emit.
  destruct n; [contradiction|]. destruct d; [contradiction|]. reflexivity.
Qed.

(** X23. A glossary command with name and description. For a command
    written in full whose parameter block holds [name = {N}] and, behind
    it, [description = {D}] (the two words not starting earlier in the
    block, no closing brace in [N], balanced braces in [D], both not blank),
    the parser returns the entry with the normalized [N] as name and the
    normalized [D] as description, the key playing no part, followed by
    the entries of the text behind the command. *)
Theorem glossary_entry_with_name_and_description
        (junk g1 key g2 p0 ws1 ws2 n mid ws3 ws4 d tail post : str)
        (l : list entry) :
  let params :=
    p0 ++ s_ "name" ++ ws1 ++ s_ "=" ++ ws2 ++ braced n ++ mid
       ++ s_ "description" ++ ws3 ++ s_ "=" ++ ws4 ++ braced d ++ tail in
  let text :=
    junk ++ s_ "\newglossaryentry" ++ g1 ++ braced key ++ g2
         ++ braced params ++ post in
  starts_within (s_ "\newglossaryentry") text (List.length junk) = false ->
  ~ In (ch "{") g1 -> ~ In (ch "{") g2 -> balanced key -> balanced params ->
  starts_within (s_ "name") params (List.length p0) = false ->
  starts_within (s_ "description") params
    (List.length (p0 ++ s_ "name" ++ ws1 ++ s_ "=" ++ ws2 ++ braced n ++ mid))
  = false ->
  forallb isspace ws1 = true -> forallb isspace ws2 = true ->
  forallb isspace ws3 = true -> forallb isspace ws4 = true ->
  ~ In (ch "}") n -> balanced d ->
  strip n <> [] -> strip d <> [] ->
  parse_glossary_entries post = Ok l ->
  parse_glossary_entries text
  = Ok ({| name := clean_latex_text (strip n);
           description := clean_latex_text (strip d) |} :: l).
Proof.
  intros params text Hj H1 H2 Bk Bp Hname Hdesc S1 S2 S3 S4 Hn Bd Nn Nd El.
  assert (En : parse_name params = Some (strip n))
    by (now apply parse_name_braced).
  assert (Ed : parse_description params = Ok (Some (strip d))).
  { replace params
      with ((p0 ++ s_ "name" ++ ws1 ++ s_ "=" ++ ws2 ++ braced n ++ mid)
              ++ s_ "description" ++ ws3 ++ s_ "=" ++ ws4 ++ braced d ++ tail)
      in *
      by (unfold params; now rewrite <- !app_assoc).
    now apply parse_description_written. }
  unfold text.
  rewrite (parse_glossary_entries_sequence junk g1 key g2 params post
             (Some (strip d)) l Hj H1 H2 Bk Bp Ed El).
  now rewrite En, glossary_emit_named.
Qed.

Lemma glossary_entry_with_name_and_description_witness :
  parse_glossary_entries
    (s_ "% terms " ++ s_ "\newglossaryentry" ++ [] ++ braced (s_ "cpu") ++ []
        ++ braced (s_ " " ++ s_ "name" ++ [] ++ s_ "=" ++ []
                      ++ braced (s_ " Main  CPU ") ++ s_ ", "
                      ++ s_ "description" ++ s_ " " ++ s_ "=" ++ s_ " "
                      ++ braced (s_ "a  {fast} chip") ++ s_ " ")
        ++ s_ " \newglossaryentry{ram}{description={memory}}")
  = Ok [mk "Main CPU" "a {fast} chip"; mk "ram" "memory"].
Proof.
  apply (glossary_entry_with_name_and_description
           (s_ "% terms ") [] (s_ "cpu") [] (s_ " ") [] []
           (s_ " Main  CPU ") (s_ ", ") (s_ " ") (s_ " ")
           (s_ "a  {fast} chip") (s_ " ")
           (s_ " \newglossaryentry{ram}{description={memory}}")
           [mk "ram" "memory"]);
    try reflexivity; try discriminate;
    try (apply balanced_check; reflexivity);
    try (simpl; intuition discriminate).
Defined.

End FieldsMore.

(* ================================================================== *)
(** * Commands that are not complete *)
(* ================================================================== *)

Section Incomplete.

Lemma index_from_gap (c : char) (gap s : str) :
  forall i, ~ In c gap -> index_from c (gap ++ s) i = index_from c s (i + len gap).
Proof.
  induction gap as [|x gap IH]; intros i H; simpl.
  - f_equal. unfold len. simpl. lia.
  - destruct (N.eqb_spec x c) as [->|_]; [exfalso; apply H; now left|].
    rewrite IH by (intros Hc; apply H; now right).
    rewrite len_cons. f_equal. lia.
Qed.

Lemma find_from_prefix (x y : str) (c : char) :
  find (x ++ y) c (len x) = index_from c y (len x).
Proof.
  unfold find. rewrite slice_from_at.
  rewrite clamp_id
    by (rewrite len_app; pose proof (len_nonneg x); pose proof (len_nonneg y); lia).
  unfold len. now rewrite Nat2Z.id.
Qed.

Lemma find_gap (a gap rest : str) (c : char) :
  ~ In c gap ->
  find (a ++ gap ++ rest) c (len a) = find (a ++ gap ++ rest) c (len a + len gap).
Proof.
  intros H. rewrite find_from_prefix, index_from_gap by assumption.
  rewrite app_assoc, <- len_app. now rewrite find_from_prefix.
Qed.

Lemma brace_group_gap (a gap rest : str) :
  ~ In (ch "{") gap ->
  brace_group (a ++ gap ++ rest) (len a)
  = brace_group (a ++ gap ++ rest) (len a + len gap).
Proof. intros H. unfold brace_group. now rewrite find_gap. Qed.

Lemma brace_groups_shift (n : nat) (a t : str) :
  forall from from',
    0 <= from -> from' = len a + from ->
    brace_groups n t from = None ->
    brace_groups n (a ++ t) from' = None.
Proof.
  induction n as [|n IH]; intros from from' H -> E; [discriminate|].
  cbn [brace_groups] in *.
  rewrite (brace_group_shift a t from _ H eq_refl).
  destruct (brace_group t from) as [g|] eqn:G; [|reflexivity].
  pose proof (brace_group_in_range t from g G) as R.
  cbn [option_map].
  rewrite (IH (snd g + 1) (snd (shift_group (len a) g) + 1));
    [reflexivity | lia | unfold shift_group; simpl; lia |].
  destruct (brace_groups n t (snd g + 1)); [discriminate|reflexivity].
Qed.

Lemma brace_groups_behind_command (n : nat) (junk command post : str) :
  ~ In (ch "{") command ->
  brace_groups (S n) post 0 = None ->
  brace_groups (S n) (junk ++ command ++ post) (len junk) = None.
Proof.
  intros Hc E. cbn [brace_groups] in *.
  rewrite brace_group_gap by assumption.
  rewrite app_assoc, <- len_app.
  rewrite (brace_group_shift (junk ++ command) post 0 _ (Z.le_refl 0))
    by lia.
  destruct (brace_group post 0) as [g|] eqn:G; [|reflexivity].
  pose proof (brace_group_in_range post 0 g G) as R.
  cbn [option_map].
  rewrite (brace_groups_shift n (junk ++ command) post (snd g + 1)
             (snd (shift_group (len (junk ++ command)) g) + 1));
    [reflexivity | lia | unfold shift_group; simpl; lia |].
  destruct (brace_groups n post (snd g + 1)); [discriminate|reflexivity].
Qed.

Lemma glossary_turn_incomplete (tex_content : str) (pos : Z) (m : Match) :
  search re_newglossaryentry (slice_from tex_content pos) = Some m ->
  brace_groups 2 tex_content (pos + m_start m) = None ->
  glossary_turn tex_content pos = Ok (Continue (pos + m_end m) []).
Proof.
  intros Hs. rewrite glossary_turn_occurrence. unfold glossary_occurrence.
  rewrite Hs. cbv zeta. cbn [brace_groups].
  destruct (brace_group tex_content (pos + m_start m)) as [key|];
    [|reflexivity].
  destruct (brace_group tex_content (snd key + 1)) as [block|];
    [discriminate|reflexivity].
Qed.

Lemma acronym_turn_incomplete (tex_content : str) (pos : Z) (m : Match) :
  search re_newacronym (slice_from tex_content pos) = Some m ->
  brace_groups 3 tex_content (pos + m_start m) = None ->
  acronym_turn tex_content pos = Ok (Continue (pos + m_end m) []).
Proof.
  intros Hs. rewrite acronym_turn_occurrence. unfold acronym_occurrence.
  rewrite Hs. cbv zeta. cbn [brace_groups].
  destruct (brace_group tex_content (pos + m_start m)) as [key|];
    [|reflexivity].
  destruct (brace_group tex_content (snd key + 1)) as [short|];
    [|reflexivity].
  destruct (brace_group tex_content (snd short + 1)) as [long|];
    [discriminate|reflexivity].
Qed.

Lemma scan_loop_incomplete (command : str) (body : str -> Z -> result turn)
      (junk post : str) :
  forward_only command body -> progresses body ->
  body (junk ++ command ++ post) 0
  = Ok (Continue (len (junk ++ command)) []) ->
  command <> [] ->
  scan_loop body (S (List.length (junk ++ command ++ post)))
            (junk ++ command ++ post) 0 []
  = scan_loop body (S (List.length post)) post 0 [].
Proof.
  intros Hf Hbody E Hc.
  destruct (scan_loop_total body Hbody (S (List.length post)) post 0 [])
    as (l & El & _); [lia | unfold len; lia |].
  rewrite El. simpl app. rewrite app_assoc in *.
  apply (scan_loop_sequence command body (junk ++ command) post [] l Hf Hbody E);
    [|exact El].
  rewrite len_app. pose proof (len_nonneg junk).
  destruct command; [contradiction|]. rewrite len_cons.
  pose proof (len_nonneg command). lia.
Qed.

Lemma parse_glossary_entries_incomplete (junk post : str) :
  starts_within (s_ "\newglossaryentry")
    (junk ++ s_ "\newglossaryentry" ++ post) (List.length junk) = false ->
  brace_groups 2 post 0 = None ->
  parse_glossary_entries (junk ++ s_ "\newglossaryentry" ++ post)
  = parse_glossary_entries post.
Proof.
  intros Hj Hg.
  apply (scan_loop_incomplete (s_ "\newglossaryentry") glossary_turn);
    [exact glossary_turn_forward | exact glossary_turn_progresses
     | | discriminate].
  rewrite (glossary_turn_skip junk _ Hj).
  rewrite (glossary_turn_incomplete _ (len junk)
             {| m_start := 0; m_end := len (s_ "\newglossaryentry");
                m_groups := [] |}).
  - cbn [m_end]. now rewrite len_app.
  - rewrite slice_from_at. apply search_lit_head.
  - cbn [m_start]. rewrite Z.add_0_r.
    apply brace_groups_behind_command; [|exact Hg].
    simpl. intuition discriminate.
Qed.

Lemma parse_acronym_entries_incomplete (junk post : str) :
  starts_within (s_ "\newacronym")
    (junk ++ s_ "\newacronym" ++ post) (List.length junk) = false ->
  brace_groups 3 post 0 = None ->
  parse_acronym_entries (junk ++ s_ "\newacronym" ++ post)
  = parse_acronym_entries post.
Proof.
  intros Hj Hg.
  apply (scan_loop_incomplete (s_ "\newacronym") acronym_turn);
    [exact acronym_turn_forward | exact acronym_turn_progresses
     | | discriminate].
  rewrite (acronym_turn_skip junk _ Hj).
  rewrite (acronym_turn_incomplete _ (len junk)
             {| m_start := 0; m_end := len (s_ "\newacronym");
                m_groups := [] |}).
  - cbn [m_end]. now rewrite len_app.
  - rewrite slice_from_at. apply search_lit_head.
  - cbn [m_start]. rewrite Z.add_0_r.
    apply brace_groups_behind_command; [|exact Hg].
    simpl. intuition discriminate.
Qed.

(** X24. A glossary command that is not complete loses only itself. When
    fewer than two brace groups can be located behind the command word
    (no brace, or a brace that is never closed), the command gives no
    entry and the text behind the command word is parsed as if the
    command word were not there: commands behind it are still found. *)
Theorem incomplete_glossary_command_skipped (junk post : str) :
  starts_within (s_ "\newglossaryentry")
    (junk ++ s_ "\newglossaryentry" ++ post) (List.length junk) = false ->
  brace_groups 2 post 0 = None ->
  parse_glossary_entries (junk ++ s_ "\newglossaryentry" ++ post)
  = parse_glossary_entries post.
Proof. exact (parse_glossary_entries_incomplete junk post). Qed.

Lemma incomplete_glossary_command_skipped_witness :
  parse_glossary_entries
    (s_ "% " ++ s_ "\newglossaryentry"
        ++ s_ "{a}{description={x} \newglossaryentry{b}{description={y}}")
  = parse_glossary_entries
      (s_ "{a}{description={x} \newglossaryentry{b}{description={y}}").
Proof.
  apply (incomplete_glossary_command_skipped (s_ "% ")
           (s_ "{a}{description={x} \newglossaryentry{b}{description={y}}"));
    reflexivity.
Defined.

(** X25. An acronym command that is not complete loses only itself. When
    fewer than three brace groups can be located behind the command word,
    the command gives no entry and the text behind the command word is
    parsed as if the command word were not there. *)
Theorem incomplete_acronym_command_skipped (junk post : str) :
  starts_within (s_ "\newacronym")
    (junk ++ s_ "\newacronym" ++ post) (List.length junk) = false ->
  brace_groups 3 post 0 = None ->
  parse_acronym_entries (junk ++ s_ "\newacronym" ++ post)
  = parse_acronym_entries post.
Proof. exact (parse_acronym_entries_incomplete junk post). Qed.

Lemma incomplete_acronym_command_skipped_witness :
  parse_acronym_entries
    (s_ "% " ++ s_ "\newacronym"
        ++ s_ "{a}{A}{long \newacronym{b}{B}{second}")
  = parse_acronym_entries (s_ "{a}{A}{long \newacronym{b}{B}{second}").
Proof.
  apply (incomplete_acronym_command_skipped (s_ "% ")
           (s_ "{a}{A}{long \newacronym{b}{B}{second}"));
    reflexivity.
Defined.

End Incomplete.

(* ================================================================== *)
(** * Counting the entries *)
(* ================================================================== *)

Section Counting.

Lemma occurrences_tail (l s : str) :
  (occurrences l (skipn 1 s) <= occurrences l s)%nat.
Proof. destruct s as [|c s]; simpl; lia. Qed.

Lemma occurrences_skipn (l : str) (k : nat) :
  forall s, (occurrences l (skipn k s) <= occurrences l s)%nat.
Proof.
  induction k as [|k IH]; intros s; [simpl; lia|].
  destruct s as [|c s]; [simpl; lia|].
  simpl skipn. specialize (IH s). simpl occurrences. lia.
Qed.

Lemma occurrences_head (l s s' : str) :
  l <> [] -> strip_prefix l s = Some s' ->
  (occurrences l (skipn 1 s) + 1 <= occurrences l s)%nat.
Proof.
  intros Hl E. destruct s as [|c s].
  - destruct l; [contradiction|discriminate].
  - simpl skipn. simpl occurrences. cbn [strip_prefix] in E. rewrite E. lia.
Qed.

Lemma occurrences_behind (l s s' : str) (k j : nat) :
  l <> [] -> strip_prefix l (skipn k s) = Some s' -> (k < j)%nat ->
  (occurrences l (skipn j s) + 1 <= occurrences l s)%nat.
Proof.
  intros Hl E Hj.
  replace j with ((j - k - 1) + (1 + k))%nat by lia.
  rewrite <- !skipn_skipn.
  pose proof (occurrences_skipn l (j - k - 1) (skipn 1 (skipn k s))).
  pose proof (occurrences_head l (skipn k s) s' Hl E).
  pose proof (occurrences_skipn l k s). lia.
Qed.

Lemma scan_trace_bounded (command : str) (body : str -> Z -> result turn)
      (tex_content : str) :
  command <> [] -> progresses body ->
  (forall pos pos' appended,
      0 <= pos ->
      body tex_content pos = Ok (Continue pos' appended) ->
      (List.length appended <= 1)%nat
      /\ exists m, search (Lit command) (slice_from tex_content pos) = Some m
                   /\ pos + m_start m < pos') ->
  forall pos l,
    scan_trace body tex_content pos l ->
    0 <= pos -> pos <= len tex_content ->
    (List.length l <= occurrences command (slice_from tex_content pos))%nat.
Proof.
  intros Hc Hprog Hbody pos l T.
  induction T as [pos E|pos pos' appended rest E Hlt T IH]; intros H0 H1;
    [simpl; lia|].
  destruct (Hbody pos pos' appended H0 E) as (Happ & m & Hs & Hm).
  destruct (Hprog tex_content pos H0) as (t & Et & Ht).
  rewrite E in Et. injection Et as <-.
  specialize (IH ltac:(lia) ltac:(lia)).
  rewrite length_app.
  apply search_from_sound in Hs as (pre & w & post & Es & M & Hst & _ & _).
  apply matches_lit in M as [-> _].
  unfold slice_from in *. rewrite !clamp_id in * by lia.
  replace (Z.to_nat pos') with ((Z.to_nat pos' - Z.to_nat pos) + Z.to_nat pos)%nat
    in IH by lia.
  rewrite <- skipn_skipn in IH.
  assert (E' : strip_prefix command
                 (skipn (List.length pre) (skipn (Z.to_nat pos) tex_content))
               = Some post)
    by (rewrite Es, skipn_length_app; apply strip_prefix_refl).
  pose proof (occurrences_behind command _ post (List.length pre)
                (Z.to_nat pos' - Z.to_nat pos) Hc E' ltac:(lia)).
  lia.
Qed.

Lemma brace_group_from (tex_content : str) (from : Z) (g : Z * Z) :
  0 <= from -> brace_group tex_content from = Some g ->
  from <= fst g < snd g.
Proof.
  intros H G. pose proof (brace_group_in_range tex_content from g G).
  destruct g as [b e]. apply brace_group_some in G as (F & Hb & _).
  apply Z.eqb_neq in Hb.
  destruct (find_range tex_content (ch "{") from H); simpl in *; lia.
Qed.

Lemma glossary_emit_length (key : str) (name description : option str) :
  (List.length (glossary_emit key name description) <= 1)%nat.
Proof.
  unfold glossary_emit. cbv zeta.
  destruct (if negb (truthy_opt name) then Some key else name) as [n|];
    [|simpl; lia].
  destruct description as [d|]; [|simpl; lia].
  destruct (truthy n && truthy d); simpl; lia.
Qed.

Lemma glossary_turn_consumes (tex_content : str) (pos pos' : Z) appended :
  0 <= pos ->
  glossary_turn tex_content pos = Ok (Continue pos' appended) ->
  (List.length appended <= 1)%nat
  /\ exists m,
      search (Lit (s_ "\newglossaryentry")) (slice_from tex_content pos) = Some m
      /\ pos + m_start m < pos'.
Proof.
  intros H0. rewrite glossary_turn_occurrence. unfold glossary_occurrence.
  fold re_newglossaryentry.
  destruct (search re_newglossaryentry (slice_from tex_content pos))
    as [m|] eqn:Hs; [|discriminate].
  assert (R : 0 <= m_start m /\ m_start m < m_end m
              /\ pos + m_end m <= len tex_content)
    by (apply (search_slice_range (s_ "\newglossaryentry") tex_content pos m);
        [discriminate|assumption..]).
  cbv zeta.
  destruct (brace_group tex_content (pos + m_start m)) as [key|] eqn:G1;
    [|intros [= <- <-]; split; [simpl; lia|exists m; split; [reflexivity|lia]]].
  pose proof (brace_group_from tex_content (pos + m_start m) key ltac:(lia) G1).
  destruct (brace_group tex_content (snd key + 1)) as [block|] eqn:G2;
    [|intros [= <- <-]; split; [simpl; lia|exists m; split; [reflexivity|lia]]].
  pose proof (brace_group_from tex_content (snd key + 1) _ ltac:(lia) G2).
  destruct (parse_description _) as [d| |]; simpl; try discriminate.
  intros [= <- <-]. split; [apply glossary_emit_length|].
  exists m. split; [reflexivity|lia].
Qed.

Lemma acronym_turn_consumes (tex_content : str) (pos pos' : Z) appended :
  0 <= pos ->
  acronym_turn tex_content pos = Ok (Continue pos' appended) ->
  (List.length appended <= 1)%nat
  /\ exists m,
      search (Lit (s_ "\newacronym")) (slice_from tex_content pos) = Some m
      /\ pos + m_start m < pos'.
Proof.
  intros H0. rewrite acronym_turn_occurrence. unfold acronym_occurrence.
  fold re_newacronym.
  destruct (search re_newacronym (slice_from tex_content pos))
    as [m|] eqn:Hs; [|discriminate].
  assert (R : 0 <= m_start m /\ m_start m < m_end m
              /\ pos + m_end m <= len tex_content)
    by (apply (search_slice_range (s_ "\newacronym") tex_content pos m);
        [discriminate|assumption..]).
  cbv zeta.
  destruct (brace_group tex_content (pos + m_start m)) as [key|] eqn:G1;
    [|intros [= <- <-]; split; [simpl; lia|exists m; split; [reflexivity|lia]]].
  pose proof (brace_group_from tex_content (pos + m_start m) key ltac:(lia) G1).
  destruct (brace_group tex_content (snd key + 1)) as [short|] eqn:G2;
    [|intros [= <- <-]; split; [simpl; lia|exists m; split; [reflexivity|lia]]].
  pose proof (brace_group_from tex_content (snd key + 1) _ ltac:(lia) G2).
  destruct (brace_group tex_content (snd short + 1)) as [long|] eqn:G3;
    [|intros [= <- <-]; split; [simpl; lia|exists m; split; [reflexivity|lia]]].
  pose proof (brace_group_from tex_content (snd short + 1) _ ltac:(lia) G3).
  intros [= <- <-]. split.
  - destruct (clean_latex_text (group_text tex_content short));
      [simpl; lia|].
    destruct (clean_latex_text (group_text tex_content long)); simpl; lia.
  - exists m. split; [reflexivity|lia].
Qed.

(** X26. Never more entries than commands. Whatever the text, the
    glossary parser returns at most as many entries as there are places
    where [\newglossaryentry] starts, the acronym parser at most as many
    as there are places where [\newacronym] starts, and the combined
    parser the two lists one behind the other: a command gives one card
    or none. *)
Theorem at_most_one_entry_per_command (tex_content : str) :
  exists g a,
    parse_glossary_entries tex_content = Ok g
    /\ parse_acronym_entries tex_content = Ok a
    /\ parse_all_entries tex_content = Ok (g ++ a)
    /\ (List.length g <= occurrences (s_ "\newglossaryentry") tex_content)%nat
    /\ (List.length a <= occurrences (s_ "\newacronym") tex_content)%nat.
Proof.
  destruct (parse_glossary_entries_total tex_content) as (g & Eg & Tg).
  destruct (parse_acronym_entries_total tex_content) as (a & Ea & Ta).
  exists g, a. unfold parse_all_entries. rewrite Eg, Ea.
  pose proof (len_nonneg tex_content).
  repeat split.
  - rewrite <- (slice_from_zero tex_content) at 1.
    apply (scan_trace_bounded (s_ "\newglossaryentry") glossary_turn);
      [discriminate | exact glossary_turn_progresses
       | apply glossary_turn_consumes | exact Tg | lia | lia].
  - rewrite <- (slice_from_zero tex_content) at 1.
    apply (scan_trace_bounded (s_ "\newacronym") acronym_turn);
      [discriminate | exact acronym_turn_progresses
       | apply acronym_turn_consumes | exact Ta | lia | lia].
Qed.

End Counting.

(* ================================================================== *)
(** * The name fallback *)
(* ================================================================== *)

Section NameFallback.

Lemma lstrip_spaces (ws r : str) (c : char) :
  forallb isspace ws = true -> isspace c = false ->
  lstrip (ws ++ c :: r) = c :: r.
Proof.
  intros Hws Hc. induction ws as [|x ws IH]; simpl.
  - now rewrite Hc.
  - simpl in Hws. apply andb_true_iff in Hws as [Hx Hws]. rewrite Hx. auto.
Qed.

Lemma space_not_separator (c : char) :
  isspace c = true -> ((c =? ch ",") || (c =? ch "}"))%N = false.
Proof.
  intros H.
  destruct (N.eqb_spec c (ch ",")) as [->|_]; [discriminate|].
  destruct (N.eqb_spec c (ch "}")) as [->|_]; [discriminate|reflexivity].
Qed.

Lemma ends_value_spaces (ws x : str) :
  forallb isspace ws = true -> ends_value x = false ->
  ends_value (ws ++ x) = false.
Proof.
  intros Hws Hx. destruct ws as [|c ws]; [exact Hx|].
  simpl in Hws. apply andb_true_iff in Hws as [Hc _].
  simpl. now apply space_not_separator.
Qed.

(** What the name pattern matches: the word, white space, the equals sign
    and a text that does not start with a comma or a closing brace. *)
Lemma matches_name (w : str) (g : groups) :
  matches re_name w g ->
  exists ws1 b,
    w = s_ "name" ++ ws1 ++ s_ "=" ++ b
    /\ forallb isspace ws1 = true
    /\ forall s', ends_value (b ++ s') = false.
Proof.
  unfold re_name. intros M. inversion M; subst; inv_matches.
  - match goal with
    | |- context [s_ "name" ++ ?a ++ s_ "=" ++ ?b ++ s_ "{" ++ ?n ++ s_ "}"] =>
        exists a, (b ++ s_ "{" ++ n ++ s_ "}");
        split; [reflexivity|split; [assumption|]];
        intros s'; rewrite <- app_assoc;
        apply ends_value_spaces; [assumption|reflexivity]
    end.
  - match goal with
    | |- context [s_ "name" ++ ?a ++ s_ "=" ++ ?b ++ ?v] =>
        exists a, (b ++ v);
        split; [reflexivity|split; [assumption|]];
        intros s'; rewrite <- app_assoc;
        apply ends_value_spaces; [assumption|];
        destruct v as [|c v]; [contradiction|]
    end.
    match goal with
    | H : forallb _ (_ :: _) = true |- _ =>
        simpl in H; apply andb_true_iff in H as [H _];
        simpl; now apply negb_true_iff in H
    end.
Qed.

Lemma name_value_here_none (s : str) :
  name_value_here s = false -> match_here re_name false s = None.
Proof.
  intros H. apply match_here_none. intros w s' g E M.
  destruct (matches_name w g M) as (ws1 & b & -> & H1 & Hb). subst s.
  revert H. unfold name_value_here.
  rewrite <- !app_assoc, strip_prefix_refl.
  change (s_ "=" ++ b ++ s') with (ch "=" :: b ++ s').
  rewrite lstrip_spaces by (assumption || reflexivity).
  rewrite N.eqb_refl, Hb. discriminate.
Qed.

Lemma name_value_here_some (s : str) :
  name_value_here s = true -> match_here re_name false s <> None.
Proof.
  unfold name_value_here.
  destruct (strip_prefix (s_ "name") s) as [s1|] eqn:E; [|discriminate].
  apply strip_prefix_app in E. subst s.
  destruct (lstrip_split s1) as (ws & Es & Hws).
  destruct (lstrip s1) as [|e b]; [discriminate|].
  intros H. apply andb_true_iff in H as [He Hb].
  apply N.eqb_eq in He. subst e.
  destruct b as [|c b]; [discriminate|]. simpl in Hb.
  rewrite Es.
  replace (s_ "name" ++ ws ++ ch "=" :: c :: b)
    with ((s_ "name" ++ ws ++ s_ "=" ++ [] ++ [c]) ++ b)
    by (rewrite <- !app_assoc; reflexivity).
  unfold match_here, re_name.
  apply (run_complete _ _ b [(2%nat, [c])] 0%nat []); [|discriminate].
  apply M_AltR.
  apply (M_Seq _ _ (s_ "name") _ [] [(2%nat, [c])]); [constructor|].
  apply (M_Seq _ _ ws _ [] [(2%nat, [c])]); [now constructor|].
  apply (M_Seq _ _ (s_ "=") _ [] [(2%nat, [c])]); [constructor|].
  apply (M_Seq _ _ [] [c] [] [(2%nat, [c])]); [now constructor|].
  apply M_Group. constructor; [discriminate|].
  simpl. now rewrite Hb.
Qed.

Lemma has_name_field_none (s : str) :
  forall i, has_name_field s = false -> search_from re_name s i = None.
Proof.
  induction s as [|c s IH]; intros i H; cbn [has_name_field] in H;
    apply orb_false_iff in H as [H0 H]; cbn [search_from];
    rewrite (name_value_here_none _ H0); [reflexivity|].
  now apply IH.
Qed.

Lemma has_name_field_some (s : str) :
  forall i, has_name_field s = true -> search_from re_name s i <> None.
Proof.
  induction s as [|c s IH]; intros i H; cbn [has_name_field] in H;
    apply orb_true_iff in H as [H|H]; cbn [search_from];
    try (apply name_value_here_some in H;
         destruct (match_here re_name false _) as [[n g]|];
         [discriminate|contradiction]);
    [discriminate|].
  destruct (match_here re_name false (c :: s)) as [[n g]|];
    [discriminate|now apply IH].
Qed.

(** The name pattern of the program matches somewhere in a text exactly
    when a name field starts somewhere in it. *)
Lemma has_name_field_search (s : str) :
  has_name_field s = false <-> search re_name s = None.
Proof.
  split; [apply has_name_field_none|].
  intros H. destruct (has_name_field s) eqn:E; [|reflexivity].
  now apply (has_name_field_some s 0) in E.
Qed.

Lemma glossary_emit_fallback (key d : str) :
  glossary_emit key None (Some d)
  = if truthy key && truthy d
    then [ {| name := clean_latex_text key; description := clean_latex_text d |} ]
    else [].
Proof. reflexivity. Qed.

(** C2, amended. Name fallback of the glossary extractor. A name field is
    what the program looks for: any place of the parameter block, be it
    inside the description or at the end of a longer word, where the word
    [name], optional white space and [=] are followed by a character other
    than a comma and a closing brace. At every occurrence whose key and
    parameter block are located, whose parameter block holds no name field
    and whose description resolves to [d], the turn does not raise and the
    entry it appends, the key and [d] being non-empty, has the normalized
    key as name. So does a command written with key and parameter block in
    braces; and so does such a command whose block holds no name field and
    the description [description = {D}] written out, the entry being the
    normalized key with the normalized [D]. And the two examples of the
    specification. *)
Theorem glossary_name_fallback :
  (forall tex_content pos m key params d,
      search re_newglossaryentry (slice_from tex_content pos) = Some m ->
      brace_group tex_content (pos + m_start m) = Some key ->
      brace_group tex_content (snd key + 1) = Some params ->
      has_name_field (slice tex_content (fst params + 1) (snd params)) = false ->
      parse_description (slice tex_content (fst params + 1) (snd params))
      = Ok (Some d) ->
      glossary_turn tex_content pos
      = Ok (Continue (snd params + 1)
              (if truthy (group_text tex_content key) && truthy d
               then [ {| name := clean_latex_text (group_text tex_content key);
                         description := clean_latex_text d |} ]
               else [])))
  /\ (forall pre g1 key g2 params post d,
         ~ In (ch "{") g1 -> ~ In (ch "{") g2 ->
         balanced key -> balanced params ->
         has_name_field params = false ->
         parse_description params = Ok (Some d) ->
         glossary_turn
           (pre ++ s_ "\newglossaryentry" ++ g1 ++ braced key ++ g2
                ++ braced params ++ post)
           (len pre)
         = Ok (Continue
                 (len (pre ++ s_ "\newglossaryentry" ++ g1 ++ braced key ++ g2
                           ++ braced params))
                 (if truthy (strip key) && truthy d
                  then [ {| name := clean_latex_text (strip key);
                            description := clean_latex_text d |} ]
                  else [])))
  /\ (forall pre g1 key g2 a ws1 ws2 D rest post,
         ~ In (ch "{") g1 -> ~ In (ch "{") g2 ->
         balanced key ->
         balanced (a ++ s_ "description" ++ ws1 ++ s_ "=" ++ ws2
                     ++ braced D ++ rest) ->
         has_name_field (a ++ s_ "description" ++ ws1 ++ s_ "=" ++ ws2
                           ++ braced D ++ rest) = false ->
         starts_within (s_ "description")
           (a ++ s_ "description" ++ ws1 ++ s_ "=" ++ ws2 ++ braced D ++ rest)
           (List.length a) = false ->
         forallb isspace ws1 = true -> forallb isspace ws2 = true ->
         balanced D ->
         glossary_turn
           (pre ++ s_ "\newglossaryentry" ++ g1 ++ braced key ++ g2
                ++ braced (a ++ s_ "description" ++ ws1 ++ s_ "=" ++ ws2
                             ++ braced D ++ rest)
                ++ post)
           (len pre)
         = Ok (Continue
                 (len (pre ++ s_ "\newglossaryentry" ++ g1 ++ braced key ++ g2
                           ++ braced (a ++ s_ "description" ++ ws1 ++ s_ "="
                                        ++ ws2 ++ braced D ++ rest)))
                 (if truthy (strip key) && truthy (strip D)
                  then [ {| name := clean_latex_text (strip key);
                            description := clean_latex_text (strip D) |} ]
                  else [])))
  /\ parse_glossary_entries (s_ "\newglossaryentry{k2}{description={D}}")
     = Ok [mk "k2" "D"]
  /\ parse_glossary_entries
       (s_ "\newglossaryentry{k1}{name={Foo},description={Bar baz}}")
     = Ok [mk "Foo" "Bar baz"].
Proof.
  split; [|split; [|split; [|split; vm_compute; reflexivity]]].
  - intros tex pos m [b1 e1] [b2 e2] d Hm H1 H2 Hn Hd.
    simpl fst in *. simpl snd in *.
    apply has_name_field_search in Hn.
    rewrite (glossary_turn_located tex pos m b1 e1 b2 e2 Hm H1 H2).
    rewrite Hd. simpl bind. unfold parse_name. rewrite Hn.
    now rewrite glossary_emit_fallback.
  - intros pre g1 key g2 params post d H1 H2 Bk Bp Hn Hd.
    apply has_name_field_search in Hn.
    rewrite glossary_turn_written by assumption.
    rewrite Hd. simpl bind. unfold parse_name. rewrite Hn.
    now rewrite glossary_emit_fallback.
  - intros pre g1 key g2 a ws1 ws2 D rest post H1 H2 Bk Bp Hn Hd S1 S2 BD.
    apply has_name_field_search in Hn.
    rewrite glossary_turn_written by assumption.
    unfold parse_name. rewrite Hn.
    rewrite parse_description_written by assumption.
    cbn [bind]. now rewrite glossary_emit_fallback.
Qed.

Lemma glossary_name_fallback_witness :
  glossary_turn (s_ "\newglossaryentry{k2}{description={D}}") 0
  = Ok (Continue 38 [mk "k2" "D"])
  /\ glossary_turn
       ([] ++ s_ "\newglossaryentry" ++ [] ++ braced (s_ "k2") ++ s_ " "
           ++ braced (s_ "description={D {x}}") ++ [])
       (len [])
     = Ok (Continue 43 [mk "k2" "D {x}"])
  /\ glossary_turn
       (s_ "x" ++ s_ "\newglossaryentry" ++ [] ++ braced (s_ " k3 ") ++ s_ " "
           ++ braced (s_ "type=t, " ++ s_ "description" ++ s_ " " ++ s_ "="
                         ++ [] ++ braced (s_ " D {x} ") ++ s_ ", name=")
           ++ s_ "y")
       (len (s_ "x"))
     = Ok (Continue 64 [mk "k3" "D {x}"]).
Proof.
  split; [|split].
  - exact (proj1 glossary_name_fallback
             (s_ "\newglossaryentry{k2}{description={D}}") 0
             {| m_start := 0; m_end := 17; m_groups := [] |}
             (17, 20) (21, 37) (s_ "D")
             eq_refl eq_refl eq_refl eq_refl eq_refl).
  - apply (proj1 (proj2 glossary_name_fallback) [] [] (s_ "k2") (s_ " ")
                 (s_ "description={D {x}}") [] (s_ "D {x}")).
    + intros [].
    + simpl. intuition discriminate.
    + apply balanced_check. reflexivity.
    + apply balanced_check. reflexivity.
    + reflexivity.
    + reflexivity.
  - apply (proj1 (proj2 (proj2 glossary_name_fallback))
                 (s_ "x") [] (s_ " k3 ") (s_ " ") (s_ "type=t, ") (s_ " ") []
                 (s_ " D {x} ") (s_ ", name=") (s_ "y")).
    + intros [].
    + simpl. intuition discriminate.
    + apply balanced_check. reflexivity.
    + apply balanced_check. reflexivity.
    + reflexivity.
    + reflexivity.
    + reflexivity.
    + reflexivity.
    + apply balanced_check. reflexivity.
Defined.

(** The claim C2 as it is written fails: these parameter blocks hold a
    description field and no name field, and the entry does not get the key
    as name. The program looks for the word [name] with [=] and a value at
    every place of the block, so it finds one inside the description and
    one at the end of the word [surname]. *)
Lemma glossary_name_fallback_counterexample :
  (brace_group (s_ "\newglossaryentry{k}{description={the name=foo, bar}}") 20
   = Some (20, 52)
   /\ slice (s_ "\newglossaryentry{k}{description={the name=foo, bar}}") 21 52
      = s_ "description={the name=foo, bar}"
   /\ parse_description (s_ "description={the name=foo, bar}")
      = Ok (Some (s_ "the name=foo, bar"))
   /\ parse_glossary_entries
        (s_ "\newglossaryentry{k}{description={the name=foo, bar}}")
      = Ok [mk "foo" "the name=foo, bar"]
   /\ parse_glossary_entries
        (s_ "\newglossaryentry{k}{description={the name=foo, bar}}")
      <> Ok [mk "k" "the name=foo, bar"])
  /\ (parse_glossary_entries
        (s_ "\newglossaryentry{k}{surname={S}, description={D}}")
      = Ok [mk "S" "D"]
      /\ parse_glossary_entries
           (s_ "\newglossaryentry{k}{surname={S}, description={D}}")
         <> Ok [mk "k" "D"]).
Proof.
  vm_compute. repeat split; try reflexivity; discriminate.
Qed.

End NameFallback.
